(** * ControlledTypeScriptSystem

    A shallow embedding of
    [src/typescript-reporter/reporter/ControlledTypeScriptSystem.ts]: the host
    that stands between the TypeScript compiler and the file system.  It keeps
    three registries of watcher callbacks, a set of queued directory changes, a
    tracker of deleted files and a set of pending timers, routes every write to
    one of two file-system providers, and synthesises the watcher
    notifications itself.

    Conventions of the embedding.
    - A JavaScript function object (a watcher callback, a timer callback) is
      known to the host by its identity only; it is a [Callback], a number.
      Two registrations of one function are two occurrences of one number.
    - Calling a watcher callback is consumer code running.  The host records
      the call in a trace, and the consumer's reaction (whatever it does to
      the host while it runs, by calling back into it) is the function
      [react], any function from states to states.  The trace of an operation
      holds the calls the operation itself makes, not what the consumer's
      reactions cause in turn.  Watcher callbacks are taken to return.
    - [Map] and [Set] are modelled as ECMAScript specifies them: a list of
      entries in insertion order in which a removed entry is emptied, not
      dropped, so that [forEach] can run over a collection that changes under
      it.  Such a [forEach] need not end (a reaction can add an entry at every
      step), so it takes fuel; where it matters the theorems say what fuel is
      enough.
    - A closure the host makes ([close] of a watcher, a queued directory
      change) is the record of what it captured.
    - Timers run on node's event loop; they are modelled by the steps the
      consumer and the event loop can take in turn (section Timers).
    - The two providers, the path helpers and the native directory watcher are
      not part of the file; they are the fields of [Platform]. *)

From stdpp Require Import gmap strings list.
From Stdlib Require Import ZArith Ascii.

Local Open Scope string_scope.
Local Open Scope list_scope.

(** ** String operations of the source *)

Module Str.

(** [s.startsWith(searchString)] *)
Definition startsWith (s searchString : string) : bool :=
  String.prefix searchString s.

(** [s.includes(searchString)]: [searchString] starts at some position of [s]. *)
Fixpoint includes (s searchString : string) : bool :=
  String.prefix searchString s ||
  match s with
  | EmptyString => false
  | String _ rest => includes rest searchString
  end.

(** [s.endsWith(searchString)]: the last [length searchString] characters of
    [s] are [searchString]. *)
Definition endsWith (s searchString : string) : bool :=
  (String.length searchString <=? String.length s)%nat &&
  String.eqb
    (String.substring (String.length s - String.length searchString)
       (String.length searchString) s)
    searchString.

(** [s[index]] *)
Definition at_ (s : string) (index : nat) : option Ascii.ascii :=
  String.get index s.

End Str.

(** ** [Map] and [Set]

    The entries of a collection, oldest first.  [None] is an entry that was
    deleted: ECMAScript empties it where it stands, which is what lets an
    iteration in progress skip it and go on to entries added meanwhile. *)

Module JsMap.
Section WithValue.
Context {V : Type}.

Definition t : Type := list (option (string * V)).

Definition empty : t := [].

Fixpoint get (key : string) (m : t) : option V :=
  match m with
  | [] => None
  | Some (k, v) :: rest => if decide (k = key) then Some v else get key rest
  | None :: rest => get key rest
  end.

Definition has (key : string) (m : t) : bool :=
  match get key m with Some _ => true | None => false end.

(** An existing key keeps its place and takes the new value; a new key goes
    to the end. *)
Fixpoint set (key : string) (value : V) (m : t) : t :=
  match m with
  | [] => [Some (key, value)]
  | Some (k, v) :: rest =>
      if decide (k = key) then Some (k, value) :: rest
      else Some (k, v) :: set key value rest
  | None :: rest => None :: set key value rest
  end.

Fixpoint delete (key : string) (m : t) : t :=
  match m with
  | [] => []
  | Some (k, v) :: rest =>
      if decide (k = key) then None :: rest
      else Some (k, v) :: delete key rest
  | None :: rest => None :: delete key rest
  end.

(** The entries that are there, in insertion order. *)
Definition entries (m : t) : list (string * V) := omap id m.

(** No key is held by two entries. *)
Definition wf (m : t) : Prop := NoDup (fst <$> entries m).

End WithValue.
Arguments t : clear implicits.
End JsMap.

Module JsSet.
Section WithElement.
Context {T : Type} `{EqDecision T}.

Definition t : Type := list (option T).

Definition empty : t := [].

Definition has (x : T) (s : t) : bool := bool_decide (Some x ∈ s).

Definition add (x : T) (s : t) : t :=
  if has x s then s else s ++ [Some x].

Fixpoint delete (x : T) (s : t) : t :=
  match s with
  | [] => []
  | Some y :: rest =>
      if decide (y = x) then None :: rest else Some y :: delete x rest
  | None :: rest => None :: delete x rest
  end.

(** [clear] empties every entry; the entries are not dropped. *)
Definition clear (s : t) : t := (λ _, None) <$> s.

Definition values (s : t) : list T := omap id s.

Definition size (s : t) : nat := length (values s).

End WithElement.
Arguments t : clear implicits.
End JsSet.

(** ** Data of the host *)

(** The identity of a function object handed to the host. *)
Definition Callback : Type := nat.

(** [ts.FileWatcherEventKind] *)
Inductive FileWatcherEventKind : Type := Created | Changed | Deleted.

(** [type FileSystemMode = 'readonly' | 'write-tsbuildinfo' | 'write-references'] *)
Inductive FileSystemMode : Type := readonly | write_tsbuildinfo | write_references.

(** The two providers a mutation can be sent to. *)
Inductive FileSystem : Type := passiveFileSystem | realFileSystem.

(** A [Date], as milliseconds. *)
Definition Date : Type := Z.

(** The mutating calls the host makes on a provider. *)
Inductive Mutation : Type :=
| WriteFile (path data : string)
| DeleteFile (path : string)
| CreateDir (path : string)
| UpdateTimes (path : string) (atime mtime : Date).

(** What [readStats] answers for a path that is there. *)
Module Stats.
Record t : Type := { isFile : bool; isDirectory : bool; size : Z; mtime : Date }.
End Stats.

(** A call of consumer code by the host. *)
Inductive Call : Type :=
| FileWatcherCall (callback : Callback) (fileName : string) (eventKind : FileWatcherEventKind)
| DirectoryWatcherCall (callback : Callback) (fileName : string).

(** What an operation of the host does that can be seen from outside it, in
    the order it does it. *)
Inductive Event : Type :=
| ProviderCall (fs : FileSystem) (mutation : Mutation)
| Invoke (call : Call).

(** [scopedCallback = () => callback(fileName)], the closure that
    [watchDirectory] queues for a native directory event.  Every event makes a
    closure of its own; [scopedId] is its identity. *)
Record ScopedCallback : Type :=
  { scopedId : nat; scopedCallee : Callback; scopedFileName : string }.

#[global] Instance ScopedCallback_eq_dec : EqDecision ScopedCallback.
Proof. solve_decision. Defined.

(** The call a queued closure makes when it is called. *)
Definition scopedCall (callback : ScopedCallback) : Call :=
  DirectoryWatcherCall (scopedCallee callback) (scopedFileName callback).

(** The local state of one [watchDirectory] call that subscribed to the
    native watcher: the callback it wraps, the array [queuedCallbacks], and
    whether [sysWatcher.close()] was called. *)
Record QueuedWatcher : Type :=
  { wrapped : Callback; queuedCallbacks : list ScopedCallback; sysWatcherClosed : bool }.

(** The state [createControlledTypeScriptSystem] closes over. *)
Record State : Type := {
  fileWatcherCallbacksMap : JsMap.t (list Callback);
  directoryWatcherCallbacksMap : JsMap.t (list Callback);
  recursiveDirectoryWatcherCallbacksMap : JsMap.t (list Callback);
  queuedWatcherCallbacksSet : JsSet.t ScopedCallback;
  deletedFiles : gmap string bool;
  timeoutCallbacks : gset nat;
  (* the closures made so far by [watchDirectory], and the next closure identity *)
  queuedWatchers : list QueuedWatcher;
  nextScopedId : nat
}.

Definition initialState : State := {|
  fileWatcherCallbacksMap := JsMap.empty;
  directoryWatcherCallbacksMap := JsMap.empty;
  recursiveDirectoryWatcherCallbacksMap := JsMap.empty;
  queuedWatcherCallbacksSet := JsSet.empty;
  deletedFiles := ∅;
  timeoutCallbacks := ∅;
  queuedWatchers := [];
  nextScopedId := 0
|}.

(** [const ignoredPaths = ['/node_modules/.', '/.git', '/.#']] *)
Definition ignoredPaths : list string := ["/node_modules/."; "/.git"; "/.#"].

(** ** What the file takes from outside *)

Class Platform : Type := {
  (** [realFileSystem.normalizePath] *)
  normalizePath : string → string;
  (** [forwardSlash] of [utils/path/forwardSlash] *)
  forwardSlash : string → string;
  (** [dirname] of node's [path] *)
  dirname : string → string;
  (** whether [ts.sys.watchDirectory] is defined *)
  sysWatchDirectory : bool;
  (** [passiveFileSystem.readStats]: the stats of a path, or nothing *)
  readStats : string → option Stats.t;
  (** what a provider can raise *)
  Error : Type;
  (** the mutation a provider is asked to make: it is made, or it raises *)
  perform : FileSystem → Mutation → option Error
}.

(** ** The host monad: state, trace, exceptions and fuel *)

Record World : Type := { host : State; trace : list Event }.

Inductive Outcome `{Platform} (A : Type) : Type :=
| Returned (a : A) (w : World)
| Thrown (e : Error) (w : World)
| OutOfFuel.
Arguments Returned {_ _} a w.
Arguments Thrown {_ _} e w.
Arguments OutOfFuel {_ _}.

Definition Host `{Platform} (A : Type) : Type := World → Outcome A.

#[global] Instance Host_ret `{Platform} : MRet Host :=
  λ A a w, Returned a w.

#[global] Instance Host_bind `{Platform} : MBind Host :=
  λ A B f m w,
    match m w with
    | Returned a w' => f a w'
    | Thrown e w' => Thrown e w'
    | OutOfFuel => OutOfFuel
    end.

(** ** Updating one field of the state *)

Definition withFileWatcherCallbacksMap (m : JsMap.t (list Callback)) (st : State) : State :=
  {| fileWatcherCallbacksMap := m;
     directoryWatcherCallbacksMap := directoryWatcherCallbacksMap st;
     recursiveDirectoryWatcherCallbacksMap := recursiveDirectoryWatcherCallbacksMap st;
     queuedWatcherCallbacksSet := queuedWatcherCallbacksSet st;
     deletedFiles := deletedFiles st;
     timeoutCallbacks := timeoutCallbacks st;
     queuedWatchers := queuedWatchers st;
     nextScopedId := nextScopedId st |}.

Definition withDirectoryWatcherCallbacksMap (m : JsMap.t (list Callback)) (st : State) : State :=
  {| fileWatcherCallbacksMap := fileWatcherCallbacksMap st;
     directoryWatcherCallbacksMap := m;
     recursiveDirectoryWatcherCallbacksMap := recursiveDirectoryWatcherCallbacksMap st;
     queuedWatcherCallbacksSet := queuedWatcherCallbacksSet st;
     deletedFiles := deletedFiles st;
     timeoutCallbacks := timeoutCallbacks st;
     queuedWatchers := queuedWatchers st;
     nextScopedId := nextScopedId st |}.

Definition withRecursiveDirectoryWatcherCallbacksMap (m : JsMap.t (list Callback)) (st : State) : State :=
  {| fileWatcherCallbacksMap := fileWatcherCallbacksMap st;
     directoryWatcherCallbacksMap := directoryWatcherCallbacksMap st;
     recursiveDirectoryWatcherCallbacksMap := m;
     queuedWatcherCallbacksSet := queuedWatcherCallbacksSet st;
     deletedFiles := deletedFiles st;
     timeoutCallbacks := timeoutCallbacks st;
     queuedWatchers := queuedWatchers st;
     nextScopedId := nextScopedId st |}.

Definition withQueuedWatcherCallbacksSet (s : JsSet.t ScopedCallback) (st : State) : State :=
  {| fileWatcherCallbacksMap := fileWatcherCallbacksMap st;
     directoryWatcherCallbacksMap := directoryWatcherCallbacksMap st;
     recursiveDirectoryWatcherCallbacksMap := recursiveDirectoryWatcherCallbacksMap st;
     queuedWatcherCallbacksSet := s;
     deletedFiles := deletedFiles st;
     timeoutCallbacks := timeoutCallbacks st;
     queuedWatchers := queuedWatchers st;
     nextScopedId := nextScopedId st |}.

Definition withDeletedFiles (d : gmap string bool) (st : State) : State :=
  {| fileWatcherCallbacksMap := fileWatcherCallbacksMap st;
     directoryWatcherCallbacksMap := directoryWatcherCallbacksMap st;
     recursiveDirectoryWatcherCallbacksMap := recursiveDirectoryWatcherCallbacksMap st;
     queuedWatcherCallbacksSet := queuedWatcherCallbacksSet st;
     deletedFiles := d;
     timeoutCallbacks := timeoutCallbacks st;
     queuedWatchers := queuedWatchers st;
     nextScopedId := nextScopedId st |}.

Definition withTimeoutCallbacks (t : gset nat) (st : State) : State :=
  {| fileWatcherCallbacksMap := fileWatcherCallbacksMap st;
     directoryWatcherCallbacksMap := directoryWatcherCallbacksMap st;
     recursiveDirectoryWatcherCallbacksMap := recursiveDirectoryWatcherCallbacksMap st;
     queuedWatcherCallbacksSet := queuedWatcherCallbacksSet st;
     deletedFiles := deletedFiles st;
     timeoutCallbacks := t;
     queuedWatchers := queuedWatchers st;
     nextScopedId := nextScopedId st |}.

Definition withQueuedWatchers (q : list QueuedWatcher) (st : State) : State :=
  {| fileWatcherCallbacksMap := fileWatcherCallbacksMap st;
     directoryWatcherCallbacksMap := directoryWatcherCallbacksMap st;
     recursiveDirectoryWatcherCallbacksMap := recursiveDirectoryWatcherCallbacksMap st;
     queuedWatcherCallbacksSet := queuedWatcherCallbacksSet st;
     deletedFiles := deletedFiles st;
     timeoutCallbacks := timeoutCallbacks st;
     queuedWatchers := q;
     nextScopedId := nextScopedId st |}.

Definition withNextScopedId (n : nat) (st : State) : State :=
  {| fileWatcherCallbacksMap := fileWatcherCallbacksMap st;
     directoryWatcherCallbacksMap := directoryWatcherCallbacksMap st;
     recursiveDirectoryWatcherCallbacksMap := recursiveDirectoryWatcherCallbacksMap st;
     queuedWatcherCallbacksSet := queuedWatcherCallbacksSet st;
     deletedFiles := deletedFiles st;
     timeoutCallbacks := timeoutCallbacks st;
     queuedWatchers := queuedWatchers st;
     nextScopedId := n |}.

(** The three registries [createWatcher] is used with. *)
Inductive WatchersMap : Type :=
| FileWatchers
| DirectoryWatchers
| RecursiveDirectoryWatchers.

Definition registry (which : WatchersMap) (st : State) : JsMap.t (list Callback) :=
  match which with
  | FileWatchers => fileWatcherCallbacksMap st
  | DirectoryWatchers => directoryWatcherCallbacksMap st
  | RecursiveDirectoryWatchers => recursiveDirectoryWatcherCallbacksMap st
  end.

Definition withRegistry (which : WatchersMap) (m : JsMap.t (list Callback)) (st : State) : State :=
  match which with
  | FileWatchers => withFileWatcherCallbacksMap m st
  | DirectoryWatchers => withDirectoryWatcherCallbacksMap m st
  | RecursiveDirectoryWatchers => withRecursiveDirectoryWatcherCallbacksMap m st
  end.

(** What the [close] of [createWatcher] keeps of its call. *)
Record Watcher : Type :=
  { watchersMap : WatchersMap; watchedPath : string; watcherCallback : Callback }.

(** The callbacks on the watcher's path that are not the watcher's own. *)
Definition remaining (h : Watcher) (st : State) : list Callback :=
  filter (λ watcher, watcher ≠ watcherCallback h)
    (default [] (JsMap.get (watchedPath h) (registry (watchersMap h) st))).

(** What the [close] of [watchDirectory] keeps of its call: the index of its
    [QueuedWatcher], when it made one, and its [controlledWatcher]. *)
Record DirectoryWatcher : Type :=
  { queuedWatcher : option nat; controlledWatcher : Watcher }.

(** A value of the tracker read as a condition: [undefined] and [false] fail it. *)
Definition truthy (b : option bool) : bool := default false b.

#[global] Instance FileSystemMode_eq_dec : EqDecision FileSystemMode.
Proof. solve_decision. Defined.

#[global] Instance FileSystem_eq_dec : EqDecision FileSystem.
Proof. solve_decision. Defined.

#[global] Instance FileWatcherEventKind_eq_dec : EqDecision FileWatcherEventKind.
Proof. solve_decision. Defined.

Section Host.
Context `{platform : Platform}.

Definition getState : Host State := λ w, Returned (host w) w.

Definition modify (f : State → State) : Host unit :=
  λ w, Returned tt {| host := f (host w); trace := trace w |}.

Definition emit (e : Event) : Host unit :=
  λ w, Returned tt {| host := host w; trace := trace w ++ [e] |}.

Definition throw {A : Type} (e : Error) : Host A := λ w, Thrown e w.

(** [array.forEach(body)] over an array that nothing changes meanwhile. *)
Fixpoint forEach {A : Type} (body : A → Host unit) (array : list A) : Host unit :=
  match array with
  | [] => mret tt
  | x :: rest => body x ;; forEach body rest
  end.

(** [collection.forEach(body)] over a [Map] or [Set] of the state, from
    [index] on.  The entries are read anew at every step: an entry emptied
    since is skipped, one added since is reached.  Each step takes one unit
    of fuel. *)
Fixpoint forEachLive {E : Type} (fuel : nat) (collection : State → list (option E))
    (body : E → Host unit) (index : nat) : Host unit :=
  match fuel with
  | 0 => λ _, OutOfFuel
  | S fuel' =>
      st ← getState;
      match collection st !! index with
      | None => mret tt
      | Some None => forEachLive fuel' collection body (S index)
      | Some (Some e) => body e ;; forEachLive fuel' collection body (S index)
      end
  end.

End Host.

(** ** The host *)

Section Controlled.
Context `{platform : Platform}.

(** [mode], the argument of [createControlledTypeScriptSystem]. *)
Variable mode : FileSystemMode.

(** What the consumer does to the host while one of its callbacks runs. *)
Variable react : Call → State → State.

(** The host calls a callback: the call is seen, then the consumer reacts. *)
Definition invoke (c : Call) : Host unit :=
  emit (Invoke c) ;; modify (react c).

(** The host asks a provider for a mutation, which is made or raises. *)
Definition mutate (fs : FileSystem) (m : Mutation) : Host unit :=
  emit (ProviderCall fs m) ;;
  match perform fs m with
  | Some e => throw e
  | None => mret tt
  end.

Definition createWatcher (watchersMap : WatchersMap) (path : string) (callback : Callback)
    : Host Watcher :=
  let normalizedPath := normalizePath path in
  st ← getState;
  let watchers := default [] (JsMap.get normalizedPath (registry watchersMap st)) in
  let nextWatchers := watchers ++ [callback] in
  modify (λ st, withRegistry watchersMap
                  (JsMap.set normalizedPath nextWatchers (registry watchersMap st)) st) ;;
  mret {| watchersMap := watchersMap; watchedPath := normalizedPath;
          watcherCallback := callback |}.

(** [close] of the object [createWatcher] returns. *)
Definition close (w : Watcher) : Host unit :=
  st ← getState;
  let watchers := default [] (JsMap.get (watchedPath w) (registry (watchersMap w) st)) in
  let nextWatchers := filter (λ watcher, watcher ≠ watcherCallback w) watchers in
  if (0 <? length nextWatchers)%nat then
    modify (λ st, withRegistry (watchersMap w)
                    (JsMap.set (watchedPath w) nextWatchers (registry (watchersMap w) st)) st)
  else
    modify (λ st, withRegistry (watchersMap w)
                    (JsMap.delete (watchedPath w) (registry (watchersMap w) st)) st).

Definition invokeFileWatchers (path : string) (event : FileWatcherEventKind) : Host unit :=
  let normalizedPath := normalizePath path in
  st ← getState;
  match JsMap.get normalizedPath (fileWatcherCallbacksMap st) with
  | Some fileWatcherCallbacks =>
      forEach (λ fileWatcherCallback,
                 invoke (FileWatcherCall fileWatcherCallback (forwardSlash normalizedPath) event))
        fileWatcherCallbacks
  | None => mret tt
  end.

(** [ignoredPaths.some((ignoredPath) => forwardSlash(normalizedPath).includes(ignoredPath))] *)
Definition isIgnored (normalizedPath : string) : bool :=
  existsb (λ ignoredPath, Str.includes (forwardSlash normalizedPath) ignoredPath) ignoredPaths.

(** The test a recursive watcher on [watchedDirectory] passes for a change in
    [directory]. *)
Definition watchesDirectory (watchedDirectory directory : string) : bool :=
  bool_decide (watchedDirectory = directory) ||
  (Str.startsWith directory watchedDirectory &&
   bool_decide (Str.at_ (forwardSlash directory) (String.length watchedDirectory)
                = Some "/"%char)).

Definition invokeDirectoryWatchers (fuel : nat) (path : string) : Host unit :=
  let normalizedPath := normalizePath path in
  let directory := dirname normalizedPath in
  if isIgnored normalizedPath then mret tt
  else
    st ← getState;
    match JsMap.get directory (directoryWatcherCallbacksMap st) with
    | Some directoryWatcherCallbacks =>
        forEach (λ directoryWatcherCallback,
                   invoke (DirectoryWatcherCall directoryWatcherCallback
                             (forwardSlash normalizedPath)))
          directoryWatcherCallbacks
    | None => mret tt
    end ;;
    forEachLive fuel recursiveDirectoryWatcherCallbacksMap
      (λ '(watchedDirectory, recursiveDirectoryWatcherCallbacks),
         if watchesDirectory watchedDirectory directory then
           forEach (λ recursiveDirectoryWatcherCallback,
                      invoke (DirectoryWatcherCall recursiveDirectoryWatcherCallback
                                (forwardSlash normalizedPath)))
             recursiveDirectoryWatcherCallbacks
         else mret tt)
      0.

Definition getWriteFileSystem (path : string) : FileSystem :=
  if bool_decide (mode = readonly) ||
     (bool_decide (mode = write_tsbuildinfo) && negb (Str.endsWith path ".tsbuildinfo"))
  then passiveFileSystem
  else realFileSystem.

Definition fileExists (path : string) : Host bool :=
  let stats := readStats path in
  mret (match stats with Some s => Stats.isFile s | None => false end).

Definition getFileSize (path : string) : Host Z :=
  let stats := readStats path in
  mret (match stats with Some s => Stats.size s | None => 0%Z end).

Definition directoryExists (path : string) : Host bool :=
  let stats := readStats path in
  mret (match stats with Some s => Stats.isDirectory s | None => false end).

(** [undefined] is [None]. *)
Definition getModifiedTime (path : string) : Host (option Date) :=
  let stats := readStats path in
  mret (match stats with Some s => Some (Stats.mtime s) | None => None end).

Definition invokeFileChanged (fuel : nat) (path : string) : Host unit :=
  let normalizedPath := normalizePath path in
  st ← getState;
  if truthy (deletedFiles st !! normalizedPath) ||
     negb (JsMap.has normalizedPath (fileWatcherCallbacksMap st))
  then
    invokeFileWatchers path Created ;;
    invokeDirectoryWatchers fuel normalizedPath ;;
    modify (λ st, withDeletedFiles (<[normalizedPath := false]> (deletedFiles st)) st)
  else
    invokeFileWatchers path Changed.

Definition invokeFileDeleted (fuel : nat) (path : string) : Host unit :=
  let normalizedPath := normalizePath path in
  st ← getState;
  if negb (truthy (deletedFiles st !! normalizedPath)) then
    invokeFileWatchers path Deleted ;;
    invokeDirectoryWatchers fuel path ;;
    modify (λ st, withDeletedFiles (<[normalizedPath := true]> (deletedFiles st)) st)
  else mret tt.

Definition writeFile (fuel : nat) (path data : string) : Host unit :=
  mutate (getWriteFileSystem path) (WriteFile path data) ;;
  invokeFileChanged fuel path.

Definition deleteFile (fuel : nat) (path : string) : Host unit :=
  mutate (getWriteFileSystem path) (DeleteFile path) ;;
  invokeFileDeleted fuel path.

Definition createDirectory (fuel : nat) (path : string) : Host unit :=
  mutate (getWriteFileSystem path) (CreateDir path) ;;
  invokeDirectoryWatchers fuel path.

Definition setModifiedTime (fuel : nat) (path : string) (date : Date) : Host unit :=
  mutate (getWriteFileSystem path) (UpdateTimes path date date) ;;
  invokeDirectoryWatchers fuel path ;;
  invokeFileWatchers path Changed.

Definition watchFile (path : string) (callback : Callback) : Host Watcher :=
  createWatcher FileWatchers path callback.

(** The function [watchDirectory] hands to [ts.sys.watchDirectory] (lines
    204-208), for the [QueuedWatcher] at [index]: the native watcher calls it
    with the name of what changed. *)
Definition queueDirectoryChange (index : nat) (fileName : string) : Host unit :=
  st ← getState;
  match queuedWatchers st !! index with
  | Some q =>
      let scopedCallback :=
        {| scopedId := nextScopedId st; scopedCallee := wrapped q;
           scopedFileName := fileName |} in
      modify (λ st,
        withNextScopedId (S (nextScopedId st))
          (withQueuedWatchers
             (<[index := {| wrapped := wrapped q;
                            queuedCallbacks := queuedCallbacks q ++ [scopedCallback];
                            sysWatcherClosed := sysWatcherClosed q |}]> (queuedWatchers st))
             (withQueuedWatcherCallbacksSet
                (JsSet.add scopedCallback (queuedWatcherCallbacksSet st)) st)))
  | None => mret tt
  end.

Definition watchDirectory (path : string) (callback : Callback) (recursive : bool)
    : Host DirectoryWatcher :=
  queuedWatcher ←
    (if sysWatchDirectory then
       st ← getState;
       modify (withQueuedWatchers
                 (queuedWatchers st ++
                  [{| wrapped := callback; queuedCallbacks := [];
                      sysWatcherClosed := false |}])) ;;
       mret (Some (length (queuedWatchers st)))
     else mret None);
  controlledWatcher ←
    createWatcher (if recursive then RecursiveDirectoryWatchers else DirectoryWatchers)
      path callback;
  mret {| queuedWatcher := queuedWatcher; controlledWatcher := controlledWatcher |}.

(** [queuedWatcher.close()] *)
Definition closeQueuedWatcher (index : nat) : Host unit :=
  st ← getState;
  match queuedWatchers st !! index with
  | Some q =>
      modify (λ st,
        withQueuedWatcherCallbacksSet
          (foldl (λ set queuedCallback, JsSet.delete queuedCallback set)
             (queuedWatcherCallbacksSet st) (queuedCallbacks q))
          (withQueuedWatchers
             (<[index := {| wrapped := wrapped q; queuedCallbacks := queuedCallbacks q;
                            sysWatcherClosed := true |}]> (queuedWatchers st)) st))
  | None => mret tt
  end.

(** [close] of the object [watchDirectory] returns. *)
Definition closeDirectoryWatcher (w : DirectoryWatcher) : Host unit :=
  match queuedWatcher w with
  | Some index => closeQueuedWatcher index
  | None => mret tt
  end ;;
  close (controlledWatcher w).

Definition invokeQueuedChanged (fuel : nat) : Host unit :=
  forEachLive fuel queuedWatcherCallbacksSet
    (λ callback,
       invoke (DirectoryWatcherCall (scopedCallee callback) (scopedFileName callback)))
    0 ;;
  modify (λ st, withQueuedWatcherCallbacksSet (JsSet.clear (queuedWatcherCallbacksSet st)) st).

End Controlled.

(** ** The mutating operations, as one type *)

Inductive Operation : Type :=
| OpWriteFile (path data : string)
| OpDeleteFile (path : string)
| OpCreateDirectory (path : string)
| OpSetModifiedTime (path : string) (date : Date).

Definition target (op : Operation) : string :=
  match op with
  | OpWriteFile path _ | OpDeleteFile path | OpCreateDirectory path
  | OpSetModifiedTime path _ => path
  end.

(** What the operation asks of the provider it is routed to. *)
Definition mutationOf (op : Operation) : Mutation :=
  match op with
  | OpWriteFile path data => WriteFile path data
  | OpDeleteFile path => DeleteFile path
  | OpCreateDirectory path => CreateDir path
  | OpSetModifiedTime path date => UpdateTimes path date date
  end.

Definition run `{Platform} (mode : FileSystemMode) (react : Call → State → State)
    (fuel : nat) (op : Operation) : Host unit :=
  match op with
  | OpWriteFile path data => writeFile mode react fuel path data
  | OpDeleteFile path => deleteFile mode react fuel path
  | OpCreateDirectory path => createDirectory mode react fuel path
  | OpSetModifiedTime path date => setModifiedTime mode react fuel path date
  end.

(** What follows the provider call in each operation. *)
Definition notifications `{Platform} (react : Call → State → State) (fuel : nat)
    (op : Operation) : Host unit :=
  match op with
  | OpWriteFile path _ => invokeFileChanged react fuel path
  | OpDeleteFile path => invokeFileDeleted react fuel path
  | OpCreateDirectory path => invokeDirectoryWatchers react fuel path
  | OpSetModifiedTime path _ =>
      invokeDirectoryWatchers react fuel path ;; invokeFileWatchers react path Changed
  end.

(** ** Reading a trace *)

Definition providerCalls (events : list Event) : list (FileSystem * Mutation) :=
  omap (λ e, match e with ProviderCall fs m => Some (fs, m) | Invoke _ => None end) events.

(** The calls the file watchers registered on [path] get for [event]. *)
Definition fileWatcherCalls `{Platform} (st : State) (path : string)
    (event : FileWatcherEventKind) : list Call :=
  (λ callback, FileWatcherCall callback (forwardSlash (normalizePath path)) event)
    <$> default [] (JsMap.get (normalizePath path) (fileWatcherCallbacksMap st)).

(** Whether a write is taken for a creation in the state [st]. *)
Definition isCreation `{Platform} (st : State) (path : string) : bool :=
  truthy (deletedFiles st !! normalizePath path)
  || negb (JsMap.has (normalizePath path) (fileWatcherCallbacksMap st)).

(** The calls of file watchers an operation makes from the state [st]. *)
Definition fileNotifications `{Platform} (op : Operation) (st : State) : list Call :=
  match op with
  | OpWriteFile path _ =>
      fileWatcherCalls st path (if isCreation st path then Created else Changed)
  | OpDeleteFile path =>
      if truthy (deletedFiles st !! normalizePath path) then []
      else fileWatcherCalls st path Deleted
  | OpCreateDirectory _ => []
  | OpSetModifiedTime path _ => fileWatcherCalls st path Changed
  end.

(** The state after the consumer has reacted to [cs], one after the other. *)
Definition reactAll (react : Call → State → State) (cs : list Call) (st : State) : State :=
  foldl (λ st c, react c st) st cs.

(** A consumer that only looks. *)
Definition observer : Call → State → State := λ _ st, st.

(** The calls a registry of directory watchers makes for [fileName] when
    its entries are asked, one after the other, whether they fire: every
    callback of every entry that does, in order. *)
Definition fired (fires : string → bool) (fileName : string)
    (entries : list (string * list Callback)) : list Call :=
  flat_map (λ entry, if fires entry.1
                     then (λ callback, DirectoryWatcherCall callback fileName) <$> entry.2
                     else [])
    entries.

(** ** Frames

    [w'] is [w] but for the registry [which] at the key [path], and there
    the callbacks other than [callback] are the same in the same order: no
    callback was called, and the tracker of deleted files, the pending
    timers, the other registries and the other paths are as before. *)
Definition touchesOnly (which : WatchersMap) (path : string) (callback : Callback)
    (w w' : World) : Prop :=
  trace w' = trace w
  ∧ deletedFiles (host w') = deletedFiles (host w)
  ∧ timeoutCallbacks (host w') = timeoutCallbacks (host w)
  ∧ (∀ other, other ≠ which → registry other (host w') = registry other (host w))
  ∧ (∀ p, p ≠ path →
       JsMap.get p (registry which (host w')) = JsMap.get p (registry which (host w)))
  ∧ filter (λ watcher, watcher ≠ callback)
      (default [] (JsMap.get path (registry which (host w'))))
    = filter (λ watcher, watcher ≠ callback)
        (default [] (JsMap.get path (registry which (host w)))).

(** The world with another tracker of deleted files and other pending timers. *)
Definition withTrackerAndTimers (d : gmap string bool) (t : gset nat) (w : World) : World :=
  {| host := withTimeoutCallbacks t (withDeletedFiles d (host w)); trace := trace w |}.

Definition mapWorld `{Platform} {A : Type} (f : World → World) (o : Outcome A) : Outcome A :=
  match o with
  | Returned a w => Returned a (f w)
  | Thrown e w => Thrown e (f w)
  | OutOfFuel => OutOfFuel
  end.

(** A computation that does the same whatever the tracker and the timers
    hold, and leaves them as they are: it neither reads nor writes them. *)
Definition blind `{Platform} {A : Type} (m : Host A) : Prop :=
  ∀ d t w, m (withTrackerAndTimers d t w) = mapWorld (withTrackerAndTimers d t) (m w).

(** The closures a directory watcher has queued: the array [queuedCallbacks]
    of its [watchDirectory] call. *)
Definition ownQueuedCallbacks (h : DirectoryWatcher) (st : State) : list ScopedCallback :=
  match queuedWatcher h with
  | Some index =>
      match queuedWatchers st !! index with
      | Some q => queuedCallbacks q
      | None => []
      end
  | None => []
  end.

(** ** Timers

    [setTimeout], [clearTimeout] and [waitForQueued] hand functions to node's
    [setImmediate]; when they run is the event loop's business.  [Runtime] is
    the host together with what the event loop holds for it, and a [Step] is
    one thing that can happen next: the consumer calls one of the three
    functions (from anywhere, a running timer callback included), or the
    event loop goes on. *)

(** The functions the host hands to [setImmediate]. *)
Inductive Immediate : Type :=
| TimeoutImmediate (callback : Callback)
    (* [() => { callback(...args); timeoutCallbacks.delete(timeoutId); }] *)
| ResolveImmediate (waiter : nat)
    (* [resolve] of the promise a call of [waitForQueued] awaits *).

(** Where a call of [waitForQueued] stands. *)
Inductive Waiter : Type :=
| Awaiting     (* its promise waits for an immediate *)
| Resumable    (* the promise is resolved, the loop is about to go on *)
| Resolved     (* the loop is over: the call's own promise is resolved *).

Inductive TimerEvent : Type :=
| Scheduled (timeoutId : nat)
| Cancelled (timeoutId : nat)
| Started (timeoutId : nat) (callback : Callback)
| Finished (timeoutId : nat)
| Drained (waiter : nat).

#[global] Instance TimerEvent_eq_dec : EqDecision TimerEvent.
Proof. solve_decision. Defined.

Record Runtime : Type := {
  sys : State;
  immediateQueue : list (nat * Immediate);   (* oldest first *)
  nextImmediateId : nat;
  running : option nat;                      (* the timer whose callback is running *)
  waiters : list Waiter;                     (* one per call of [waitForQueued] *)
  timeline : list TimerEvent
}.

Definition initialRuntime : Runtime := {|
  sys := initialState;
  immediateQueue := [];
  nextImmediateId := 0;
  running := None;
  waiters := [];
  timeline := []
|}.

Definition setImmediate (f : Immediate) (rt : Runtime) : Runtime * nat :=
  ({| sys := sys rt;
      immediateQueue := immediateQueue rt ++ [(nextImmediateId rt, f)];
      nextImmediateId := S (nextImmediateId rt);
      running := running rt;
      waiters := waiters rt;
      timeline := timeline rt |},
   nextImmediateId rt).

Definition clearImmediate (immediateId : nat) (rt : Runtime) : Runtime :=
  {| sys := sys rt;
     immediateQueue := filter (λ entry, entry.1 ≠ immediateId) (immediateQueue rt);
     nextImmediateId := nextImmediateId rt;
     running := running rt;
     waiters := waiters rt;
     timeline := timeline rt |}.

(** A change of the pending timers, with what it means for the timeline. *)
Definition updateTimeouts (f : gset nat → gset nat) (happened : list TimerEvent)
    (rt : Runtime) : Runtime :=
  {| sys := withTimeoutCallbacks (f (timeoutCallbacks (sys rt))) (sys rt);
     immediateQueue := immediateQueue rt;
     nextImmediateId := nextImmediateId rt;
     running := running rt;
     waiters := waiters rt;
     timeline := timeline rt ++ happened |}.

Definition withRunning (r : option nat) (rt : Runtime) : Runtime :=
  {| sys := sys rt;
     immediateQueue := immediateQueue rt;
     nextImmediateId := nextImmediateId rt;
     running := r;
     waiters := waiters rt;
     timeline := timeline rt |}.

Definition withImmediateQueue (q : list (nat * Immediate)) (rt : Runtime) : Runtime :=
  {| sys := sys rt;
     immediateQueue := q;
     nextImmediateId := nextImmediateId rt;
     running := running rt;
     waiters := waiters rt;
     timeline := timeline rt |}.

Definition withWaiters (ws : list Waiter) (rt : Runtime) : Runtime :=
  {| sys := sys rt;
     immediateQueue := immediateQueue rt;
     nextImmediateId := nextImmediateId rt;
     running := running rt;
     waiters := ws;
     timeline := timeline rt |}.

Definition setTimeout (callback : Callback) (rt : Runtime) : Runtime * nat :=
  let '(rt, timeoutId) := setImmediate (TimeoutImmediate callback) rt in
  (updateTimeouts (λ pending, {[timeoutId]} ∪ pending) [Scheduled timeoutId] rt, timeoutId).

Definition clearTimeout (timeoutId : nat) (rt : Runtime) : Runtime :=
  updateTimeouts (λ pending, pending ∖ {[timeoutId]}) [Cancelled timeoutId]
    (clearImmediate timeoutId rt).

(** One turn of
    [while (timeoutCallbacks.size > 0) await new Promise((resolve) => setImmediate(resolve))]
    for the call [waiter]: it waits for one more immediate, or the loop is
    over and the call resolves. *)
Definition waitTurn (waiter : nat) (rt : Runtime) : Runtime :=
  if (0 <? size (timeoutCallbacks (sys rt)))%nat then
    withWaiters (<[waiter := Awaiting]> (waiters rt))
      (setImmediate (ResolveImmediate waiter) rt).1
  else
    updateTimeouts (λ pending, pending) [Drained waiter]
      (withWaiters (<[waiter := Resolved]> (waiters rt)) rt).

Definition waitForQueued (rt : Runtime) : Runtime * nat :=
  let waiter := length (waiters rt) in
  (waitTurn waiter (withWaiters (waiters rt ++ [Awaiting]) rt), waiter).

Inductive Step : Type :=
| CallSetTimeout (callback : Callback)
| CallClearTimeout (timeoutId : nat)
| CallWaitForQueued
| RunImmediate              (* the event loop runs the oldest immediate *)
| CallbackReturns           (* the timer callback that is running returns *)
| CallbackThrows            (* ... or raises *)
| Resume (waiter : nat)     (* a resolved [await] goes on *).

(** What a step makes of the runtime, when it can be taken. *)
Definition step (s : Step) (rt : Runtime) : option Runtime :=
  match s with
  | CallSetTimeout callback => Some (setTimeout callback rt).1
  | CallClearTimeout timeoutId => Some (clearTimeout timeoutId rt)
  | CallWaitForQueued => Some (waitForQueued rt).1
  | RunImmediate =>
      match running rt, immediateQueue rt with
      | None, (timeoutId, TimeoutImmediate callback) :: rest =>
          Some (updateTimeouts (λ pending, pending) [Started timeoutId callback]
                  (withRunning (Some timeoutId) (withImmediateQueue rest rt)))
      | None, (_, ResolveImmediate waiter) :: rest =>
          Some (withWaiters (<[waiter := Resumable]> (waiters rt))
                  (withImmediateQueue rest rt))
      | _, _ => None
      end
  | CallbackReturns =>
      match running rt with
      | Some timeoutId =>
          Some (updateTimeouts (λ pending, pending ∖ {[timeoutId]}) [Finished timeoutId]
                  (withRunning None rt))
      | None => None
      end
  | CallbackThrows =>
      match running rt with
      | Some _ => Some (withRunning None rt)
      | None => None
      end
  | Resume waiter =>
      match running rt, waiters rt !! waiter with
      | None, Some Resumable => Some (waitTurn waiter rt)
      | _, _ => None
      end
  end.

(** The runtime after [steps], when each could be taken in its turn. *)
Fixpoint steps (ss : list Step) (rt : Runtime) : option Runtime :=
  match ss with
  | [] => Some rt
  | s :: rest =>
      match step s rt with
      | Some rt' => steps rest rt'
      | None => None
      end
  end.

(** ** Invariants the proofs go by *)

(** A computation that only calls callbacks, all of them calls of the kind
    [P]: it raises nothing, and what it adds to the trace are such calls. *)
Definition notifying `{Platform} {A : Type} (P : Call → Prop) (m : Host A) : Prop :=
  ∀ w, match m w with
       | Returned _ w' => ∃ cs, trace w' = trace w ++ (Invoke <$> cs) ∧ Forall P cs
       | Thrown _ _ => False
       | OutOfFuel => True
       end.

(** Any call at all. *)
Definition anyCall : Call → Prop := λ _, True.

(** Every timer that was scheduled is pending, has finished or was
    cancelled; a timer is running or has finished only after it started. *)
Definition accounted (rt : Runtime) : Prop :=
  (∀ timeoutId, Scheduled timeoutId ∈ timeline rt →
     timeoutId ∈ timeoutCallbacks (sys rt)
     ∨ Finished timeoutId ∈ timeline rt ∨ Cancelled timeoutId ∈ timeline rt)
  ∧ (∀ timeoutId, running rt = Some timeoutId →
       ∃ callback, Started timeoutId callback ∈ timeline rt)
  ∧ (∀ timeoutId, Finished timeoutId ∈ timeline rt →
       ∃ callback, Started timeoutId callback ∈ timeline rt).

(** A computation that leaves the part [part] of the state as it finds it,
    whether it returns or raises. *)
Definition framing `{Platform} {X A : Type} (part : State → X) (m : Host A) : Prop :=
  ∀ w, match m w with
       | Returned _ w' | Thrown _ w' => part (host w') = part (host w)
       | OutOfFuel => True
       end.

(** A registry as [createWatcher] and [close] keep it: no key twice, and no
    key with an empty list of callbacks. *)
Definition tidyRegistry (m : JsMap.t (list Callback)) : Prop :=
  JsMap.wf m ∧ ∀ key, JsMap.get key m ≠ Some [].

Definition tidy (st : State) : Prop := ∀ which, tidyRegistry (registry which st).

(** A timer that was handed out and that the event loop does not hold any
    more. *)
Definition gone (timeoutId : nat) (rt : Runtime) : Prop :=
  (timeoutId < nextImmediateId rt)%nat ∧ timeoutId ∉ (immediateQueue rt).*1.

(** The identities handed out so far are below the next one. *)
Definition numbered (rt : Runtime) : Prop :=
  ∀ timeoutId, Scheduled timeoutId ∈ timeline rt → (timeoutId < nextImmediateId rt)%nat.

(** The queued closures as the native watchers' reports leave them: no
    closure twice, and each with an identity that was handed out before. *)
Definition queueSound (st : State) : Prop :=
  NoDup (JsSet.values (queuedWatcherCallbacksSet st))
  ∧ ∀ callback, callback ∈ JsSet.values (queuedWatcherCallbacksSet st) →
                (scopedId callback < nextScopedId st)%nat.

(** The timers whose callbacks were started, in the order of starting. *)
Definition startedIds (events : list TimerEvent) : list nat :=
  omap (λ e, match e with Started timeoutId _ => Some timeoutId | _ => None end) events.

(** A timer that is out of the game: the event loop holds it no more, and it
    neither started nor is pending nor runs. *)
Definition dead (timeoutId : nat) (rt : Runtime) : Prop :=
  gone timeoutId rt
  ∧ (timeoutId ∉ startedIds (timeline rt))
  ∧ (timeoutId ∉ timeoutCallbacks (sys rt))
  ∧ running rt ≠ Some timeoutId.

(** A timer that stays pending: it is pending, the event loop holds it no
    more and it does not run; and no call of [waitForQueued] has resolved
    but those in [before]. *)
Definition stuck (timeoutId : nat) (before : list TimerEvent) (rt : Runtime) : Prop :=
  gone timeoutId rt
  ∧ running rt ≠ Some timeoutId
  ∧ (timeoutId ∈ timeoutCallbacks (sys rt))
  ∧ ∀ waiter, Drained waiter ∈ timeline rt → Drained waiter ∈ before.

(** What the event loop holds was handed out, and once; what was started
    it holds no more, and was started once; what is running was started. *)
Definition startsOnce (rt : Runtime) : Prop :=
  NoDup (immediateQueue rt).*1
  ∧ (∀ immediateId, immediateId ∈ (immediateQueue rt).*1 →
                    (immediateId < nextImmediateId rt)%nat)
  ∧ NoDup (startedIds (timeline rt))
  ∧ (∀ timeoutId, timeoutId ∈ startedIds (timeline rt) → gone timeoutId rt)
  ∧ (∀ timeoutId, running rt = Some timeoutId → timeoutId ∈ startedIds (timeline rt)).

(** ** A platform to run the host on

    POSIX paths that are written in normal form already, a provider that
    refuses to touch what is under [/locked], and a small tree to stat. *)

Module Sample.

Definition backslash : ascii := ascii_of_nat 92.

(** Every backslash becomes a slash. *)
Fixpoint slashes (s : string) : string :=
  match s with
  | EmptyString => EmptyString
  | String c rest => String (if decide (c = backslash) then "/"%char else c) (slashes rest)
  end.

(** What stands before the last slash of [s], if it has one. *)
Fixpoint beforeLastSlash (s : string) : option string :=
  match s with
  | EmptyString => None
  | String c rest =>
      match beforeLastSlash rest with
      | Some d => Some (String c d)
      | None => if decide (c = "/"%char) then Some EmptyString else None
      end
  end.

Definition parent (s : string) : string :=
  match beforeLastSlash s with
  | None => "."
  | Some EmptyString => "/"
  | Some d => d
  end.

Definition stat (path : string) : option Stats.t :=
  if decide (path = "/src") then
    Some {| Stats.isFile := false; Stats.isDirectory := true;
            Stats.size := 4096%Z; Stats.mtime := 1700000000000%Z |}
  else if decide (path = "/src/a.ts") then
    Some {| Stats.isFile := true; Stats.isDirectory := false;
            Stats.size := 12%Z; Stats.mtime := 1700000000500%Z |}
  else None.

Definition pathOf (m : Mutation) : string :=
  match m with
  | WriteFile path _ | DeleteFile path | CreateDir path | UpdateTimes path _ _ => path
  end.

Definition refuse (fs : FileSystem) (m : Mutation) : option string :=
  match fs with
  | realFileSystem => if Str.startsWith (pathOf m) "/locked/" then Some "EACCES" else None
  | passiveFileSystem => None
  end.

Definition posix : Platform := {|
  normalizePath := λ path, path;
  forwardSlash := slashes;
  dirname := parent;
  sysWatchDirectory := true;
  readStats := stat;
  Error := string;
  perform := refuse
|}.

Definition start : World := {| host := initialState; trace := [] |}.

(** The world an operation leaves, whether it returned or raised. *)
Definition after {A : Type} (o : @Outcome posix A) : World :=
  match o with
  | Returned _ w | Thrown _ w => w
  | OutOfFuel => start
  end.

(** A consumer whose directory callback [1], when called, has the native
    watcher report one more change to the second [watchDirectory] call. *)
Definition chatty : Call → State → State :=
  λ c st,
    match c with
    | DirectoryWatcherCall 1 _ =>
        host (after (@queueDirectoryChange posix 1 "/src/new.ts" {| host := st; trace := [] |}))
    | _ => st
    end.

(** A consumer whose directory callback [1], when called, watches [/src]
    recursively with the callback [9], unless [/src] is watched so already. *)
Definition eager : Call → State → State :=
  λ c st,
    match c with
    | DirectoryWatcherCall 1 _ =>
        if JsMap.has "/src" (recursiveDirectoryWatcherCallbacksMap st) then st
        else host (after (@watchDirectory posix "/src" 9 true {| host := st; trace := [] |}))
    | _ => st
    end.

End Sample.

(** Unfolding the monad. *)
Ltac run_host :=
  unfold mbind, Host_bind, mret, Host_ret, getState, modify, emit, throw; simpl.

(** * Properties *)

(** ** Strings *)

Module StrFacts.

Lemma app_nil (x : string) : EmptyString +:+ x = x.
Proof. reflexivity. Qed.

Lemma app_cons (c : ascii) (p x : string) : String c p +:+ x = String c (p +:+ x).
Proof. reflexivity. Qed.






Lemma substring_all (x : string) : String.substring 0 (String.length x) x = x.
Proof. induction x as [|c x IH]; simpl; [done | by rewrite IH]. Qed.

Lemma substring_skip (p x : string) :
  String.substring (String.length p) (String.length x) (p +:+ x) = x.
Proof.
  induction p as [|c p IH].
  - rewrite app_nil. apply substring_all.
  - rewrite app_cons. exact IH.
Qed.

Lemma length_app (p x : string) :
  String.length (p +:+ x) = (String.length p + String.length x)%nat.
Proof.
  induction p as [|c p IH]; [done|].
  rewrite app_cons. simpl. by rewrite IH.
Qed.

Lemma substring_tail (s : string) (n : nat) :
  (n ≤ String.length s)%nat →
  ∃ p, s = p +:+ String.substring n (String.length s - n) s.
Proof.
  revert n. induction s as [|c s IH]; intros n Hn.
  - exists EmptyString. by destruct n.
  - destruct n as [|n].
    + exists EmptyString. rewrite app_nil. simpl. by rewrite substring_all.
    + simpl in Hn. destruct (IH n ltac:(lia)) as [p Hp].
      exists (String c p). rewrite app_cons. simpl. by rewrite <- Hp.
Qed.

(** [endsWith] holds of the strings that are something followed by the suffix. *)
Lemma endsWith_spec (s x : string) :
  Str.endsWith s x = true ↔ ∃ p, s = p +:+ x.
Proof.
  unfold Str.endsWith. split.
  - intros [Hlen Heq]%andb_true_iff.
    apply Nat.leb_le in Hlen. apply String.eqb_eq in Heq.
    destruct (substring_tail s (String.length s - String.length x) ltac:(lia)) as [p Hp].
    exists p. rewrite Hp at 1. f_equal.
    replace (String.length s - (String.length s - String.length x))%nat
      with (String.length x) by lia.
    exact Heq.
  - intros [p ->]. rewrite length_app. apply andb_true_iff. split.
    + apply Nat.leb_le. lia.
    + apply String.eqb_eq.
      replace (String.length p + String.length x - String.length x)%nat
        with (String.length p) by lia.
      apply substring_skip.
Qed.

End StrFacts.

(** ** [Map] *)

Module JsMapFacts.
Section WithValue.
Context {V : Type}.
Implicit Types (m : JsMap.t V) (k : string) (v : V).

Lemma get_set_eq k v m : JsMap.get k (JsMap.set k v m) = Some v.
Proof.
  induction m as [|[[k' v']|] m IH]; simpl.
  - by rewrite decide_True.
  - destruct (decide (k' = k)) as [->|Hne]; simpl.
    + by rewrite decide_True.
    + by rewrite decide_False.
  - exact IH.
Qed.

Lemma get_set_ne k k' v m : k ≠ k' → JsMap.get k' (JsMap.set k v m) = JsMap.get k' m.
Proof.
  intros Hne. induction m as [|[[k0 v0]|] m IH]; simpl.
  - by rewrite decide_False.
  - destruct (decide (k0 = k)) as [->|Hk]; simpl.
    + by rewrite !decide_False.
    + destruct (decide (k0 = k')); [done | exact IH].
  - exact IH.
Qed.

Lemma get_delete_ne k k' m : k ≠ k' → JsMap.get k' (JsMap.delete k m) = JsMap.get k' m.
Proof.
  intros Hne. induction m as [|[[k0 v0]|] m IH]; simpl; [done | | exact IH].
  destruct (decide (k0 = k)) as [->|Hk]; simpl.
  - by rewrite decide_False.
  - destruct (decide (k0 = k')); [done | exact IH].
Qed.

Lemma get_None k m : JsMap.get k m = None ↔ k ∉ (JsMap.entries m).*1.
Proof.
  unfold JsMap.entries.
  induction m as [|[[k0 v0]|] m IH]; simpl.
  - split; [intros _; apply not_elem_of_nil | done].
  - destruct (decide (k0 = k)) as [->|Hk].
    + split; [done | intros H; exfalso; apply H; left].
    + rewrite IH, not_elem_of_cons. split; [by intros ? | by intros [_ ?]].
  - exact IH.
Qed.

(** Writing the value that is there changes nothing. *)
Lemma set_same k v m : JsMap.get k m = Some v → JsMap.set k v m = m.
Proof.
  induction m as [|[[k0 v0]|] m IH]; simpl; [done | |].
  - destruct (decide (k0 = k)) as [->|Hk].
    + by intros [= ->].
    + intros H. by rewrite IH.
  - intros H. by rewrite IH.
Qed.

(** Deleting a key that is not there changes nothing. *)
Lemma delete_absent k m : JsMap.get k m = None → JsMap.delete k m = m.
Proof.
  induction m as [|[[k0 v0]|] m IH]; simpl; [done | |].
  - destruct (decide (k0 = k)); [done|]. intros H. by rewrite IH.
  - intros H. by rewrite IH.
Qed.

Lemma keys_set_present k v m :
  JsMap.get k m ≠ None → (JsMap.entries (JsMap.set k v m)).*1 = (JsMap.entries m).*1.
Proof.
  unfold JsMap.entries.
  induction m as [|[[k0 v0]|] m IH]; simpl; [done | | exact IH].
  destruct (decide (k0 = k)) as [->|Hk]; simpl; [done|].
  intros H. f_equal. by apply IH.
Qed.

Lemma keys_set_absent k v m :
  JsMap.get k m = None →
  (JsMap.entries (JsMap.set k v m)).*1 = (JsMap.entries m).*1 ++ [k].
Proof.
  unfold JsMap.entries.
  induction m as [|[[k0 v0]|] m IH]; simpl; [done | | exact IH].
  destruct (decide (k0 = k)) as [->|Hk]; simpl; [done|].
  intros H. f_equal. by apply IH.
Qed.

Lemma keys_delete k m :
  (JsMap.entries (JsMap.delete k m)).*1 `sublist_of` (JsMap.entries m).*1.
Proof.
  unfold JsMap.entries.
  induction m as [|[[k0 v0]|] m IH]; simpl; [done | | exact IH].
  destruct (decide (k0 = k)) as [->|Hk]; simpl.
  - by apply sublist_cons.
  - by apply sublist_skip.
Qed.

Lemma wf_empty : JsMap.wf (JsMap.empty (V := V)).
Proof. apply NoDup_nil_2. Qed.

Lemma wf_set k v m : JsMap.wf m → JsMap.wf (JsMap.set k v m).
Proof.
  unfold JsMap.wf. intros Hwf.
  destruct (JsMap.get k m) as [v0|] eqn:E.
  - rewrite keys_set_present; [done | by rewrite E].
  - rewrite keys_set_absent by done.
    apply NoDup_app. split_and!; [done | | apply NoDup_singleton].
    intros x Hx ->%list_elem_of_singleton. by apply get_None in E.
Qed.

Lemma wf_delete k m : JsMap.wf m → JsMap.wf (JsMap.delete k m).
Proof. unfold JsMap.wf. intros Hwf. eapply sublist_NoDup; [done | apply keys_delete]. Qed.

(** In a well-formed map, a deleted key is gone. *)
Lemma get_delete_eq k m : JsMap.wf m → JsMap.get k (JsMap.delete k m) = None.
Proof.
  unfold JsMap.wf, JsMap.entries.
  induction m as [|[[k0 v0]|] m IH]; simpl; [done | | exact IH].
  intros [Hnotin Hnd]%NoDup_cons.
  destruct (decide (k0 = k)) as [->|Hk]; simpl.
  - by apply get_None.
  - rewrite decide_False by done. by apply IH.
Qed.

End WithValue.
End JsMapFacts.

(** ** The host monad *)

Section HostFacts.
Context `{platform : Platform}.
Variable react : Call → State → State.

Lemma bind_Returned {A B : Type} (m : Host A) (f : A → Host B) w b w' :
  (m ≫= f) w = Returned b w' → ∃ a w1, m w = Returned a w1 ∧ f a w1 = Returned b w'.
Proof.
  unfold mbind, Host_bind. destruct (m w) as [a w1| |]; [eauto | done | done].
Qed.

Lemma invoke_eq c w :
  invoke react c w
  = Returned tt {| host := react c (host w); trace := trace w ++ [Invoke c] |}.
Proof. reflexivity. Qed.

(** An array of callbacks is called from first to last, the consumer
    reacting to each call before the next. *)
Lemma forEach_invoke {A : Type} (mk : A → Call) (array : list A) w :
  forEach (λ x, invoke react (mk x)) array w
  = Returned tt {| host := reactAll react (mk <$> array) (host w);
                   trace := trace w ++ (Invoke <$> (mk <$> array)) |}.
Proof.
  revert w. induction array as [|x array IH]; intros w; simpl.
  - run_host. rewrite app_nil_r. by destruct w.
  - unfold mbind, Host_bind. rewrite invoke_eq, IH. simpl.
    by rewrite <- app_assoc.
Qed.

Lemma notifying_weaken {A : Type} (P Q : Call → Prop) (m : Host A) :
  (∀ c, P c → Q c) → notifying P m → notifying Q m.
Proof.
  intros HPQ Hm w. specialize (Hm w). destruct (m w); [|done|done].
  destruct Hm as (cs & E & HP). exists cs. split; [done|].
  eapply Forall_impl; eauto.
Qed.

Lemma notifying_ret {A : Type} P (a : A) : notifying P (mret a).
Proof. intros w. exists []. run_host. by rewrite app_nil_r. Qed.

Lemma notifying_bind {A B : Type} P (m : Host A) (f : A → Host B) :
  notifying P m → (∀ a, notifying P (f a)) → notifying P (m ≫= f).
Proof.
  intros Hm Hf w. unfold mbind, Host_bind.
  specialize (Hm w). destruct (m w) as [a w1| |]; [|done|done].
  destruct Hm as (cs1 & E1 & H1). specialize (Hf a w1).
  destruct (f a w1) as [b w2| |]; [|done|done].
  destruct Hf as (cs2 & E2 & H2). exists (cs1 ++ cs2). split.
  - by rewrite E2, E1, fmap_app, app_assoc.
  - by apply Forall_app.
Qed.

Lemma notifying_getState P : notifying P getState.
Proof. intros w. exists []. run_host. by rewrite app_nil_r. Qed.

Lemma notifying_modify P f : notifying P (modify f).
Proof. intros w. exists []. run_host. by rewrite app_nil_r. Qed.

Lemma notifying_invoke (P : Call → Prop) c : P c → notifying P (invoke react c).
Proof. intros HP w. exists [c]. split; [done | by apply Forall_singleton]. Qed.

Lemma notifying_forEach {A : Type} P (body : A → Host unit) (array : list A) :
  (∀ x, notifying P (body x)) → notifying P (forEach body array).
Proof.
  intros Hbody. induction array as [|x array IH]; simpl.
  - apply notifying_ret.
  - apply notifying_bind; [apply Hbody | intros _; exact IH].
Qed.

Lemma notifying_forEachLive {E : Type} P fuel (collection : State → list (option E))
    (body : E → Host unit) index :
  (∀ e, notifying P (body e)) → notifying P (forEachLive fuel collection body index).
Proof.
  intros Hbody. revert index. induction fuel as [|fuel IH]; intros index; simpl.
  - by intros w.
  - apply notifying_bind; [apply notifying_getState|]. intros st.
    destruct (collection st !! index) as [[e|]|].
    + apply notifying_bind; [apply Hbody | intros _; apply IH].
    + apply IH.
    + apply notifying_ret.
Qed.

(** The file watchers are called with the forward-slashed normal form of the
    path and with the event asked for. *)
Lemma notifying_invokeFileWatchers path event :
  notifying (λ c, ∃ callback,
               c = FileWatcherCall callback (forwardSlash (normalizePath path)) event)
    (invokeFileWatchers react path event).
Proof.
  unfold invokeFileWatchers.
  apply notifying_bind; [apply notifying_getState|]. intros st.
  destruct (JsMap.get _ _); [|apply notifying_ret].
  apply notifying_forEach. intros c. apply notifying_invoke. by exists c.
Qed.

(** The directory dispatch calls directory watchers only, with the
    forward-slashed normal form of the path. *)
Lemma notifying_invokeDirectoryWatchers fuel path :
  notifying (λ c, ∃ callback,
               c = DirectoryWatcherCall callback (forwardSlash (normalizePath path)))
    (invokeDirectoryWatchers react fuel path).
Proof.
  unfold invokeDirectoryWatchers.
  destruct (isIgnored _); [apply notifying_ret|].
  apply notifying_bind; [apply notifying_getState|]. intros st.
  apply notifying_bind.
  - destruct (JsMap.get _ _); [|apply notifying_ret].
    apply notifying_forEach. intros c. apply notifying_invoke. by exists c.
  - intros _. apply notifying_forEachLive. intros [watched cbs].
    destruct (watchesDirectory _ _); [|apply notifying_ret].
    apply notifying_forEach. intros c. apply notifying_invoke. by exists c.
Qed.

Lemma notifying_invokeFileChanged fuel path :
  notifying anyCall (invokeFileChanged react fuel path).
Proof.
  unfold invokeFileChanged.
  apply notifying_bind; [apply notifying_getState|]. intros st.
  destruct (_ || _).
  - apply notifying_bind;
      [eapply notifying_weaken, notifying_invokeFileWatchers; done|]. intros _.
    apply notifying_bind;
      [eapply notifying_weaken, notifying_invokeDirectoryWatchers; done|]. intros _.
    apply notifying_modify.
  - eapply notifying_weaken, notifying_invokeFileWatchers; done.
Qed.

Lemma notifying_invokeFileDeleted fuel path :
  notifying anyCall (invokeFileDeleted react fuel path).
Proof.
  unfold invokeFileDeleted.
  apply notifying_bind; [apply notifying_getState|]. intros st.
  destruct (negb _); [|apply notifying_ret].
  apply notifying_bind;
    [eapply notifying_weaken, notifying_invokeFileWatchers; done|]. intros _.
  apply notifying_bind;
    [eapply notifying_weaken, notifying_invokeDirectoryWatchers; done|]. intros _.
  apply notifying_modify.
Qed.

Lemma notifying_notifications fuel op : notifying anyCall (notifications react fuel op).
Proof.
  destruct op; simpl.
  - apply notifying_invokeFileChanged.
  - apply notifying_invokeFileDeleted.
  - eapply notifying_weaken, notifying_invokeDirectoryWatchers; done.
  - apply notifying_bind;
      [eapply notifying_weaken, notifying_invokeDirectoryWatchers; done|]. intros _.
    eapply notifying_weaken, notifying_invokeFileWatchers; done.
Qed.

Lemma run_eq mode fuel op :
  run mode react fuel op
  = (mutate (getWriteFileSystem mode (target op)) (mutationOf op) ;;
     notifications react fuel op).
Proof. by destruct op. Qed.

Lemma mutate_eq fs m w :
  mutate fs m w
  = match perform fs m with
    | Some e => Thrown e {| host := host w; trace := trace w ++ [ProviderCall fs m] |}
    | None => Returned tt {| host := host w; trace := trace w ++ [ProviderCall fs m] |}
    end.
Proof. unfold mutate. run_host. by destruct (perform fs m). Qed.

(** Every operation starts with its one provider call; if that raises, the
    operation ends there, and if not, calls of callbacks follow. *)
Lemma run_shape mode fuel op w :
  let fs := getWriteFileSystem mode (target op) in
  let m := mutationOf op in
  match perform fs m with
  | Some e =>
      run mode react fuel op w
      = Thrown e {| host := host w; trace := trace w ++ [ProviderCall fs m] |}
  | None =>
      run mode react fuel op w
      = notifications react fuel op
          {| host := host w; trace := trace w ++ [ProviderCall fs m] |}
      ∧ match run mode react fuel op w with
        | Returned _ w' => ∃ cs, trace w' = trace w ++ ProviderCall fs m :: (Invoke <$> cs)
        | Thrown _ _ => False
        | OutOfFuel => True
        end
  end.
Proof.
  intros fs m. rewrite run_eq. unfold mbind, Host_bind. rewrite mutate_eq.
  fold fs m. destruct (perform fs m) as [e|]; [done|].
  split; [done|].
  pose proof (notifying_notifications fuel op
                {| host := host w; trace := trace w ++ [ProviderCall fs m] |}) as Hn.
  destruct (notifications react fuel op _) as [a w'| |]; [|done|done].
  destruct Hn as (cs & Hcs & _). exists cs. simpl in Hcs.
  by rewrite Hcs, <- app_assoc.
Qed.

End HostFacts.

(** ** The provider calls of a trace *)

Lemma providerCalls_app (l k : list Event) :
  providerCalls (l ++ k) = providerCalls l ++ providerCalls k.
Proof. apply omap_app. Qed.

Lemma providerCalls_Invoke (cs : list Call) : providerCalls (Invoke <$> cs) = [].
Proof. induction cs as [|c cs IH]; [done | exact IH]. Qed.

(** ** Failure of a provider *)

(** C8.  An operation asks its provider first.  If the provider raises, the
    operation raises the same to its caller: no callback has been called,
    and the registries and the tracker of deleted files are as they were.  If
    it does not raise, everything the operation does afterwards is calling
    callbacks, so every notification comes after the provider call. *)
Theorem provider_first `{Platform} (mode : FileSystemMode) (react : Call → State → State)
    (fuel : nat) (op : Operation) (w : World) :
  let fs := getWriteFileSystem mode (target op) in
  (∀ e, perform fs (mutationOf op) = Some e →
        run mode react fuel op w
        = Thrown e {| host := host w;
                      trace := trace w ++ [ProviderCall fs (mutationOf op)] |})
  ∧ (perform fs (mutationOf op) = None →
     match run mode react fuel op w with
     | Returned _ w' =>
         ∃ cs, trace w' = trace w ++ ProviderCall fs (mutationOf op) :: (Invoke <$> cs)
     | Thrown _ _ => False
     | OutOfFuel => True
     end).
Proof.
  intros fs. pose proof (run_shape react mode fuel op w) as Hs. simpl in Hs. fold fs in Hs.
  split.
  - intros e He. by rewrite He in Hs.
  - intros Hnone. rewrite Hnone in Hs. by destruct Hs.
Qed.

(** On the sample platform the real provider refuses [/locked/a.ts]: the
    write raises [EACCES], the watcher registered on the file hears nothing,
    and the host is as before. *)
Lemma provider_first_witness :
  @perform Sample.posix realFileSystem (WriteFile "/locked/a.ts" "x") = Some "EACCES"
  ∧ @run Sample.posix write_references observer 1 (OpWriteFile "/locked/a.ts" "x")
      (Sample.after (@watchFile Sample.posix "/locked/a.ts" 1 Sample.start))
    = @Thrown Sample.posix unit "EACCES"
        {| host := host (Sample.after (@watchFile Sample.posix "/locked/a.ts" 1 Sample.start));
           trace := [ProviderCall realFileSystem (WriteFile "/locked/a.ts" "x")] |}.
Proof.
  split; [reflexivity|].
  apply (proj1 (@provider_first Sample.posix write_references observer 1
                  (OpWriteFile "/locked/a.ts" "x")
                  (Sample.after (@watchFile Sample.posix "/locked/a.ts" 1 Sample.start)))).
  reflexivity.
Defined.

(** ** Reading the size and the modified time *)

(** C7, as the code has it.  [getFileSize] and [getModifiedTime] raise for no
    path.  For a path [readStats] knows nothing of they return [0] and
    nothing; for a path it has stats of, file or not, they return the size
    and the modified time of the stats. *)
Theorem size_and_time_of_stats `{Platform} (path : string) (w : World) :
  (∃ size time,
     getFileSize path w = Returned size w ∧ getModifiedTime path w = Returned time w)
  ∧ (readStats path = None →
     getFileSize path w = Returned 0%Z w ∧ getModifiedTime path w = Returned None w)
  ∧ (∀ stats, readStats path = Some stats →
     getFileSize path w = Returned (Stats.size stats) w
     ∧ getModifiedTime path w = Returned (Some (Stats.mtime stats)) w).
Proof.
  unfold getFileSize, getModifiedTime. run_host. split_and!.
  - eauto.
  - by intros ->.
  - by intros stats ->.
Qed.

Lemma size_and_time_of_stats_witness :
  @readStats Sample.posix "/src/missing.ts" = None
  ∧ @getFileSize Sample.posix "/src/missing.ts" Sample.start = Returned 0%Z Sample.start
  ∧ @getModifiedTime Sample.posix "/src/missing.ts" Sample.start
    = Returned None Sample.start.
Proof.
  split; [reflexivity|].
  apply (proj1 (proj2 (@size_and_time_of_stats Sample.posix "/src/missing.ts" Sample.start))).
  reflexivity.
Defined.

(** [/src] of the sample platform is a directory: it does not resolve to a
    file, and still it has a size other than [0] and a modified time. *)
Lemma directory_has_size_and_time :
  @fileExists Sample.posix "/src" Sample.start = Returned false Sample.start
  ∧ @getFileSize Sample.posix "/src" Sample.start = Returned 4096%Z Sample.start
  ∧ @getModifiedTime Sample.posix "/src" Sample.start
    = Returned (Some 1700000000000%Z) Sample.start.
Proof. split_and!; reflexivity. Qed.

(** ** Registering and closing watchers *)

Section WatcherFacts.
Context `{platform : Platform}.

Lemma registry_withRegistry which m st : registry which (withRegistry which m st) = m.
Proof. by destruct which. Qed.

Lemma registry_withRegistry_ne which other m st :
  other ≠ which → registry other (withRegistry which m st) = registry other st.
Proof. by destruct which, other. Qed.

Lemma createWatcher_eq which path callback w :
  createWatcher which path callback w
  = Returned {| watchersMap := which; watchedPath := normalizePath path;
                watcherCallback := callback |}
      {| host := withRegistry which
                   (JsMap.set (normalizePath path)
                      (default [] (JsMap.get (normalizePath path) (registry which (host w)))
                       ++ [callback])
                      (registry which (host w)))
                   (host w);
         trace := trace w |}.
Proof. reflexivity. Qed.

Lemma close_eq h w :
  close h w
  = Returned tt
      {| host := withRegistry (watchersMap h)
                   (if decide (remaining h (host w) = [])
                    then JsMap.delete (watchedPath h) (registry (watchersMap h) (host w))
                    else JsMap.set (watchedPath h) (remaining h (host w))
                           (registry (watchersMap h) (host w)))
                   (host w);
         trace := trace w |}.
Proof.
  unfold close. run_host. fold (remaining h (host w)).
  destruct (remaining h (host w)) as [|c rest]; simpl; by destruct w.
Qed.

Lemma get_after_close h w w' :
  JsMap.wf (registry (watchersMap h) (host w)) →
  close h w = Returned tt w' →
  JsMap.get (watchedPath h) (registry (watchersMap h) (host w'))
  = if decide (remaining h (host w) = []) then None else Some (remaining h (host w)).
Proof.
  intros Hwf. rewrite close_eq. intros [= <-]. simpl.
  rewrite registry_withRegistry.
  destruct (decide _).
  - by apply JsMapFacts.get_delete_eq.
  - apply JsMapFacts.get_set_eq.
Qed.

Lemma remaining_after_close h w w' :
  JsMap.wf (registry (watchersMap h) (host w)) →
  close h w = Returned tt w' →
  remaining h (host w') = remaining h (host w).
Proof.
  intros Hwf Hclose. unfold remaining at 1.
  rewrite (get_after_close h w w' Hwf Hclose).
  destruct (decide _) as [->|]; [done|]. simpl.
  unfold remaining. apply list_filter_filter_l. done.
Qed.

Lemma wf_after_createWatcher which path callback h w w' :
  JsMap.wf (registry which (host w)) →
  createWatcher which path callback w = Returned h w' →
  JsMap.wf (registry which (host w')).
Proof.
  intros Hwf. rewrite createWatcher_eq. intros [= _ <-]. simpl.
  rewrite registry_withRegistry. by apply JsMapFacts.wf_set.
Qed.

Lemma wf_after_close h w w' :
  JsMap.wf (registry (watchersMap h) (host w)) →
  close h w = Returned tt w' →
  JsMap.wf (registry (watchersMap h) (host w')).
Proof.
  intros Hwf. rewrite close_eq. intros [= <-]. simpl.
  rewrite registry_withRegistry.
  destruct (decide _); [by apply JsMapFacts.wf_delete | by apply JsMapFacts.wf_set].
Qed.

End WatcherFacts.

Section CloseFacts.
Context `{platform : Platform}.

Lemma withRegistry_registry which st : withRegistry which (registry which st) st = st.
Proof. by destruct which, st. Qed.

Lemma withRegistry_twice which m m' st :
  withRegistry which m (withRegistry which m' st) = withRegistry which m st.
Proof. by destruct which. Qed.

Lemma filter_ne_notin (c : Callback) (l : list Callback) :
  c ∉ l → filter (λ watcher, watcher ≠ c) l = l.
Proof.
  induction l as [|x l IH]; [done|].
  intros [Hx Hl]%not_elem_of_cons.
  rewrite filter_cons_True by done. by rewrite IH.
Qed.

End CloseFacts.

(** C4, as the code has it.  Closing a watcher removes from the list of its
    path every callback that is the watcher's callback, as often as it is
    there, and leaves the others in their order; if nothing is left, the
    path has no entry any more, so no path is left with an empty list.  The
    other paths keep their lists and no callback is called.  Closing again
    changes nothing, and neither does closing a watcher whose callback is
    not on the list of its path. *)
Theorem close_removes_callback `{Platform} (h : Watcher) (w : World) :
  ∃ w', close h w = Returned tt w'
    ∧ trace w' = trace w
    ∧ (∀ path, path ≠ watchedPath h →
         JsMap.get path (registry (watchersMap h) (host w'))
         = JsMap.get path (registry (watchersMap h) (host w)))
    ∧ (JsMap.wf (registry (watchersMap h) (host w)) →
         JsMap.get (watchedPath h) (registry (watchersMap h) (host w'))
         = (if decide (remaining h (host w) = []) then None
            else Some (remaining h (host w)))
         ∧ close h w' = Returned tt w')
    ∧ (watcherCallback h ∉
         default [] (JsMap.get (watchedPath h) (registry (watchersMap h) (host w))) →
       JsMap.get (watchedPath h) (registry (watchersMap h) (host w)) ≠ Some [] →
       w' = w).
Proof.
  eexists. split; [apply close_eq|]. split_and!.
  - done.
  - intros path Hne. simpl. rewrite registry_withRegistry.
    destruct (decide _).
    + by apply JsMapFacts.get_delete_ne.
    + by apply JsMapFacts.get_set_ne.
  - intros Hwf. split.
    + by eapply get_after_close; [|apply close_eq].
    + rewrite close_eq at 1.
      rewrite (remaining_after_close h w _ Hwf (close_eq h w)).
      simpl. rewrite registry_withRegistry, withRegistry_twice.
      destruct (decide _).
      * rewrite (JsMapFacts.delete_absent (watchedPath h) (JsMap.delete _ _)); [done|].
        by apply JsMapFacts.get_delete_eq.
      * rewrite (JsMapFacts.set_same (watchedPath h) _ (JsMap.set _ _ _)); [done|].
        apply JsMapFacts.get_set_eq.
  - intros Hnotin Hnonempty.
    assert (remaining h (host w)
            = default [] (JsMap.get (watchedPath h) (registry (watchersMap h) (host w))))
      as Hrem by (by apply filter_ne_notin).
    rewrite Hrem.
    destruct (JsMap.get (watchedPath h) (registry (watchersMap h) (host w)))
      as [l|] eqn:Hget; simpl.
    + destruct (decide (l = [])) as [->|]; [done|].
      rewrite JsMapFacts.set_same by done.
      rewrite withRegistry_registry. by destruct w.
    + rewrite JsMapFacts.delete_absent by done.
      rewrite withRegistry_registry. by destruct w.
Qed.

(** The callbacks [7] and [8] watch [/src/a.ts]; once the watcher of [8] is
    closed, the list of the path is [7] alone. *)
Lemma close_removes_callback_witness :
  JsMap.wf (fileWatcherCallbacksMap
              (host (Sample.after
                       ((@watchFile Sample.posix "/src/a.ts" 7 ;;
                         @watchFile Sample.posix "/src/a.ts" 8) Sample.start))))
  ∧ JsMap.get "/src/a.ts"
      (fileWatcherCallbacksMap
         (host (Sample.after
                  ((@watchFile Sample.posix "/src/a.ts" 7 ;;
                    h ← @watchFile Sample.posix "/src/a.ts" 8;
                    @close Sample.posix h) Sample.start))))
    = Some [7].
Proof.
  split.
  - vm_compute. apply NoDup_singleton.
  - pose proof (@close_removes_callback Sample.posix
                  {| watchersMap := FileWatchers; watchedPath := "/src/a.ts";
                     watcherCallback := 8 |}
                  (Sample.after
                     ((@watchFile Sample.posix "/src/a.ts" 7 ;;
                       @watchFile Sample.posix "/src/a.ts" 8) Sample.start)))
      as (w' & Hclose & _ & _ & Hget & _).
    destruct Hget as [Hget _]; [vm_compute; apply NoDup_singleton|].
    vm_compute in Hclose. injection Hclose as <-. exact Hget.
Defined.

(** The same callback registered twice on [/src/a.ts], by two calls of
    [watchFile]: closing the watcher of the first call removes both
    instances, not one, and with them the entry of the path. *)
Lemma close_removes_every_instance :
  JsMap.get "/src/a.ts"
    (fileWatcherCallbacksMap
       (host (Sample.after
                ((first ← @watchFile Sample.posix "/src/a.ts" 7;
                  @watchFile Sample.posix "/src/a.ts" 7) Sample.start))))
  = Some [7; 7]
  ∧ JsMap.get "/src/a.ts"
      (fileWatcherCallbacksMap
         (host (Sample.after
                  ((first ← @watchFile Sample.posix "/src/a.ts" 7;
                    @watchFile Sample.posix "/src/a.ts" 7 ;;
                    @close Sample.posix first) Sample.start))))
    = None.
Proof. split; reflexivity. Qed.

Section QuietFacts.
Context `{platform : Platform}.

Lemma touchesOnly_register which path callback w :
  touchesOnly which (normalizePath path) callback w
    {| host := withRegistry which
                 (JsMap.set (normalizePath path)
                    (default [] (JsMap.get (normalizePath path) (registry which (host w)))
                     ++ [callback])
                    (registry which (host w)))
                 (host w);
       trace := trace w |}.
Proof.
  unfold touchesOnly. simpl. split_and!.
  - done.
  - by destruct which.
  - by destruct which.
  - intros other Hne. by apply registry_withRegistry_ne.
  - intros p Hne. rewrite registry_withRegistry. by apply JsMapFacts.get_set_ne.
  - rewrite registry_withRegistry, JsMapFacts.get_set_eq. simpl.
    rewrite filter_app, filter_cons_False, filter_nil, app_nil_r; [done|].
    by intros ?.
Qed.

Lemma touchesOnly_close h w w' :
  JsMap.wf (registry (watchersMap h) (host w)) →
  close h w = Returned tt w' →
  touchesOnly (watchersMap h) (watchedPath h) (watcherCallback h) w w'.
Proof.
  intros Hwf Hclose. unfold touchesOnly.
  pose proof (remaining_after_close h w w' Hwf Hclose) as Hrem.
  rewrite close_eq in Hclose. injection Hclose as <-. simpl. split_and!.
  - done.
  - by destruct (watchersMap h).
  - by destruct (watchersMap h).
  - intros other Hne. by apply registry_withRegistry_ne.
  - intros p Hne. rewrite registry_withRegistry.
    destruct (decide _); [by apply JsMapFacts.get_delete_ne | by apply JsMapFacts.get_set_ne].
  - exact Hrem.
Qed.

Lemma touchesOnly_queuedWatchers which path callback q w w' :
  touchesOnly which path callback
    {| host := withQueuedWatchers q (host w); trace := trace w |} w' →
  touchesOnly which path callback w w'.
Proof.
  unfold touchesOnly. simpl.
  by replace (registry which (withQueuedWatchers q (host w)))
    with (registry which (host w)) by (by destruct which).
Qed.

End QuietFacts.

(** C10.  [watchFile], [watchDirectory] and the [close] of what they return
    call no callback, neither read nor write the tracker of deleted files and
    the pending timers, and leave every registry entry of another path, and
    every other callback of the same path, as it was.  Registering and
    closing a file watcher leave the queued directory changes alone;
    closing a directory watcher deletes from them the closures that watcher
    queued, and no other. *)
Theorem watching_is_quiet `{Platform} (path : string) (callback : Callback)
    (recursive : bool) (w : World) :
  (∃ h w', watchFile path callback w = Returned h w'
     ∧ h = {| watchersMap := FileWatchers; watchedPath := normalizePath path;
              watcherCallback := callback |}
     ∧ touchesOnly FileWatchers (normalizePath path) callback w w'
     ∧ queuedWatcherCallbacksSet (host w') = queuedWatcherCallbacksSet (host w))
  ∧ (∃ h w', watchDirectory path callback recursive w = Returned h w'
     ∧ controlledWatcher h
       = {| watchersMap := if recursive then RecursiveDirectoryWatchers
                           else DirectoryWatchers;
            watchedPath := normalizePath path; watcherCallback := callback |}
     ∧ touchesOnly (if recursive then RecursiveDirectoryWatchers else DirectoryWatchers)
         (normalizePath path) callback w w'
     ∧ queuedWatcherCallbacksSet (host w') = queuedWatcherCallbacksSet (host w))
  ∧ (∀ h : Watcher,
       JsMap.wf (registry (watchersMap h) (host w)) →
       ∃ w', close h w = Returned tt w'
         ∧ touchesOnly (watchersMap h) (watchedPath h) (watcherCallback h) w w'
         ∧ queuedWatcherCallbacksSet (host w') = queuedWatcherCallbacksSet (host w))
  ∧ (∀ h : DirectoryWatcher,
       JsMap.wf (registry (watchersMap (controlledWatcher h)) (host w)) →
       ∃ w', closeDirectoryWatcher h w = Returned tt w'
         ∧ touchesOnly (watchersMap (controlledWatcher h)) (watchedPath (controlledWatcher h))
             (watcherCallback (controlledWatcher h)) w w'
         ∧ queuedWatcherCallbacksSet (host w')
           = foldl (λ set queuedCallback, JsSet.delete queuedCallback set)
               (queuedWatcherCallbacksSet (host w)) (ownQueuedCallbacks h (host w)))
  ∧ blind (watchFile path callback)
  ∧ blind (watchDirectory path callback recursive)
  ∧ (∀ h : Watcher, blind (close h))
  ∧ (∀ h : DirectoryWatcher, blind (closeDirectoryWatcher h)).
Proof.
  split_and!.
  - do 2 eexists. split; [apply createWatcher_eq|]. split_and!.
    + done.
    + apply touchesOnly_register.
    + done.
  - unfold watchDirectory. run_host. destruct sysWatchDirectory; simpl.
    + do 2 eexists. split; [reflexivity|]. simpl. split_and!.
      * done.
      * eapply touchesOnly_queuedWatchers.
        apply (touchesOnly_register _ path callback
                 {| host := withQueuedWatchers _ (host w); trace := trace w |}).
      * by destruct recursive.
    + do 2 eexists. split; [reflexivity|]. simpl. split_and!.
      * done.
      * apply touchesOnly_register.
      * by destruct recursive.
  - intros h Hwf. eexists. split; [apply close_eq|]. split.
    + apply touchesOnly_close; [done | apply close_eq].
    + simpl. by destruct (watchersMap h).
  - intros [[index|] h] Hwf; unfold closeDirectoryWatcher, ownQueuedCallbacks; simpl.
    + unfold closeQueuedWatcher. run_host.
      destruct (queuedWatchers (host w) !! index) as [q|] eqn:Hq; simpl.
      * rewrite close_eq. eexists. split; [reflexivity|]. simpl. split.
        -- simpl in Hwf.
           assert (JsMap.wf
                     (registry (watchersMap h)
                        (withQueuedWatcherCallbacksSet
                           (foldl (λ set queuedCallback, JsSet.delete queuedCallback set)
                              (queuedWatcherCallbacksSet (host w)) (queuedCallbacks q))
                           (withQueuedWatchers
                              (<[index := {| wrapped := wrapped q;
                                             queuedCallbacks := queuedCallbacks q;
                                             sysWatcherClosed := true |}]>
                                 (queuedWatchers (host w))) (host w))))) as Hwf'
             by (by destruct (watchersMap h)).
           pose proof (touchesOnly_close h {| host := _; trace := trace w |} _
                         Hwf' (close_eq h _)) as Ht.
           unfold touchesOnly in *. simpl in *.
           by destruct (watchersMap h).
        -- by destruct (watchersMap h).
      * rewrite close_eq. eexists. split; [reflexivity|]. split.
        -- apply touchesOnly_close; [done | apply close_eq].
        -- simpl. by destruct (watchersMap h).
    + run_host. rewrite close_eq. eexists. split; [reflexivity|]. split.
      * apply touchesOnly_close; [done | apply close_eq].
      * simpl. by destruct (watchersMap h).
  - intros d t w0. by destruct w0.
  - intros d t w0. unfold watchDirectory. run_host.
    destruct sysWatchDirectory, recursive; by destruct w0.
  - intros h d t w0. rewrite !close_eq. simpl.
    destruct h as [which p c]; destruct which; simpl;
      unfold remaining; simpl; by destruct (decide _).
  - intros [[index|] h] d t w0; unfold closeDirectoryWatcher, closeQueuedWatcher; run_host.
    + destruct (queuedWatchers (host w0) !! index) as [q|]; simpl;
        rewrite !close_eq; simpl;
        destruct h as [which p c]; destruct which; simpl;
          unfold remaining; simpl; by destruct (decide _).
    + rewrite !close_eq. simpl.
      destruct h as [which p c]; destruct which; simpl;
        unfold remaining; simpl; by destruct (decide _).
Qed.

Lemma watching_is_quiet_witness :
  JsMap.wf (directoryWatcherCallbacksMap
              (host (Sample.after
                       ((@watchDirectory Sample.posix "/src" 2 false ;;
                         @queueDirectoryChange Sample.posix 0 "/src/new.ts") Sample.start))))
  ∧ ∃ w',
      @closeDirectoryWatcher Sample.posix
        {| queuedWatcher := Some 0;
           controlledWatcher := {| watchersMap := DirectoryWatchers; watchedPath := "/src";
                                   watcherCallback := 2 |} |}
        (Sample.after
           ((@watchDirectory Sample.posix "/src" 2 false ;;
             @queueDirectoryChange Sample.posix 0 "/src/new.ts") Sample.start))
      = Returned tt w'
      ∧ trace w' = []
      ∧ queuedWatcherCallbacksSet (host w') = [None].
Proof.
  assert (JsMap.wf (directoryWatcherCallbacksMap
                      (host (Sample.after
                               ((@watchDirectory Sample.posix "/src" 2 false ;;
                                 @queueDirectoryChange Sample.posix 0 "/src/new.ts")
                                  Sample.start))))) as Hwf
    by (vm_compute; apply NoDup_singleton).
  split; [exact Hwf|].
  destruct (proj1 (proj2 (proj2 (proj2
              (@watching_is_quiet Sample.posix "/src" 2 false
                 (Sample.after
                    ((@watchDirectory Sample.posix "/src" 2 false ;;
                      @queueDirectoryChange Sample.posix 0 "/src/new.ts") Sample.start))))))
              {| queuedWatcher := Some 0;
                 controlledWatcher := {| watchersMap := DirectoryWatchers;
                                         watchedPath := "/src"; watcherCallback := 2 |} |}
              Hwf)
    as (w' & Hclose & Htouch & Hqueue).
  exists w'. split; [exact Hclose|]. split.
  - destruct Htouch as [Htrace _]. exact Htrace.
  - rewrite Hqueue. reflexivity.
Defined.

(** ** Dispatch to the directory watchers *)

Section DispatchFacts.
Context `{platform : Platform}.
Variable react : Call → State → State.

Lemma invokeFileWatchers_eq path event w :
  invokeFileWatchers react path event w
  = Returned tt
      {| host := reactAll react (fileWatcherCalls (host w) path event) (host w);
         trace := trace w ++ (Invoke <$> fileWatcherCalls (host w) path event) |}.
Proof.
  unfold invokeFileWatchers, fileWatcherCalls. run_host.
  destruct (JsMap.get _ _) as [l|]; simpl.
  - apply forEach_invoke.
  - rewrite app_nil_r. by destruct w.
Qed.

(** A consumer that leaves a part of the state alone leaves it alone
    however often it is called. *)
Lemma reactAll_frame {X : Type} (part : State → X) cs st :
  (∀ c st, part (react c st) = part st) → part (reactAll react cs st) = part st.
Proof.
  intros Hframe. revert st. induction cs as [|c cs IH]; intros st; simpl; [done|].
  by rewrite IH, Hframe.
Qed.

(** A live iteration over a collection that its body leaves alone visits the
    entries that are there from [index] on, in order, and ends; the fuel it
    takes is one unit per entry and one to see the end. *)
Lemma forEachLive_frame {E : Type} (collection : State → list (option E))
    (body : E → Host unit) (said : E → list Call) :
  (∀ e w, ∃ w', body e w = Returned tt w'
              ∧ collection (host w') = collection (host w)
              ∧ trace w' = trace w ++ (Invoke <$> said e)) →
  ∀ fuel index w,
    length (collection (host w)) - index < fuel →
    ∃ w', forEachLive fuel collection body index w = Returned tt w'
        ∧ collection (host w') = collection (host w)
        ∧ trace w'
          = trace w ++ (Invoke <$> flat_map said (omap id (drop index (collection (host w))))).
Proof.
  intros Hbody. induction fuel as [|fuel IH]; intros index w Hfuel; [lia|].
  simpl. run_host.
  destruct (collection (host w) !! index) as [[e|]|] eqn:Hlookup.
  - destruct (Hbody e w) as (w1 & -> & Hsame & Htrace).
    apply lookup_lt_Some in Hlookup as Hlt.
    destruct (IH (S index) w1) as (w' & -> & Hsame' & Htrace').
    { rewrite Hsame. lia. }
    exists w'. split; [done|]. split; [congruence|].
    rewrite Htrace', Htrace, Hsame.
    rewrite (drop_S _ _ _ Hlookup). simpl.
    by rewrite fmap_app, app_assoc.
  - apply lookup_lt_Some in Hlookup as Hlt.
    destruct (IH (S index) w) as (w' & -> & Hsame' & Htrace'); [lia|].
    exists w'. split; [done|]. split; [done|].
    rewrite Htrace'. by rewrite (drop_S _ _ _ Hlookup).
  - exists w. split; [by destruct w|]. split; [done|].
    apply lookup_ge_None in Hlookup. rewrite drop_ge by done.
    simpl. by rewrite app_nil_r.
Qed.

End DispatchFacts.

Section FiredFacts.
Context `{platform : Platform}.
Variable react : Call → State → State.

Lemma fired_absent key fileName (entries : list (string * list Callback)) :
  key ∉ entries.*1 → fired (λ d, bool_decide (d = key)) fileName entries = [].
Proof.
  induction entries as [|[k cbs] entries IH]; simpl; [done|].
  intros [Hk Hrest]%not_elem_of_cons.
  rewrite bool_decide_false by done. simpl. by apply IH.
Qed.

(** In a well-formed registry the entries that fire for a key are the one
    that [get] finds. *)
Lemma fired_get key fileName (m : JsMap.t (list Callback)) :
  JsMap.wf m →
  fired (λ d, bool_decide (d = key)) fileName (JsMap.entries m)
  = (λ callback, DirectoryWatcherCall callback fileName) <$> default [] (JsMap.get key m).
Proof.
  unfold JsMap.wf, JsMap.entries.
  induction m as [|[[k cbs]|] m IH]; simpl; [done | | exact IH].
  intros [Hk Hnd]%NoDup_cons.
  destruct (decide (k = key)) as [->|Hne].
  - rewrite bool_decide_true by done. simpl.
    rewrite (fired_absent key fileName _ Hk). by rewrite app_nil_r.
  - rewrite bool_decide_false by done. simpl. by apply IH.
Qed.

Lemma watchesDirectory_spec watchedDirectory directory :
  watchesDirectory watchedDirectory directory
  = bool_decide
      (watchedDirectory = directory
       ∨ (String.prefix watchedDirectory directory = true
          ∧ String.get (String.length watchedDirectory) (forwardSlash directory)
            = Some "/"%char)).
Proof.
  unfold watchesDirectory, Str.startsWith, Str.at_.
  destruct (decide (watchedDirectory = directory)) as [->|Hne].
  - rewrite (bool_decide_true (directory = directory)) by done. simpl.
    symmetry. apply bool_decide_eq_true_2. by left.
  - rewrite (bool_decide_false (watchedDirectory = directory)) by done. simpl.
    destruct (String.prefix watchedDirectory directory); simpl.
    + apply bool_decide_ext. intuition congruence.
    + symmetry. apply bool_decide_eq_false_2. intuition congruence.
Qed.

(** A callback is called by a registry if and only if it stands in an
    entry that fires. *)
Lemma elem_of_fired (fires : string → bool) fileName
    (entries : list (string * list Callback)) callback :
  DirectoryWatcherCall callback fileName ∈ fired fires fileName entries
  ↔ ∃ key callbacks, (key, callbacks) ∈ entries ∧ callback ∈ callbacks ∧ fires key = true.
Proof.
  unfold fired. induction entries as [|[k cbs] entries IH]; simpl.
  - split; [by intros ?%elem_of_nil | by intros (? & ? & ?%elem_of_nil & _)].
  - rewrite elem_of_app, IH. split.
    + intros [Hhere|(key & callbacks & Hin & Hcb & Hfires)].
      * destruct (fires k) eqn:Hk; [|by apply elem_of_nil in Hhere].
        apply list_elem_of_fmap in Hhere as (cb & [= ->] & Hcb).
        exists k, cbs. split_and!; [left | done | done].
      * exists key, callbacks. split_and!; [by right | done | done].
    + intros (key & callbacks & Hin & Hcb & Hfires).
      apply elem_of_cons in Hin as [[= -> ->]|Hin].
      * left. rewrite Hfires. apply list_elem_of_fmap. by exists callback.
      * right. by exists key, callbacks.
Qed.

Lemma fired_ext (f g : string → bool) fileName entries :
  (∀ key, f key = g key) → fired f fileName entries = fired g fileName entries.
Proof.
  intros Hfg. unfold fired. induction entries as [|[k cbs] entries IH]; simpl; [done|].
  by rewrite Hfg, IH.
Qed.

(** The directory dispatch for a path that is not ignored, when the
    consumer leaves the recursive registry alone while it is called.  *)
Lemma invokeDirectoryWatchers_eq fuel path w :
  (∀ c st, recursiveDirectoryWatcherCallbacksMap (react c st)
           = recursiveDirectoryWatcherCallbacksMap st) →
  isIgnored (normalizePath path) = false →
  length (recursiveDirectoryWatcherCallbacksMap (host w)) < fuel →
  ∃ w', invokeDirectoryWatchers react fuel path w = Returned tt w'
      ∧ trace w'
        = trace w ++
          (Invoke <$>
             (((λ callback, DirectoryWatcherCall callback (forwardSlash (normalizePath path)))
                 <$> default [] (JsMap.get (dirname (normalizePath path))
                                   (directoryWatcherCallbacksMap (host w))))
              ++ fired (λ key, watchesDirectory key (dirname (normalizePath path)))
                   (forwardSlash (normalizePath path))
                   (JsMap.entries (recursiveDirectoryWatcherCallbacksMap (host w))))).
Proof.
  intros Hframe Hignored Hfuel.
  unfold invokeDirectoryWatchers. rewrite Hignored. run_host.
  set (directory := dirname (normalizePath path)).
  set (fileName := forwardSlash (normalizePath path)).
  set (body := λ '(watchedDirectory, recursiveDirectoryWatcherCallbacks),
         if watchesDirectory watchedDirectory directory
         then forEach (λ cb, invoke react (DirectoryWatcherCall cb fileName))
                recursiveDirectoryWatcherCallbacks
         else mret tt).
  pose (said := λ entry : string * list Callback,
          if watchesDirectory entry.1 directory
          then (λ callback, DirectoryWatcherCall callback fileName) <$> entry.2
          else []).
  assert (∀ e w, ∃ w', body e w = Returned tt w'
            ∧ recursiveDirectoryWatcherCallbacksMap (host w')
              = recursiveDirectoryWatcherCallbacksMap (host w)
            ∧ trace w' = trace w ++ (Invoke <$> said e)) as Hbody.
  { intros [r cbs] w0. unfold body, said. simpl.
    destruct (watchesDirectory r directory).
    - eexists. split; [apply forEach_invoke|]. split; [|done].
      simpl. by apply reactAll_frame.
    - exists w0. run_host. split; [by destruct w0|]. split; [done|]. by rewrite app_nil_r. }
  pose proof (forEachLive_frame recursiveDirectoryWatcherCallbacksMap body said Hbody fuel 0)
    as Hlive.
  destruct (JsMap.get directory (directoryWatcherCallbacksMap (host w))) as [l|]; simpl.
  - rewrite forEach_invoke.
    destruct (Hlive {| host := reactAll react
                                  ((λ cb, DirectoryWatcherCall cb fileName) <$> l) (host w);
                       trace := trace w ++ (Invoke <$>
                                  ((λ cb, DirectoryWatcherCall cb fileName) <$> l)) |})
      as (w' & Hrun & _ & Htrace).
    { simpl. rewrite reactAll_frame by done. lia. }
    exists w'. split; [exact Hrun|].
    rewrite Htrace. simpl. rewrite reactAll_frame by done.
    by rewrite fmap_app, app_assoc.
  - destruct (Hlive w) as (w' & Hrun & _ & Htrace); [lia|].
    exists w'. split; [by destruct w|].
    by rewrite Htrace.
Qed.

End FiredFacts.

(** C6.  When the directory watchers are told of a change of a path that is
    not ignored, a watcher registered non-recursively on [d] is called if
    and only if [d] is the directory of the path, and a watcher registered
    recursively on [r] is called if and only if [r] is that directory or
    that directory starts with [r] and goes on with a slash (once its
    separators are forward slashes).  The non-recursive watchers are called
    first, and every call hands over the forward-slashed normal form of the
    path.  The consumer is taken to leave the recursive registry alone
    while it is told, and the fuel to cover that registry. *)
Theorem directory_watchers_fired `{Platform} (react : Call → State → State)
    (fuel : nat) (path : string) (w : World) :
  (∀ c st, recursiveDirectoryWatcherCallbacksMap (react c st)
           = recursiveDirectoryWatcherCallbacksMap st) →
  JsMap.wf (directoryWatcherCallbacksMap (host w)) →
  isIgnored (normalizePath path) = false →
  length (recursiveDirectoryWatcherCallbacksMap (host w)) < fuel →
  let directory := dirname (normalizePath path) in
  let fileName := forwardSlash (normalizePath path) in
  let inSubtree (r : string) : Prop :=
    r = directory
    ∨ (String.prefix r directory = true
       ∧ String.get (String.length r) (forwardSlash directory) = Some "/"%char) in
  ∃ w' told,
    invokeDirectoryWatchers react fuel path w = Returned tt w'
    ∧ trace w' = trace w ++ (Invoke <$> told)
    ∧ told
      = fired (λ d, bool_decide (d = directory)) fileName
          (JsMap.entries (directoryWatcherCallbacksMap (host w)))
        ++ fired (λ r, bool_decide (inSubtree r)) fileName
             (JsMap.entries (recursiveDirectoryWatcherCallbacksMap (host w)))
    ∧ ∀ callback,
        DirectoryWatcherCall callback fileName ∈ told
        ↔ (∃ d callbacks,
             (d, callbacks) ∈ JsMap.entries (directoryWatcherCallbacksMap (host w))
             ∧ callback ∈ callbacks ∧ d = directory)
          ∨ (∃ r callbacks,
               (r, callbacks)
                 ∈ JsMap.entries (recursiveDirectoryWatcherCallbacksMap (host w))
               ∧ callback ∈ callbacks ∧ inSubtree r).
Proof.
  intros Hframe Hwf Hignored Hfuel directory fileName inSubtree.
  destruct (invokeDirectoryWatchers_eq react fuel path w Hframe Hignored Hfuel)
    as (w' & Hrun & Htrace).
  exists w'. eexists. split; [exact Hrun|]. split_and!.
  - rewrite Htrace. fold directory fileName.
    rewrite <- (fired_get directory fileName _ Hwf).
    rewrite (fired_ext (λ key, watchesDirectory key directory)
               (λ r, bool_decide (inSubtree r))); [reflexivity|].
    intros key. apply watchesDirectory_spec.
  - reflexivity.
  - intros callback. rewrite elem_of_app, !elem_of_fired.
    setoid_rewrite bool_decide_eq_true. reflexivity.
Qed.

(** A recursive watcher [1] on [/root], a non-recursive watcher [2] on
    [/root] and a non-recursive watcher [3] on [/root/a]: of a change of
    [/root/a/b.txt] the watchers [3] and [1] are told, [2] is not. *)
Lemma directory_watchers_fired_witness :
  @isIgnored Sample.posix "/root/a/b.txt" = false
  ∧ ∃ w',
      @invokeDirectoryWatchers Sample.posix observer 2 "/root/a/b.txt"
        (Sample.after
           ((@watchDirectory Sample.posix "/root" 1 true ;;
             @watchDirectory Sample.posix "/root" 2 false ;;
             @watchDirectory Sample.posix "/root/a" 3 false) Sample.start))
      = Returned tt w'
      ∧ trace w' = [Invoke (DirectoryWatcherCall 3 "/root/a/b.txt");
                    Invoke (DirectoryWatcherCall 1 "/root/a/b.txt")].
Proof.
  split; [reflexivity|].
  assert (JsMap.wf (directoryWatcherCallbacksMap
                      (host (Sample.after
                               ((@watchDirectory Sample.posix "/root" 1 true ;;
                                 @watchDirectory Sample.posix "/root" 2 false ;;
                                 @watchDirectory Sample.posix "/root/a" 3 false)
                                  Sample.start))))) as Hwf
    by (unfold JsMap.wf; apply (bool_decide_unpack _); vm_compute; exact I).
  destruct (@directory_watchers_fired Sample.posix observer 2 "/root/a/b.txt"
              (Sample.after
                 ((@watchDirectory Sample.posix "/root" 1 true ;;
                   @watchDirectory Sample.posix "/root" 2 false ;;
                   @watchDirectory Sample.posix "/root/a" 3 false) Sample.start))
              (λ _ _, eq_refl) Hwf eq_refl ltac:(simpl; lia))
    as (w' & told & Hrun & Htrace & Htold & _).
  exists w'. split; [exact Hrun|]. rewrite Htrace, Htold. reflexivity.
Defined.

(** ** Writing a file *)

Section WriteFacts.
Context `{platform : Platform}.
Variable react : Call → State → State.

Lemma invokeDirectoryWatchers_returns fuel path w :
  (∀ c st, recursiveDirectoryWatcherCallbacksMap (react c st)
           = recursiveDirectoryWatcherCallbacksMap st) →
  length (recursiveDirectoryWatcherCallbacksMap (host w)) < fuel →
  ∃ w', invokeDirectoryWatchers react fuel path w = Returned tt w'.
Proof.
  intros Hframe Hfuel.
  destruct (isIgnored (normalizePath path)) eqn:Hignored.
  - exists w. unfold invokeDirectoryWatchers. by rewrite Hignored.
  - destruct (invokeDirectoryWatchers_eq react fuel path w Hframe Hignored Hfuel)
      as (w' & Hrun & _).
    by exists w'.
Qed.

(** [writeFile] up to the point where the file watchers have been called. *)
Lemma writeFile_eq mode fuel path data w :
  perform (getWriteFileSystem mode path) (WriteFile path data) = None →
  let told :=
    {| host := reactAll react (fileNotifications (OpWriteFile path data) (host w)) (host w);
       trace := trace w ++
                ProviderCall (getWriteFileSystem mode path) (WriteFile path data)
                :: (Invoke <$> fileNotifications (OpWriteFile path data) (host w)) |} in
  writeFile mode react fuel path data w
  = if isCreation (host w) path then
      (invokeDirectoryWatchers react fuel (normalizePath path) ;;
       modify (λ st, withDeletedFiles
                       (<[normalizePath path := false]> (deletedFiles st)) st)) told
    else Returned tt told.
Proof.
  intros Hperform told.
  unfold writeFile. unfold mbind at 1, Host_bind at 1.
  rewrite mutate_eq, Hperform.
  unfold invokeFileChanged. unfold mbind at 1, Host_bind at 1. unfold getState at 1.
  cbn [host]. fold (isCreation (host w) path).
  subst told. unfold fileNotifications. destruct (isCreation (host w) path).
  - unfold mbind at 1, Host_bind at 1. rewrite invokeFileWatchers_eq.
    cbn [host trace]. by rewrite <- app_assoc.
  - rewrite invokeFileWatchers_eq. cbn [host trace]. by rewrite <- app_assoc.
Qed.


End WriteFacts.

(** C1, as the code has it.  [writeFile] first asks the routed provider to
    write.  Then it takes the write for a creation if the tracker has the
    path as deleted or the registry of file watchers has no entry for it now,
    and for a change otherwise, and calls the file watchers registered on
    the path with that event.  For a creation it goes on to tell the
    directory watchers, and at the end marks the path as not deleted.  For a
    change it does no more: no directory watcher is told and the tracker is
    not written. *)
Theorem write_notifies `{Platform} (mode : FileSystemMode) (react : Call → State → State)
    (fuel : nat) (path data : string) (w : World) :
  perform (getWriteFileSystem mode path) (WriteFile path data) = None →
  let normalizedPath := normalizePath path in
  let created :=
    truthy (deletedFiles (host w) !! normalizedPath)
    || negb (JsMap.has normalizedPath (fileWatcherCallbacksMap (host w))) in
  let cs := fileWatcherCalls (host w) path (if created then Created else Changed) in
  let told :=
    {| host := reactAll react cs (host w);
       trace := trace w ++
                ProviderCall (getWriteFileSystem mode path) (WriteFile path data)
                :: (Invoke <$> cs) |} in
  if created then
    writeFile mode react fuel path data w
    = (invokeDirectoryWatchers react fuel normalizedPath ;;
       modify (λ st, withDeletedFiles (<[normalizedPath := false]> (deletedFiles st)) st))
        told
    ∧ (∀ w', writeFile mode react fuel path data w = Returned tt w' →
         deletedFiles (host w') !! normalizedPath = Some false
         ∧ ∃ ds, trace w' = trace told ++ (Invoke <$> ds)
               ∧ Forall (λ c, ∃ callback,
                           c = DirectoryWatcherCall callback
                                 (forwardSlash (normalizePath normalizedPath))) ds)
    ∧ ((∀ c st, recursiveDirectoryWatcherCallbacksMap (react c st)
                = recursiveDirectoryWatcherCallbacksMap st) →
       length (recursiveDirectoryWatcherCallbacksMap (host w)) < fuel →
       ∃ w', writeFile mode react fuel path data w = Returned tt w')
  else
    writeFile mode react fuel path data w = Returned tt told.
Proof.
  intros Hperform normalizedPath created cs told.
  pose proof (writeFile_eq react mode fuel path data w Hperform) as Hwrite.
  cbv zeta in Hwrite. unfold fileNotifications, isCreation in Hwrite.
  fold normalizedPath created cs told in Hwrite.
  destruct created; [|exact Hwrite].
  split; [exact Hwrite|]. split.
  - intros w' Hreturned. rewrite Hwrite in Hreturned.
    apply bind_Returned in Hreturned as ([] & w2 & Hdir & Hmod).
    pose proof (notifying_invokeDirectoryWatchers react fuel normalizedPath told) as Hn.
    rewrite Hdir in Hn. destruct Hn as (ds & Htrace & Hds).
    unfold modify in Hmod. injection Hmod as <-. simpl. split.
    + apply lookup_insert_eq.
    + by exists ds.
  - intros Hframe Hfuel. rewrite Hwrite.
    destruct (invokeDirectoryWatchers_returns react fuel normalizedPath told Hframe)
      as (w2 & Hdir).
    { subst told. cbn [host]. by rewrite reactAll_frame. }
    eexists. unfold mbind, Host_bind. rewrite Hdir. reflexivity.
Qed.

(** [/src/a.ts] is watched, deleted and written again: the write is a
    creation, it returns, and the path is marked as not deleted. *)
Lemma write_notifies_witness :
  @perform Sample.posix passiveFileSystem (WriteFile "/src/a.ts" "x") = None
  ∧ ∃ w',
      @writeFile Sample.posix readonly observer 1 "/src/a.ts" "x"
        (Sample.after
           ((@watchFile Sample.posix "/src/a.ts" 1 ;;
             @deleteFile Sample.posix readonly observer 1 "/src/a.ts") Sample.start))
      = Returned tt w'
      ∧ deletedFiles (host w') !! "/src/a.ts" = Some false.
Proof.
  split; [reflexivity|].
  pose proof (@write_notifies Sample.posix readonly observer 1 "/src/a.ts" "x"
                (Sample.after
                   ((@watchFile Sample.posix "/src/a.ts" 1 ;;
                     @deleteFile Sample.posix readonly observer 1 "/src/a.ts") Sample.start))
                eq_refl) as Hthm.
  cbv zeta in Hthm.
  change (truthy _ || negb _) with true in Hthm.
  destruct Hthm as (_ & Hsafe & Htotal).
  destruct (Htotal (λ _ _, eq_refl) ltac:(vm_compute; lia)) as (w' & Hw').
  exists w'. split; [exact Hw'|]. exact (proj1 (Hsafe w' Hw')).
Defined.

(** A file watcher [1] on [/src/a.ts] and a directory watcher [2] on [/src].
    The first write of [/src/a.ts] ever is told to the file watcher as a
    change, not as a creation; the directory watcher is not told of it and
    the tracker is not written.  The first write of [/src/b.ts], which no
    file watcher watches, is a creation, and so is the second. *)
Lemma first_write_is_a_change :
  trace (Sample.after
           ((@watchFile Sample.posix "/src/a.ts" 1 ;;
             @watchDirectory Sample.posix "/src" 2 false ;;
             @writeFile Sample.posix readonly observer 1 "/src/a.ts" "x") Sample.start))
  = [ProviderCall passiveFileSystem (WriteFile "/src/a.ts" "x");
     Invoke (FileWatcherCall 1 "/src/a.ts" Changed)]
  ∧ deletedFiles
      (host (Sample.after
               ((@watchFile Sample.posix "/src/a.ts" 1 ;;
                 @watchDirectory Sample.posix "/src" 2 false ;;
                 @writeFile Sample.posix readonly observer 1 "/src/a.ts" "x") Sample.start)))
      !! "/src/a.ts" = None
  ∧ trace (Sample.after
             ((@watchFile Sample.posix "/src/a.ts" 1 ;;
               @watchDirectory Sample.posix "/src" 2 false ;;
               @writeFile Sample.posix readonly observer 1 "/src/b.ts" "x" ;;
               @writeFile Sample.posix readonly observer 1 "/src/b.ts" "y") Sample.start))
    = [ProviderCall passiveFileSystem (WriteFile "/src/b.ts" "x");
       Invoke (DirectoryWatcherCall 2 "/src/b.ts");
       ProviderCall passiveFileSystem (WriteFile "/src/b.ts" "y");
       Invoke (DirectoryWatcherCall 2 "/src/b.ts")].
Proof. split_and!; reflexivity. Qed.

(** ** Ignored paths *)

Section IgnoredFacts.
Context `{platform : Platform}.
Variable react : Call → State → State.





End IgnoredFacts.


Module SampleFacts.



End SampleFacts.


(** ** Routing of the mutations, and that they are made *)

Section RoutingFacts.
Context `{platform : Platform}.
Variable react : Call → State → State.

(** What follows the provider call returns, under a consumer that leaves the
    recursive registry alone, when the fuel covers that registry. *)
Lemma notifications_returns fuel op w :
  (∀ c st, recursiveDirectoryWatcherCallbacksMap (react c st)
           = recursiveDirectoryWatcherCallbacksMap st) →
  length (recursiveDirectoryWatcherCallbacksMap (host w)) < fuel →
  ∃ w', notifications react fuel op w = Returned tt w'.
Proof.
  intros Hframe Hfuel. destruct op as [path data|path|path|path date]; simpl.
  - unfold invokeFileChanged. unfold mbind at 1, Host_bind at 1. unfold getState at 1.
    cbn [host]. destruct (_ || _).
    + unfold mbind at 1, Host_bind at 1. rewrite invokeFileWatchers_eq.
      unfold mbind, Host_bind.
      edestruct (invokeDirectoryWatchers_returns react fuel (normalizePath path))
        as [w1 ->]; [exact Hframe | |by eexists].
      simpl. by rewrite reactAll_frame.
    + rewrite invokeFileWatchers_eq. by eexists.
  - unfold invokeFileDeleted. unfold mbind at 1, Host_bind at 1. unfold getState at 1.
    cbn [host]. destruct (negb _).
    + unfold mbind at 1, Host_bind at 1. rewrite invokeFileWatchers_eq.
      unfold mbind, Host_bind.
      edestruct (invokeDirectoryWatchers_returns react fuel path)
        as [w1 ->]; [exact Hframe | |by eexists].
      simpl. by rewrite reactAll_frame.
    + by eexists.
  - by apply invokeDirectoryWatchers_returns.
  - unfold mbind, Host_bind.
    destruct (invokeDirectoryWatchers_returns react fuel path w Hframe Hfuel) as [w1 ->].
    rewrite invokeFileWatchers_eq. by eexists.
Qed.

End RoutingFacts.

(** C2.  The provider a mutation goes to depends on the mode and the path
    only: the real one in mode [write_references], and in mode
    [write_tsbuildinfo] for the paths that end in [.tsbuildinfo]; the passive
    one in mode [readonly] and for all other paths in mode
    [write_tsbuildinfo].  Each of write, delete, create-directory and
    set-modified-time makes one provider call, the first thing it does, and
    makes it on that provider.  And the call is made: the operation ends,
    returning if the provider made the mutation and raising what the
    provider raised if not, with that one call to that provider in its
    trace; this for a consumer that leaves the recursive registry alone
    while it is told, and fuel that covers that registry. *)
Theorem write_routing `{Platform} (mode : FileSystemMode) (react : Call → State → State)
    (fuel : nat) (op : Operation) (w : World) :
  let fs := getWriteFileSystem mode (target op) in
  (fs = realFileSystem ↔
     mode = write_references ∨
     (mode = write_tsbuildinfo ∧ ∃ stem, target op = stem +:+ ".tsbuildinfo"))
  ∧ (fs = passiveFileSystem ↔
       mode = readonly ∨
       (mode = write_tsbuildinfo ∧ ¬ ∃ stem, target op = stem +:+ ".tsbuildinfo"))
  ∧ match run mode react fuel op w with
    | Returned _ w' | Thrown _ w' =>
        providerCalls (trace w') = providerCalls (trace w) ++ [(fs, mutationOf op)]
    | OutOfFuel => True
    end
  ∧ ((∀ c st, recursiveDirectoryWatcherCallbacksMap (react c st)
              = recursiveDirectoryWatcherCallbacksMap st) →
     length (recursiveDirectoryWatcherCallbacksMap (host w)) < fuel →
     ∃ w', match perform fs (mutationOf op) with
           | Some e => run mode react fuel op w = Thrown e w'
           | None => run mode react fuel op w = Returned tt w'
           end
           ∧ providerCalls (trace w') = providerCalls (trace w) ++ [(fs, mutationOf op)]).
Proof.
  intros fs.
  assert (match run mode react fuel op w with
          | Returned _ w' | Thrown _ w' =>
              providerCalls (trace w') = providerCalls (trace w) ++ [(fs, mutationOf op)]
          | OutOfFuel => True
          end) as Hcalls.
  { pose proof (run_shape react mode fuel op w) as Hs. simpl in Hs. fold fs in Hs.
    destruct (perform fs (mutationOf op)) as [e|].
    + rewrite Hs. simpl. by rewrite providerCalls_app.
    + destruct Hs as [_ Hs]. destruct (run mode react fuel op w) as [a w'| |]; [|done|done].
      destruct Hs as [cs ->].
      rewrite providerCalls_app. simpl. by rewrite providerCalls_Invoke. }
  split_and!.
  - subst fs. unfold getWriteFileSystem.
    rewrite <- StrFacts.endsWith_spec.
    destruct mode; simpl; destruct (Str.endsWith _ _); simpl; intuition congruence.
  - subst fs. unfold getWriteFileSystem.
    rewrite <- StrFacts.endsWith_spec.
    destruct mode; simpl; destruct (Str.endsWith _ _); simpl; intuition congruence.
  - exact Hcalls.
  - intros Hframe Hfuel.
    pose proof (run_shape react mode fuel op w) as Hs. simpl in Hs. fold fs in Hs.
    destruct (perform fs (mutationOf op)) as [e|].
    + eexists. split; [exact Hs|]. simpl. by rewrite providerCalls_app.
    + destruct Hs as [Hrun _].
      destruct (notifications_returns react fuel op
                  {| host := host w;
                     trace := trace w ++ [ProviderCall fs (mutationOf op)] |}
                  Hframe Hfuel) as [w' Hreturns].
      rewrite Hreturns in Hrun. exists w'. split; [exact Hrun|].
      by rewrite Hrun in Hcalls.
Qed.

(** In mode [write_tsbuildinfo] a write of [/out/app.tsbuildinfo] returns,
    and the one thing asked of a provider is asked of the real one. *)
Lemma write_routing_witness :
  ∃ w',
    @run Sample.posix write_tsbuildinfo observer 2
      (OpWriteFile "/out/app.tsbuildinfo" "{}")
      (Sample.after (@watchDirectory Sample.posix "/out" 1 true Sample.start))
    = Returned tt w'
    ∧ providerCalls (trace w')
      = [] ++ [(realFileSystem, WriteFile "/out/app.tsbuildinfo" "{}")].
Proof.
  assert (length (recursiveDirectoryWatcherCallbacksMap
                    (host (Sample.after
                             (@watchDirectory Sample.posix "/out" 1 true Sample.start))))
          < 2) as Hfuel by (vm_compute; lia).
  exact (proj2 (proj2 (proj2
           (@write_routing Sample.posix write_tsbuildinfo observer 2
              (OpWriteFile "/out/app.tsbuildinfo" "{}")
              (Sample.after (@watchDirectory Sample.posix "/out" 1 true Sample.start)))))
           (λ _ _, eq_refl) Hfuel).
Defined.

(** In mode [readonly] nothing is asked of the real provider: an instance of
    [write_routing] on the sample platform, where the one provider call of a
    write goes to the passive provider. *)
Example write_routing_readonly :
  providerCalls
    (trace (Sample.after
              (@run Sample.posix readonly observer 1 (OpWriteFile "/src/a.tsbuildinfo" "{}")
                 Sample.start)))
  = [(passiveFileSystem, WriteFile "/src/a.tsbuildinfo" "{}")].
Proof. reflexivity. Qed.

(** ** Flushing the queued directory changes *)

Section FlushFacts.
Context `{platform : Platform}.
Variable react : Call → State → State.

Lemma values_clear {T : Type} (s : JsSet.t T) : JsSet.values (JsSet.clear s) = [].
Proof. unfold JsSet.values, JsSet.clear. induction s as [|x s IH]; [done | exact IH]. Qed.

Lemma invokeQueuedChanged_Returned fuel w w' :
  invokeQueuedChanged react fuel w = Returned tt w' →
  ∃ w1, forEachLive fuel queuedWatcherCallbacksSet
          (λ callback, invoke react (scopedCall callback)) 0 w = Returned tt w1
      ∧ w' = {| host := withQueuedWatcherCallbacksSet
                          (JsSet.clear (queuedWatcherCallbacksSet (host w1))) (host w1);
                trace := trace w1 |}.
Proof.
  unfold invokeQueuedChanged. intros ([] & w1 & Hlive & Hclear)%bind_Returned.
  exists w1. split; [exact Hlive|]. unfold modify in Hclear. by injection Hclear as <-.
Qed.

(** A live iteration under a consumer that only adds to the collection: when
    it ends, it has called whatever is in the collection then, from [index]
    on, the entries that were added while it ran included. *)
Lemma forEachLive_appending (mk : ScopedCallback → Call) :
  (∀ c st, queuedWatcherCallbacksSet st `prefix_of` queuedWatcherCallbacksSet (react c st)) →
  ∀ fuel index w w',
    forEachLive fuel queuedWatcherCallbacksSet (λ e, invoke react (mk e)) index w
    = Returned tt w' →
    (index ≤ length (queuedWatcherCallbacksSet (host w)))%nat →
    queuedWatcherCallbacksSet (host w) `prefix_of` queuedWatcherCallbacksSet (host w')
    ∧ trace w'
      = trace w ++
        (Invoke <$> (mk <$> omap id (drop index (queuedWatcherCallbacksSet (host w'))))).
Proof.
  intros Happend. induction fuel as [|fuel IH]; intros index w w' Hrun Hindex; [done|].
  simpl in Hrun. unfold mbind, Host_bind, getState in Hrun. simpl in Hrun.
  match type of Hrun with
  | context [match ?x with _ => _ end] => destruct x as [[e|]|] eqn:Hlookup
  end.
  - apply lookup_lt_Some in Hlookup as Hlt.
    pose proof (Happend (mk e) (host w)) as Hstep.
    apply IH in Hrun as [Hprefix Htrace].
    2:{ simpl. apply prefix_length in Hstep. lia. }
    simpl in Hprefix, Htrace.
    assert (queuedWatcherCallbacksSet (host w)
              `prefix_of` queuedWatcherCallbacksSet (host w')) as Hall
      by (by etrans).
    split; [exact Hall|].
    rewrite (drop_S _ (Some e) index) by (by eapply prefix_lookup_Some).
    rewrite Htrace. simpl. by rewrite <- app_assoc.
  - apply lookup_lt_Some in Hlookup as Hlt.
    apply IH in Hrun as [Hprefix Htrace]; [|lia].
    split; [exact Hprefix|].
    rewrite (drop_S _ None index) by (by eapply prefix_lookup_Some).
    exact Htrace.
  - unfold mret, Host_ret in Hrun. injection Hrun as <-.
    split; [done|].
    apply lookup_ge_None in Hlookup. rewrite drop_ge by done.
    simpl. by rewrite app_nil_r.
Qed.

(** ... and the state it leaves is the one the consumer's reactions to those
    calls have made, one after the other. *)
Lemma forEachLive_reacting (mk : ScopedCallback → Call) :
  (∀ c st, queuedWatcherCallbacksSet st `prefix_of` queuedWatcherCallbacksSet (react c st)) →
  ∀ fuel index w w',
    forEachLive fuel queuedWatcherCallbacksSet (λ e, invoke react (mk e)) index w
    = Returned tt w' →
    (index ≤ length (queuedWatcherCallbacksSet (host w)))%nat →
    host w'
    = reactAll react (mk <$> omap id (drop index (queuedWatcherCallbacksSet (host w'))))
        (host w).
Proof.
  intros Happend. induction fuel as [|fuel IH]; intros index w w' Hrun Hindex; [done|].
  pose proof (forEachLive_appending mk Happend (S fuel) index w w' Hrun Hindex)
    as [Hall _].
  simpl in Hrun. unfold mbind, Host_bind, getState in Hrun. simpl in Hrun.
  match type of Hrun with
  | context [match ?x with _ => _ end] => destruct x as [[e|]|] eqn:Hlookup
  end.
  - apply lookup_lt_Some in Hlookup as Hlt.
    pose proof (Happend (mk e) (host w)) as Hstep.
    apply IH in Hrun.
    2:{ simpl. apply prefix_length in Hstep. lia. }
    simpl in Hrun.
    rewrite (drop_S _ (Some e) index) by (by eapply prefix_lookup_Some).
    exact Hrun.
  - apply lookup_lt_Some in Hlookup as Hlt.
    apply IH in Hrun; [|lia].
    rewrite (drop_S _ None index) by (by eapply prefix_lookup_Some).
    exact Hrun.
  - unfold mret, Host_ret in Hrun. injection Hrun as <-.
    apply lookup_ge_None in Hlookup. by rewrite drop_ge.
Qed.

End FlushFacts.

(** C3, as the code has it.  [invokeQueuedChanged] goes through the set of
    queued closures as it is at each step and then clears it.  When it
    returns, no closure is queued, whatever the consumer did meanwhile.  If
    the consumer's reactions only add closures, every closure has been called
    once, in the order of queueing, and the ones added during the flush are
    among them: they run in the same flush and do not stay for the next.
    The closures called are those of the set as the consumer's reactions to
    these very calls have left it, so whatever a reaction added is called;
    and the state the flush leaves is that state with the set cleared.  If
    the consumer leaves the set alone, the flush returns, having called the
    closures that were queued when it started. *)
Theorem flush_runs_and_clears `{Platform} (react : Call → State → State)
    (fuel : nat) (w : World) :
  (∀ w', invokeQueuedChanged react fuel w = Returned tt w' →
     JsSet.size (queuedWatcherCallbacksSet (host w')) = 0)
  ∧ ((∀ c st, queuedWatcherCallbacksSet st
                `prefix_of` queuedWatcherCallbacksSet (react c st)) →
     ∀ w', invokeQueuedChanged react fuel w = Returned tt w' →
       ∃ queued,
         queuedWatcherCallbacksSet (host w) `prefix_of` queued
         ∧ queuedWatcherCallbacksSet (host w') = JsSet.clear queued
         ∧ trace w' = trace w ++ (Invoke <$> (scopedCall <$> JsSet.values queued))
         ∧ queuedWatcherCallbacksSet
             (reactAll react (scopedCall <$> JsSet.values queued) (host w))
           = queued
         ∧ host w'
           = withQueuedWatcherCallbacksSet (JsSet.clear queued)
               (reactAll react (scopedCall <$> JsSet.values queued) (host w)))
  ∧ ((∀ c st, queuedWatcherCallbacksSet (react c st) = queuedWatcherCallbacksSet st) →
     length (queuedWatcherCallbacksSet (host w)) < fuel →
     ∃ w', invokeQueuedChanged react fuel w = Returned tt w'
       ∧ queuedWatcherCallbacksSet (host w')
         = JsSet.clear (queuedWatcherCallbacksSet (host w))
       ∧ trace w'
         = trace w ++
           (Invoke <$> (scopedCall <$> JsSet.values (queuedWatcherCallbacksSet (host w))))).
Proof.
  split_and!.
  - intros w' (w1 & _ & ->)%invokeQueuedChanged_Returned. simpl.
    unfold JsSet.size. by rewrite values_clear.
  - intros Happend w' (w1 & Hlive & ->)%invokeQueuedChanged_Returned.
    pose proof (forEachLive_reacting react scopedCall Happend fuel 0 w w1 Hlive
                  ltac:(lia)) as Hhost.
    rewrite drop_0 in Hhost.
    apply (forEachLive_appending react scopedCall Happend) in Hlive as [Hprefix Htrace];
      [|lia].
    exists (queuedWatcherCallbacksSet (host w1)). split_and!; [done | done | | |].
    + simpl. by rewrite Htrace, drop_0.
    + unfold JsSet.values. by rewrite <- Hhost.
    + simpl. unfold JsSet.values. by rewrite <- Hhost.
  - intros Hframe Hfuel.
    destruct (forEachLive_frame queuedWatcherCallbacksSet
                (λ callback, invoke react (scopedCall callback))
                (λ callback, [scopedCall callback])) with (fuel := fuel) (index := 0) (w := w)
      as (w1 & Hlive & Hsame & Htrace).
    { intros e w0. eexists. split; [apply invoke_eq|]. split; [apply Hframe | done]. }
    { lia. }
    unfold invokeQueuedChanged. unfold mbind, Host_bind.
    change (forEachLive fuel queuedWatcherCallbacksSet
              (λ callback, invoke react (scopedCall callback)) 0 w = Returned tt w1) in Hlive.
    unfold scopedCall in Hlive. rewrite Hlive.
    eexists. split; [reflexivity|]. simpl. split; [by rewrite Hsame|].
    rewrite Htrace, drop_0. by do 2 f_equal.
Qed.

Lemma chatty_appends (c : Call) (st : State) :
  queuedWatcherCallbacksSet st `prefix_of` queuedWatcherCallbacksSet (Sample.chatty c st).
Proof.
  destruct c as [callback fileName event|callback fileName]; [done|].
  destruct callback as [|[|callback]]; [done | | done].
  unfold Sample.chatty, queueDirectoryChange. run_host.
  destruct (queuedWatchers st !! 1) as [q|]; simpl; [|done].
  unfold JsSet.add. destruct (JsSet.has _ _); [done | by apply prefix_app_r].
Qed.

(** Two directory watchers, and one change queued for the first.  While the
    flush calls the first watcher, the native watcher reports a change to
    the second: its closure is added to the set during the flush.  It is
    called in that same flush, and nothing is queued afterwards. *)
Lemma flush_runs_and_clears_witness :
  (∀ c st, queuedWatcherCallbacksSet st
             `prefix_of` queuedWatcherCallbacksSet (Sample.chatty c st))
  ∧ ∃ w' queued,
      @invokeQueuedChanged Sample.posix Sample.chatty 3
        (Sample.after
           ((@watchDirectory Sample.posix "/src" 1 false ;;
             @watchDirectory Sample.posix "/src" 2 false ;;
             @queueDirectoryChange Sample.posix 0 "/src/x.ts") Sample.start))
      = Returned tt w'
      ∧ queuedWatcherCallbacksSet (host w') = JsSet.clear queued
      ∧ trace w' = Invoke <$> (scopedCall <$> JsSet.values queued)
      ∧ queuedWatcherCallbacksSet
          (reactAll Sample.chatty (scopedCall <$> JsSet.values queued)
             (host (Sample.after
                      ((@watchDirectory Sample.posix "/src" 1 false ;;
                        @watchDirectory Sample.posix "/src" 2 false ;;
                        @queueDirectoryChange Sample.posix 0 "/src/x.ts") Sample.start))))
        = queued
      ∧ trace w' = [Invoke (DirectoryWatcherCall 1 "/src/x.ts");
                    Invoke (DirectoryWatcherCall 2 "/src/new.ts")].
Proof.
  split; [exact chatty_appends|].
  assert (@invokeQueuedChanged Sample.posix Sample.chatty 3
            (Sample.after
               ((@watchDirectory Sample.posix "/src" 1 false ;;
                 @watchDirectory Sample.posix "/src" 2 false ;;
                 @queueDirectoryChange Sample.posix 0 "/src/x.ts") Sample.start))
          = Returned tt
              (Sample.after
                 (@invokeQueuedChanged Sample.posix Sample.chatty 3
                    (Sample.after
                       ((@watchDirectory Sample.posix "/src" 1 false ;;
                         @watchDirectory Sample.posix "/src" 2 false ;;
                         @queueDirectoryChange Sample.posix 0 "/src/x.ts") Sample.start)))))
    as Hflush by (vm_compute; reflexivity).
  destruct (proj1 (proj2 (@flush_runs_and_clears Sample.posix Sample.chatty 3
              (Sample.after
                 ((@watchDirectory Sample.posix "/src" 1 false ;;
                   @watchDirectory Sample.posix "/src" 2 false ;;
                   @queueDirectoryChange Sample.posix 0 "/src/x.ts") Sample.start))))
              chatty_appends _ Hflush)
    as (queued & _ & Hcleared & Htrace & Hfixed & _).
  eexists. exists queued.
  split_and!; [exact Hflush | exact Hcleared | exact Htrace | exact Hfixed |].
  vm_compute. reflexivity.
Defined.

(** The same flush, read off: before it one closure is queued, the one for
    the first watcher; the flush calls the first watcher and then the second,
    whose closure was queued while the first was running; afterwards the set
    holds no closure, so the second has not stayed for the next flush. *)
Lemma queued_during_flush_runs_in_it :
  JsSet.values
    (queuedWatcherCallbacksSet
       (host (Sample.after
                ((@watchDirectory Sample.posix "/src" 1 false ;;
                  @watchDirectory Sample.posix "/src" 2 false ;;
                  @queueDirectoryChange Sample.posix 0 "/src/x.ts") Sample.start))))
  = [{| scopedId := 0; scopedCallee := 1; scopedFileName := "/src/x.ts" |}]
  ∧ trace (Sample.after
             ((@watchDirectory Sample.posix "/src" 1 false ;;
               @watchDirectory Sample.posix "/src" 2 false ;;
               @queueDirectoryChange Sample.posix 0 "/src/x.ts" ;;
               @invokeQueuedChanged Sample.posix Sample.chatty 3) Sample.start))
    = [Invoke (DirectoryWatcherCall 1 "/src/x.ts");
       Invoke (DirectoryWatcherCall 2 "/src/new.ts")]
  ∧ JsSet.values
      (queuedWatcherCallbacksSet
         (host (Sample.after
                  ((@watchDirectory Sample.posix "/src" 1 false ;;
                    @watchDirectory Sample.posix "/src" 2 false ;;
                    @queueDirectoryChange Sample.posix 0 "/src/x.ts" ;;
                    @invokeQueuedChanged Sample.posix Sample.chatty 3) Sample.start))))
    = [].
Proof. split_and!; reflexivity. Qed.

(** ** Timers *)

Module TimerFacts.

Lemma accounted_initial : accounted initialRuntime.
Proof.
  unfold accounted. simpl. split_and!.
  - intros timeoutId H. by apply elem_of_nil in H.
  - done.
  - intros timeoutId H. by apply elem_of_nil in H.
Qed.

Lemma accounted_waitTurn waiter rt : accounted rt → accounted (waitTurn waiter rt).
Proof.
  intros (Hs & Hr & Hf). unfold waitTurn.
  destruct (0 <? size (timeoutCallbacks (sys rt)))%nat; unfold accounted; simpl.
  - done.
  - split_and!.
    + intros timeoutId [H|H%list_elem_of_singleton]%elem_of_app; [|done].
      destruct (Hs _ H) as [?|[?|?]]; set_solver.
    + intros timeoutId H. destruct (Hr _ H) as [cb ?]. exists cb. set_solver.
    + intros timeoutId [H|H%list_elem_of_singleton]%elem_of_app; [|done].
      destruct (Hf _ H) as [cb ?]. exists cb. set_solver.
Qed.

Lemma accounted_step s rt rt' : accounted rt → step s rt = Some rt' → accounted rt'.
Proof.
  intros Hacc Hstep. pose proof Hacc as (Hs & Hr & Hf).
  destruct s as [callback|timeoutId| | | | |waiter]; simpl in Hstep.
  - injection Hstep as <-. unfold accounted. simpl. split_and!.
    + intros timeoutId [H|H%list_elem_of_singleton]%elem_of_app.
      * destruct (Hs _ H) as [?|[?|?]]; set_solver.
      * injection H as ->. set_solver.
    + intros timeoutId H. destruct (Hr _ H) as [cb ?]. exists cb. set_solver.
    + intros timeoutId [H|H%list_elem_of_singleton]%elem_of_app; [|done].
      destruct (Hf _ H) as [cb ?]. exists cb. set_solver.
  - injection Hstep as <-. unfold accounted. simpl. split_and!.
    + intros id [H|H%list_elem_of_singleton]%elem_of_app; [|done].
      destruct (decide (id = timeoutId)) as [->|Hne]; [set_solver|].
      destruct (Hs _ H) as [?|[?|?]]; set_solver.
    + intros id H. destruct (Hr _ H) as [cb ?]. exists cb. set_solver.
    + intros id [H|H%list_elem_of_singleton]%elem_of_app; [|done].
      destruct (Hf _ H) as [cb ?]. exists cb. set_solver.
  - injection Hstep as <-. unfold waitForQueued. simpl.
    by apply accounted_waitTurn.
  - destruct (running rt) as [r|] eqn:Hrun; [done|].
    destruct (immediateQueue rt) as [|[timeoutId [callback|waiter]] rest]; [done| |];
      injection Hstep as <-; unfold accounted; simpl.
    + split_and!.
      * intros id [H|H%list_elem_of_singleton]%elem_of_app; [|done].
        destruct (Hs _ H) as [?|[?|?]]; set_solver.
      * intros id [= <-]. exists callback. set_solver.
      * intros id [H|H%list_elem_of_singleton]%elem_of_app; [|done].
        destruct (Hf _ H) as [cb ?]. exists cb. set_solver.
    + rewrite Hrun. done.
  - destruct (running rt) as [r|] eqn:Hrun; [|done].
    injection Hstep as <-. unfold accounted. simpl. split_and!.
    + intros id [H|H%list_elem_of_singleton]%elem_of_app; [|done].
      destruct (decide (id = r)) as [->|Hne]; [set_solver|].
      destruct (Hs _ H) as [?|[?|?]]; set_solver.
    + done.
    + intros id [H|H%list_elem_of_singleton]%elem_of_app.
      * destruct (Hf _ H) as [cb ?]. exists cb. set_solver.
      * injection H as ->. destruct (Hr r eq_refl) as [cb ?]. exists cb. set_solver.
  - destruct (running rt) as [r|] eqn:Hrun; [|done].
    injection Hstep as <-. unfold accounted. simpl. done.
  - destruct (running rt) as [r|]; [done|].
    destruct (waiters rt !! waiter) as [[| |]|]; try done.
    injection Hstep as <-. by apply accounted_waitTurn.
Qed.

Lemma accounted_steps ss rt rt' : accounted rt → steps ss rt = Some rt' → accounted rt'.
Proof.
  revert rt. induction ss as [|s ss IH]; intros rt Hacc Hsteps; simpl in Hsteps.
  - by injection Hsteps as <-.
  - destruct (step s rt) as [rt1|] eqn:Hstep; [|done].
    eapply IH; [|exact Hsteps]. by eapply accounted_step.
Qed.

Lemma waitTurn_drains waiter k rt :
  Drained k ∈ timeline (waitTurn waiter rt) → Drained k ∉ timeline rt →
  timeoutCallbacks (sys (waitTurn waiter rt)) = ∅.
Proof.
  unfold waitTurn.
  destruct (0 <? size (timeoutCallbacks (sys rt)))%nat eqn:Hsize; simpl; [done|].
  intros _ _. apply Nat.ltb_ge in Hsize.
  apply leibniz_equiv, size_empty_inv. lia.
Qed.

Lemma drained_before k e (events : list TimerEvent) :
  Drained k ∈ events ++ [e] → (∀ j, e ≠ Drained j) → Drained k ∈ events.
Proof.
  intros [Hin|Hin%list_elem_of_singleton]%elem_of_app Hother; [done|].
  by destruct (Hother k).
Qed.

(** A step that drains a waiter finds no timer pending. *)
Lemma step_drains s k rt rt' :
  step s rt = Some rt' →
  Drained k ∈ timeline rt' → Drained k ∉ timeline rt →
  timeoutCallbacks (sys rt') = ∅.
Proof.
  intros Hstep Hin Hnotin.
  destruct s as [callback|timeoutId| | | | |waiter]; simpl in Hstep.
  - injection Hstep as <-. simpl in Hin. by apply drained_before in Hin.
  - injection Hstep as <-. simpl in Hin. by apply drained_before in Hin.
  - injection Hstep as <-. unfold waitForQueued in *. simpl in *.
    by eapply waitTurn_drains.
  - destruct (running rt); [done|].
    destruct (immediateQueue rt) as [|[timeoutId [callback|waiter]] rest]; [done| |];
      injection Hstep as <-; simpl in Hin; [by apply drained_before in Hin | done].
  - destruct (running rt); [|done]. injection Hstep as <-. simpl in Hin.
    by apply drained_before in Hin.
  - destruct (running rt); [|done]. by injection Hstep as <-.
  - destruct (running rt); [done|].
    destruct (waiters rt !! waiter) as [[| |]|]; try done.
    injection Hstep as <-. by eapply waitTurn_drains.
Qed.

End TimerFacts.

(** C9.  However the consumer and the event loop take turns from the start,
    a call of [waitForQueued] resolves only at a step that finds the set of
    pending timers empty; and at that step every timer scheduled so far,
    the ones scheduled by timer callbacks during the wait included, has
    either started and returned or been cancelled. *)
Theorem drained_after_all_timers (ss : list Step) (s : Step) (rt rt' : Runtime)
    (waiter : nat) :
  steps ss initialRuntime = Some rt →
  step s rt = Some rt' →
  Drained waiter ∈ timeline rt' →
  Drained waiter ∉ timeline rt →
  timeoutCallbacks (sys rt') = ∅
  ∧ ∀ timeoutId, Scheduled timeoutId ∈ timeline rt' →
      (Finished timeoutId ∈ timeline rt'
       ∧ ∃ callback, Started timeoutId callback ∈ timeline rt')
      ∨ Cancelled timeoutId ∈ timeline rt'.
Proof.
  intros Hsteps Hstep Hin Hnotin.
  pose proof (TimerFacts.step_drains s waiter rt rt' Hstep Hin Hnotin) as Hempty.
  split; [exact Hempty|].
  assert (accounted rt') as (Hs & _ & Hf).
  { eapply TimerFacts.accounted_step; [|exact Hstep].
    eapply TimerFacts.accounted_steps; [apply TimerFacts.accounted_initial | exact Hsteps]. }
  intros timeoutId Hscheduled.
  destruct (Hs _ Hscheduled) as [Hpending|[Hfinished|Hcancelled]].
  - rewrite Hempty in Hpending. by apply not_elem_of_empty in Hpending.
  - left. split; [done | by apply Hf].
  - by right.
Qed.

(** Two timers are scheduled and [waitForQueued] is called.  The first
    callback schedules a third timer while it runs.  After the first two
    have run, the wait looks again, finds the third pending and waits on;
    it resolves after the third has run too. *)
Lemma drained_after_all_timers_witness :
  ∃ rt rt',
    steps [CallSetTimeout 1; CallSetTimeout 2; CallWaitForQueued;
           RunImmediate; CallSetTimeout 3; CallbackReturns;
           RunImmediate; CallbackReturns;
           RunImmediate; Resume 0;
           RunImmediate; CallbackReturns;
           RunImmediate] initialRuntime = Some rt
    ∧ step (Resume 0) rt = Some rt'
    ∧ timeline rt
      = [Scheduled 0; Scheduled 1; Started 0 1; Scheduled 3; Finished 0;
         Started 1 2; Finished 1; Started 3 3; Finished 3]
    ∧ timeline rt' = timeline rt ++ [Drained 0]
    ∧ timeoutCallbacks (sys rt') = ∅.
Proof.
  pose (ss := [CallSetTimeout 1; CallSetTimeout 2; CallWaitForQueued;
               RunImmediate; CallSetTimeout 3; CallbackReturns;
               RunImmediate; CallbackReturns;
               RunImmediate; Resume 0;
               RunImmediate; CallbackReturns;
               RunImmediate]).
  pose (rt := default initialRuntime (steps ss initialRuntime)).
  pose (rt' := default initialRuntime (step (Resume 0) rt)).
  assert (steps ss initialRuntime = Some rt) as Hsteps by (vm_compute; reflexivity).
  assert (step (Resume 0) rt = Some rt') as Hstep by (vm_compute; reflexivity).
  assert (Drained 0 ∈ timeline rt') as Hin
    by (apply (bool_decide_unpack _); vm_compute; exact I).
  assert (Drained 0 ∉ timeline rt) as Hnotin
    by (apply (bool_decide_unpack _); vm_compute; exact I).
  exists rt, rt'. split; [exact Hsteps|]. split; [exact Hstep|].
  split; [reflexivity|]. split; [reflexivity|].
  exact (proj1 (drained_after_all_timers ss (Resume 0) rt rt' 0 Hsteps Hstep Hin Hnotin)).
Defined.

(** * Further properties of the host *)

(** ** What an operation leaves alone *)

Section FramingFacts.
Context `{platform : Platform}.
Variable react : Call → State → State.
Context {X : Type} (part : State → X).
Hypothesis react_frame : ∀ c st, part (react c st) = part st.

Lemma framing_ret {A : Type} (a : A) : framing part (mret a).
Proof. by intros w. Qed.

Lemma framing_bind {A B : Type} (m : Host A) (f : A → Host B) :
  framing part m → (∀ a, framing part (f a)) → framing part (m ≫= f).
Proof.
  intros Hm Hf w. unfold mbind, Host_bind.
  specialize (Hm w). destruct (m w) as [a w1|e w1|]; [|done|done].
  specialize (Hf a w1). destruct (f a w1); [congruence | congruence | done].
Qed.

Lemma framing_getState : framing part getState.
Proof. by intros w. Qed.

Lemma framing_modify f : (∀ st, part (f st) = part st) → framing part (modify f).
Proof. intros Hf w. apply Hf. Qed.

Lemma framing_invoke c : framing part (invoke react c).
Proof. intros w. apply react_frame. Qed.

Lemma framing_mutate fs m : framing part (mutate fs m).
Proof. intros w. rewrite mutate_eq. by destruct (perform fs m). Qed.

Lemma framing_forEach {A : Type} (body : A → Host unit) (array : list A) :
  (∀ x, framing part (body x)) → framing part (forEach body array).
Proof.
  intros Hbody. induction array as [|x array IH]; simpl.
  - apply framing_ret.
  - apply framing_bind; [apply Hbody | intros _; exact IH].
Qed.

Lemma framing_forEachLive {E : Type} fuel (collection : State → list (option E))
    (body : E → Host unit) index :
  (∀ e, framing part (body e)) → framing part (forEachLive fuel collection body index).
Proof.
  intros Hbody. revert index. induction fuel as [|fuel IH]; intros index; simpl.
  - by intros w.
  - apply framing_bind; [apply framing_getState|]. intros st.
    destruct (collection st !! index) as [[e|]|].
    + apply framing_bind; [apply Hbody | intros _; apply IH].
    + apply IH.
    + apply framing_ret.
Qed.

Lemma framing_invokeFileWatchers path event :
  framing part (invokeFileWatchers react path event).
Proof.
  unfold invokeFileWatchers.
  apply framing_bind; [apply framing_getState|]. intros st.
  destruct (JsMap.get _ _); [|apply framing_ret].
  apply framing_forEach. intros c. apply framing_invoke.
Qed.

Lemma framing_invokeDirectoryWatchers fuel path :
  framing part (invokeDirectoryWatchers react fuel path).
Proof.
  unfold invokeDirectoryWatchers.
  destruct (isIgnored _); [apply framing_ret|].
  apply framing_bind; [apply framing_getState|]. intros st.
  apply framing_bind.
  - destruct (JsMap.get _ _); [|apply framing_ret].
    apply framing_forEach. intros c. apply framing_invoke.
  - intros _. apply framing_forEachLive. intros [watched cbs].
    destruct (watchesDirectory _ _); [|apply framing_ret].
    apply framing_forEach. intros c. apply framing_invoke.
Qed.

Lemma framing_run mode fuel op :
  (∀ b st, part (withDeletedFiles
                   (<[normalizePath (target op) := b]> (deletedFiles st)) st)
           = part st) →
  framing part (run mode react fuel op).
Proof.
  intros Htracker. rewrite run_eq.
  apply framing_bind; [apply framing_mutate|]. intros _.
  destruct op as [path data|path|path|path date]; simpl in *.
  - unfold invokeFileChanged.
    apply framing_bind; [apply framing_getState|]. intros st.
    destruct (_ || _); [|apply framing_invokeFileWatchers].
    apply framing_bind; [apply framing_invokeFileWatchers|]. intros _.
    apply framing_bind; [apply framing_invokeDirectoryWatchers|]. intros _.
    apply framing_modify. intros st0. apply Htracker.
  - unfold invokeFileDeleted.
    apply framing_bind; [apply framing_getState|]. intros st.
    destruct (negb _); [|apply framing_ret].
    apply framing_bind; [apply framing_invokeFileWatchers|]. intros _.
    apply framing_bind; [apply framing_invokeDirectoryWatchers|]. intros _.
    apply framing_modify. intros st0. apply Htracker.
  - apply framing_invokeDirectoryWatchers.
  - apply framing_bind; [apply framing_invokeDirectoryWatchers|]. intros _.
    apply framing_invokeFileWatchers.
Qed.

End FramingFacts.

(** X1.  Writing, deleting, creating a directory and setting the modified
    time change the state of the host in one place only, the tracker of
    deleted files at the normal form of the path.  Any part of the state
    that this one write and the consumer's reactions leave alone (a
    registry, the queued directory changes, the pending timers, the tracker
    at another path) is the same after the operation, whether it returns or
    raises. *)
Theorem operations_keep_the_rest `{Platform} {X : Type} (part : State → X)
    (mode : FileSystemMode) (react : Call → State → State) (fuel : nat)
    (op : Operation) (w : World) :
  (∀ c st, part (react c st) = part st) →
  (∀ b st, part (withDeletedFiles
                   (<[normalizePath (target op) := b]> (deletedFiles st)) st)
           = part st) →
  match run mode react fuel op w with
  | Returned _ w' | Thrown _ w' => part (host w') = part (host w)
  | OutOfFuel => True
  end.
Proof. intros Hreact Htracker. by apply (framing_run react part Hreact). Qed.

(** A write of [/src/a.ts], which is watched and was deleted: the watcher is
    told, the tracker is written at [/src/a.ts], and the registry of file
    watchers and the tracker at [/src/b.ts] are as before. *)
Lemma operations_keep_the_rest_witness :
  (fileWatcherCallbacksMap
     (host (Sample.after
              ((@watchFile Sample.posix "/src/a.ts" 1 ;;
                @deleteFile Sample.posix readonly observer 1 "/src/a.ts" ;;
                @deleteFile Sample.posix readonly observer 1 "/src/b.ts" ;;
                @writeFile Sample.posix readonly observer 1 "/src/a.ts" "x") Sample.start))),
   deletedFiles
     (host (Sample.after
              ((@watchFile Sample.posix "/src/a.ts" 1 ;;
                @deleteFile Sample.posix readonly observer 1 "/src/a.ts" ;;
                @deleteFile Sample.posix readonly observer 1 "/src/b.ts" ;;
                @writeFile Sample.posix readonly observer 1 "/src/a.ts" "x") Sample.start)))
     !! "/src/b.ts")
  = ([Some ("/src/a.ts", [1])], Some true).
Proof.
  pose proof (@operations_keep_the_rest Sample.posix _
                (λ st, (fileWatcherCallbacksMap st, deletedFiles st !! "/src/b.ts"))
                readonly observer 1 (OpWriteFile "/src/a.ts" "x")
                (Sample.after
                   ((@watchFile Sample.posix "/src/a.ts" 1 ;;
                     @deleteFile Sample.posix readonly observer 1 "/src/a.ts" ;;
                     @deleteFile Sample.posix readonly observer 1 "/src/b.ts") Sample.start))
                (λ _ _, eq_refl)) as Hkeep.
  assert (∀ (b : bool) (st : State),
            (fileWatcherCallbacksMap
               (withDeletedFiles (<["/src/a.ts" := b]> (deletedFiles st)) st),
             deletedFiles (withDeletedFiles (<["/src/a.ts" := b]> (deletedFiles st)) st)
               !! "/src/b.ts")
            = (fileWatcherCallbacksMap st, deletedFiles st !! "/src/b.ts")) as Htracker.
  { intros b st. simpl. by rewrite lookup_insert_ne. }
  specialize (Hkeep Htracker).
  exact Hkeep.
Defined.

(** ** Deleting a file *)

Section DeleteFacts.
Context `{platform : Platform}.
Variable react : Call → State → State.

(** [deleteFile] up to the point where the file watchers have been called. *)
Lemma deleteFile_eq mode fuel path w :
  perform (getWriteFileSystem mode path) (DeleteFile path) = None →
  let asked :=
    {| host := host w;
       trace := trace w ++ [ProviderCall (getWriteFileSystem mode path) (DeleteFile path)] |} in
  let told :=
    {| host := reactAll react (fileWatcherCalls (host w) path Deleted) (host w);
       trace := trace w ++
                ProviderCall (getWriteFileSystem mode path) (DeleteFile path)
                :: (Invoke <$> fileWatcherCalls (host w) path Deleted) |} in
  deleteFile mode react fuel path w
  = if truthy (deletedFiles (host w) !! normalizePath path) then Returned tt asked
    else
      (invokeDirectoryWatchers react fuel path ;;
       modify (λ st, withDeletedFiles
                       (<[normalizePath path := true]> (deletedFiles st)) st)) told.
Proof.
  intros Hperform asked told.
  unfold deleteFile. unfold mbind at 1, Host_bind at 1.
  rewrite mutate_eq, Hperform.
  unfold invokeFileDeleted. unfold mbind at 1, Host_bind at 1. unfold getState at 1.
  cbn [host].
  destruct (truthy (deletedFiles (host w) !! normalizePath path)); simpl; [done|].
  unfold mbind at 1, Host_bind at 1. rewrite invokeFileWatchers_eq.
  cbn [host trace]. subst told. by rewrite <- app_assoc.
Qed.

(** A [deleteFile] that returns leaves the path marked as deleted. *)
Lemma deleteFile_marks mode fuel path w w' :
  deleteFile mode react fuel path w = Returned tt w' →
  perform (getWriteFileSystem mode path) (DeleteFile path) = None
  ∧ truthy (deletedFiles (host w') !! normalizePath path) = true.
Proof.
  intros Hdelete.
  destruct (perform (getWriteFileSystem mode path) (DeleteFile path)) as [e|] eqn:Hperform.
  { unfold deleteFile in Hdelete. unfold mbind at 1, Host_bind at 1 in Hdelete.
    by rewrite mutate_eq, Hperform in Hdelete. }
  split; [done|].
  rewrite (deleteFile_eq mode fuel path w Hperform) in Hdelete. cbv zeta in Hdelete.
  destruct (truthy (deletedFiles (host w) !! normalizePath path)) eqn:Hdeleted.
  - by injection Hdelete as <-.
  - apply bind_Returned in Hdelete as ([] & w2 & _ & Hmod).
    unfold modify in Hmod. injection Hmod as <-. simpl.
    by rewrite lookup_insert_eq.
Qed.

End DeleteFacts.

(** X2.  [deleteFile] of a path that is not marked as deleted asks the routed
    provider, calls the file watchers registered on the path with the event
    [Deleted], then runs the dispatch to the directory watchers for the path
    and at the end marks the path as deleted.  When the path is not ignored
    the directory watchers called are those registered on the directory of
    the path, followed by the recursive ones that watch it, all of them as
    they are after the file watchers were told.  Of a path that is marked as
    deleted it asks the provider and does no more. *)
Theorem delete_notifies `{Platform} (mode : FileSystemMode) (react : Call → State → State)
    (fuel : nat) (path : string) (w : World) :
  perform (getWriteFileSystem mode path) (DeleteFile path) = None →
  let normalizedPath := normalizePath path in
  let asked := ProviderCall (getWriteFileSystem mode path) (DeleteFile path) in
  let cs := fileWatcherCalls (host w) path Deleted in
  let told :=
    {| host := reactAll react cs (host w);
       trace := trace w ++ asked :: (Invoke <$> cs) |} in
  if truthy (deletedFiles (host w) !! normalizedPath) then
    deleteFile mode react fuel path w
    = Returned tt {| host := host w; trace := trace w ++ [asked] |}
  else
    deleteFile mode react fuel path w
    = (invokeDirectoryWatchers react fuel path ;;
       modify (λ st, withDeletedFiles (<[normalizedPath := true]> (deletedFiles st)) st))
        told
    ∧ (∀ w', deleteFile mode react fuel path w = Returned tt w' →
         deletedFiles (host w') !! normalizedPath = Some true
         ∧ ∃ ds, trace w' = trace told ++ (Invoke <$> ds)
               ∧ Forall (λ c, ∃ callback,
                           c = DirectoryWatcherCall callback (forwardSlash normalizedPath))
                   ds)
    ∧ ((∀ c st, recursiveDirectoryWatcherCallbacksMap (react c st)
                = recursiveDirectoryWatcherCallbacksMap st) →
       length (recursiveDirectoryWatcherCallbacksMap (host w)) < fuel →
       (∃ w', deleteFile mode react fuel path w = Returned tt w')
       ∧ (isIgnored normalizedPath = false →
          ∃ w', deleteFile mode react fuel path w = Returned tt w'
              ∧ trace w'
                = trace told ++
                  (Invoke <$>
                     (((λ callback,
                          DirectoryWatcherCall callback (forwardSlash normalizedPath))
                         <$> default [] (JsMap.get (dirname normalizedPath)
                                           (directoryWatcherCallbacksMap (host told))))
                      ++ fired (λ key, watchesDirectory key (dirname normalizedPath))
                           (forwardSlash normalizedPath)
                           (JsMap.entries
                              (recursiveDirectoryWatcherCallbacksMap (host told))))))).
Proof.
  intros Hperform normalizedPath asked cs told.
  pose proof (deleteFile_eq react mode fuel path w Hperform) as Hdelete.
  cbv zeta in Hdelete. fold normalizedPath asked cs told in Hdelete.
  destruct (truthy (deletedFiles (host w) !! normalizedPath)); [exact Hdelete|].
  split_and!.
  - exact Hdelete.
  - intros w' Hreturned. rewrite Hdelete in Hreturned.
    apply bind_Returned in Hreturned as ([] & w2 & Hdir & Hmod).
    pose proof (notifying_invokeDirectoryWatchers react fuel path told) as Hn.
    rewrite Hdir in Hn. destruct Hn as (ds & Htrace & Hds).
    unfold modify in Hmod. injection Hmod as <-. simpl. split.
    + apply lookup_insert_eq.
    + by exists ds.
  - intros Hframe Hfuel.
    assert (length (recursiveDirectoryWatcherCallbacksMap (host told)) < fuel) as Hfuel'.
    { subst told. cbn [host]. by rewrite reactAll_frame. }
    split.
    + rewrite Hdelete.
      destruct (invokeDirectoryWatchers_returns react fuel path told Hframe Hfuel')
        as (w2 & Hdir).
      eexists. unfold mbind, Host_bind. rewrite Hdir. reflexivity.
    + intros Hignored. rewrite Hdelete.
      destruct (invokeDirectoryWatchers_eq react fuel path told Hframe Hignored Hfuel')
        as (w2 & Hdir & Hsaid).
      eexists. unfold mbind, Host_bind. rewrite Hdir. split; [reflexivity|].
      exact Hsaid.
Qed.

(** [/src/a.ts] is watched by [1], its directory by [2] and, recursively,
    by [3]: the delete tells the file watcher, then [2], then [3]. *)
Lemma delete_notifies_witness :
  @perform Sample.posix passiveFileSystem (DeleteFile "/src/a.ts") = None
  ∧ ∃ w',
      @deleteFile Sample.posix readonly observer 2 "/src/a.ts"
        (Sample.after
           ((@watchFile Sample.posix "/src/a.ts" 1 ;;
             @watchDirectory Sample.posix "/src" 2 false ;;
             @watchDirectory Sample.posix "/src" 3 true) Sample.start))
      = Returned tt w'
      ∧ trace w'
        = [ProviderCall passiveFileSystem (DeleteFile "/src/a.ts");
           Invoke (FileWatcherCall 1 "/src/a.ts" Deleted);
           Invoke (DirectoryWatcherCall 2 "/src/a.ts");
           Invoke (DirectoryWatcherCall 3 "/src/a.ts")].
Proof.
  split; [reflexivity|].
  pose proof (@delete_notifies Sample.posix readonly observer 2 "/src/a.ts"
                (Sample.after
                   ((@watchFile Sample.posix "/src/a.ts" 1 ;;
                     @watchDirectory Sample.posix "/src" 2 false ;;
                     @watchDirectory Sample.posix "/src" 3 true) Sample.start))
                eq_refl) as Hthm.
  cbv zeta in Hthm. change (truthy _) with false in Hthm.
  destruct Hthm as (_ & _ & Htotal).
  assert (length (recursiveDirectoryWatcherCallbacksMap
                    (host (Sample.after
                             ((@watchFile Sample.posix "/src/a.ts" 1 ;;
                               @watchDirectory Sample.posix "/src" 2 false ;;
                               @watchDirectory Sample.posix "/src" 3 true) Sample.start))))
          < 2) as Hfuel by (vm_compute; lia).
  destruct (Htotal (λ _ _, eq_refl) Hfuel) as (_ & Htold).
  destruct (Htold eq_refl) as (w' & Hw' & Htrace).
  exists w'. split; [exact Hw'|]. rewrite Htrace. vm_compute. reflexivity.
Defined.

(** X3.  Deleting twice notifies once.  After a [deleteFile] that returned, a
    second [deleteFile] of the same path asks the provider again and calls no
    callback at all, whatever the consumer did during the first. *)
Theorem delete_twice_notifies_once `{Platform} (mode : FileSystemMode)
    (react : Call → State → State) (fuel fuel' : nat) (path : string) (w w' : World) :
  deleteFile mode react fuel path w = Returned tt w' →
  deleteFile mode react fuel' path w'
  = Returned tt
      {| host := host w';
         trace := trace w' ++ [ProviderCall (getWriteFileSystem mode path) (DeleteFile path)] |}.
Proof.
  intros [Hperform Hmarked]%deleteFile_marks.
  rewrite (deleteFile_eq react mode fuel' path w' Hperform). cbv zeta.
  by rewrite Hmarked.
Qed.

Lemma delete_twice_notifies_once_witness :
  trace (Sample.after
           ((@watchFile Sample.posix "/src/a.ts" 1 ;;
             @deleteFile Sample.posix readonly observer 1 "/src/a.ts" ;;
             @deleteFile Sample.posix readonly observer 1 "/src/a.ts") Sample.start))
  = [ProviderCall passiveFileSystem (DeleteFile "/src/a.ts");
     Invoke (FileWatcherCall 1 "/src/a.ts" Deleted);
     ProviderCall passiveFileSystem (DeleteFile "/src/a.ts")].
Proof.
  assert (@deleteFile Sample.posix readonly observer 1 "/src/a.ts"
            (Sample.after (@watchFile Sample.posix "/src/a.ts" 1 Sample.start))
          = Returned tt
              (Sample.after
                 ((@watchFile Sample.posix "/src/a.ts" 1 ;;
                   @deleteFile Sample.posix readonly observer 1 "/src/a.ts") Sample.start)))
    as Hfirst by (vm_compute; reflexivity).
  pose proof (@delete_twice_notifies_once Sample.posix readonly observer 1 1 "/src/a.ts"
                _ _ Hfirst) as Hsecond.
  change (Sample.after
            ((@watchFile Sample.posix "/src/a.ts" 1 ;;
              @deleteFile Sample.posix readonly observer 1 "/src/a.ts" ;;
              @deleteFile Sample.posix readonly observer 1 "/src/a.ts") Sample.start))
    with (Sample.after
            (@deleteFile Sample.posix readonly observer 1 "/src/a.ts"
               (Sample.after
                  ((@watchFile Sample.posix "/src/a.ts" 1 ;;
                    @deleteFile Sample.posix readonly observer 1 "/src/a.ts")
                     Sample.start)))).
  rewrite Hsecond. reflexivity.
Defined.

(** X4.  A write after a delete is a creation.  After a [deleteFile] that
    returned, [writeFile] of the same path calls the file watchers registered
    on it with the event [Created], then tells the directory watchers and
    marks the path as not deleted. *)
Theorem write_after_delete_is_creation `{Platform} (mode : FileSystemMode)
    (react : Call → State → State) (fuel fuel' : nat) (path data : string) (w w' : World) :
  deleteFile mode react fuel path w = Returned tt w' →
  perform (getWriteFileSystem mode path) (WriteFile path data) = None →
  let cs := fileWatcherCalls (host w') path Created in
  writeFile mode react fuel' path data w'
  = (invokeDirectoryWatchers react fuel' (normalizePath path) ;;
     modify (λ st, withDeletedFiles (<[normalizePath path := false]> (deletedFiles st)) st))
      {| host := reactAll react cs (host w');
         trace := trace w' ++
                  ProviderCall (getWriteFileSystem mode path) (WriteFile path data)
                  :: (Invoke <$> cs) |}.
Proof.
  intros [_ Hmarked]%deleteFile_marks Hperform cs.
  rewrite (writeFile_eq react mode fuel' path data w' Hperform). cbv zeta.
  unfold fileNotifications, isCreation. rewrite Hmarked. reflexivity.
Qed.

Lemma write_after_delete_is_creation_witness :
  trace (Sample.after
           ((@watchFile Sample.posix "/src/a.ts" 1 ;;
             @deleteFile Sample.posix readonly observer 1 "/src/a.ts" ;;
             @writeFile Sample.posix readonly observer 1 "/src/a.ts" "x") Sample.start))
  = [ProviderCall passiveFileSystem (DeleteFile "/src/a.ts");
     Invoke (FileWatcherCall 1 "/src/a.ts" Deleted);
     ProviderCall passiveFileSystem (WriteFile "/src/a.ts" "x");
     Invoke (FileWatcherCall 1 "/src/a.ts" Created)].
Proof.
  assert (@deleteFile Sample.posix readonly observer 1 "/src/a.ts"
            (Sample.after (@watchFile Sample.posix "/src/a.ts" 1 Sample.start))
          = Returned tt
              (Sample.after
                 ((@watchFile Sample.posix "/src/a.ts" 1 ;;
                   @deleteFile Sample.posix readonly observer 1 "/src/a.ts") Sample.start)))
    as Hfirst by (vm_compute; reflexivity).
  pose proof (@write_after_delete_is_creation Sample.posix readonly observer 1 1
                "/src/a.ts" "x" _ _ Hfirst eq_refl) as Hwrite.
  cbv zeta in Hwrite.
  change (Sample.after
            ((@watchFile Sample.posix "/src/a.ts" 1 ;;
              @deleteFile Sample.posix readonly observer 1 "/src/a.ts" ;;
              @writeFile Sample.posix readonly observer 1 "/src/a.ts" "x") Sample.start))
    with (Sample.after
            (@writeFile Sample.posix readonly observer 1 "/src/a.ts" "x"
               (Sample.after
                  ((@watchFile Sample.posix "/src/a.ts" 1 ;;
                    @deleteFile Sample.posix readonly observer 1 "/src/a.ts")
                     Sample.start)))).
  rewrite Hwrite. reflexivity.
Defined.

(** ** Creating a directory and setting the modified time *)

Section TouchFacts.
Context `{platform : Platform}.
Variable react : Call → State → State.

Lemma framing_createDirectory {X : Type} (part : State → X) mode fuel path :
  (∀ c st, part (react c st) = part st) →
  framing part (createDirectory mode react fuel path).
Proof.
  intros Hreact. unfold createDirectory.
  apply framing_bind; [by apply framing_mutate|]. intros _.
  by apply framing_invokeDirectoryWatchers.
Qed.

Lemma framing_setModifiedTime {X : Type} (part : State → X) mode fuel path date :
  (∀ c st, part (react c st) = part st) →
  framing part (setModifiedTime mode react fuel path date).
Proof.
  intros Hreact. unfold setModifiedTime.
  apply framing_bind; [by apply framing_mutate|]. intros _.
  apply framing_bind; [by apply framing_invokeDirectoryWatchers|]. intros _.
  by apply framing_invokeFileWatchers.
Qed.

End TouchFacts.

(** X5.  [createDirectory] asks the routed provider and then runs the
    dispatch to the directory watchers for the path: when the path is not
    ignored, the watchers registered on its directory are called, followed
    by the recursive ones that watch it.  It calls no file watcher, and it
    does not write the tracker of deleted files. *)
Theorem create_directory_notifies `{Platform} (mode : FileSystemMode)
    (react : Call → State → State) (fuel : nat) (path : string) (w : World) :
  perform (getWriteFileSystem mode path) (CreateDir path) = None →
  let asked := ProviderCall (getWriteFileSystem mode path) (CreateDir path) in
  createDirectory mode react fuel path w
  = invokeDirectoryWatchers react fuel path
      {| host := host w; trace := trace w ++ [asked] |}
  ∧ (∀ w', createDirectory mode react fuel path w = Returned tt w' →
       (∃ ds, trace w' = trace w ++ asked :: (Invoke <$> ds)
            ∧ Forall (λ c, ∃ callback,
                        c = DirectoryWatcherCall callback (forwardSlash (normalizePath path)))
                ds)
       ∧ ((∀ c st, deletedFiles (react c st) = deletedFiles st) →
          deletedFiles (host w') = deletedFiles (host w)))
  ∧ ((∀ c st, recursiveDirectoryWatcherCallbacksMap (react c st)
              = recursiveDirectoryWatcherCallbacksMap st) →
     length (recursiveDirectoryWatcherCallbacksMap (host w)) < fuel →
     (∃ w', createDirectory mode react fuel path w = Returned tt w')
     ∧ (isIgnored (normalizePath path) = false →
        ∃ w', createDirectory mode react fuel path w = Returned tt w'
            ∧ trace w'
              = trace w ++
                asked ::
                (Invoke <$>
                   (((λ callback,
                        DirectoryWatcherCall callback (forwardSlash (normalizePath path)))
                       <$> default [] (JsMap.get (dirname (normalizePath path))
                                         (directoryWatcherCallbacksMap (host w))))
                    ++ fired (λ key, watchesDirectory key (dirname (normalizePath path)))
                         (forwardSlash (normalizePath path))
                         (JsMap.entries (recursiveDirectoryWatcherCallbacksMap (host w))))))).
Proof.
  intros Hperform asked.
  assert (createDirectory mode react fuel path w
          = invokeDirectoryWatchers react fuel path
              {| host := host w; trace := trace w ++ [asked] |}) as Hcreate.
  { unfold createDirectory. unfold mbind, Host_bind. by rewrite mutate_eq, Hperform. }
  split_and!.
  - exact Hcreate.
  - intros w' Hreturned. split.
    + rewrite Hcreate in Hreturned.
      pose proof (notifying_invokeDirectoryWatchers react fuel path
                    {| host := host w; trace := trace w ++ [asked] |}) as Hn.
      rewrite Hreturned in Hn. destruct Hn as (ds & Htrace & Hds).
      exists ds. split; [|done]. rewrite Htrace. simpl. by rewrite <- app_assoc.
    + intros Hreact.
      pose proof (framing_createDirectory react deletedFiles mode fuel path Hreact w) as Hf.
      by rewrite Hreturned in Hf.
  - intros Hframe Hfuel. split.
    + rewrite Hcreate. by apply invokeDirectoryWatchers_returns.
    + intros Hignored. rewrite Hcreate.
      destruct (invokeDirectoryWatchers_eq react fuel path
                  {| host := host w; trace := trace w ++ [asked] |}
                  Hframe Hignored Hfuel) as (w' & Hrun & Hsaid).
      exists w'. split; [exact Hrun|]. rewrite Hsaid. simpl. by rewrite <- app_assoc.
Qed.

(** [/src] is watched by [2] and, recursively, by [3]: creating
    [/src/lib] tells [2] and then [3]. *)
Lemma create_directory_notifies_witness :
  @perform Sample.posix passiveFileSystem (CreateDir "/src/lib") = None
  ∧ ∃ w',
      @createDirectory Sample.posix readonly observer 2 "/src/lib"
        (Sample.after
           ((@watchDirectory Sample.posix "/src" 2 false ;;
             @watchDirectory Sample.posix "/src" 3 true) Sample.start))
      = Returned tt w'
      ∧ trace w'
        = [ProviderCall passiveFileSystem (CreateDir "/src/lib");
           Invoke (DirectoryWatcherCall 2 "/src/lib");
           Invoke (DirectoryWatcherCall 3 "/src/lib")].
Proof.
  split; [reflexivity|].
  destruct (@create_directory_notifies Sample.posix readonly observer 2 "/src/lib"
              (Sample.after
                 ((@watchDirectory Sample.posix "/src" 2 false ;;
                   @watchDirectory Sample.posix "/src" 3 true) Sample.start))
              eq_refl) as (_ & _ & Htotal).
  assert (length (recursiveDirectoryWatcherCallbacksMap
                    (host (Sample.after
                             ((@watchDirectory Sample.posix "/src" 2 false ;;
                               @watchDirectory Sample.posix "/src" 3 true) Sample.start))))
          < 2) as Hfuel by (vm_compute; lia).
  destruct (Htotal (λ _ _, eq_refl) Hfuel) as (_ & Htold).
  destruct (Htold eq_refl) as (w' & Hw' & Htrace).
  exists w'. split; [exact Hw'|]. rewrite Htrace. vm_compute. reflexivity.
Defined.

(** X6.  [setModifiedTime] asks the routed provider, then tells the directory
    watchers of the path, then calls the file watchers registered on the
    path, always with the event [Changed]: the tracker of deleted files is
    neither asked nor written. *)
Theorem set_modified_time_notifies `{Platform} (mode : FileSystemMode)
    (react : Call → State → State) (fuel : nat) (path : string) (date : Date) (w : World) :
  perform (getWriteFileSystem mode path) (UpdateTimes path date date) = None →
  let asked := ProviderCall (getWriteFileSystem mode path) (UpdateTimes path date date) in
  (∀ w', setModifiedTime mode react fuel path date w = Returned tt w' →
     (∃ w1 ds,
        invokeDirectoryWatchers react fuel path
          {| host := host w; trace := trace w ++ [asked] |} = Returned tt w1
        ∧ trace w1 = trace w ++ asked :: (Invoke <$> ds)
        ∧ Forall (λ c, ∃ callback,
                    c = DirectoryWatcherCall callback (forwardSlash (normalizePath path)))
            ds
        ∧ w' = {| host := reactAll react (fileWatcherCalls (host w1) path Changed) (host w1);
                  trace := trace w1 ++ (Invoke <$> fileWatcherCalls (host w1) path Changed) |})
     ∧ ((∀ c st, deletedFiles (react c st) = deletedFiles st) →
        deletedFiles (host w') = deletedFiles (host w)))
  ∧ ((∀ c st, recursiveDirectoryWatcherCallbacksMap (react c st)
              = recursiveDirectoryWatcherCallbacksMap st) →
     length (recursiveDirectoryWatcherCallbacksMap (host w)) < fuel →
     ∃ w', setModifiedTime mode react fuel path date w = Returned tt w').
Proof.
  intros Hperform asked.
  assert (setModifiedTime mode react fuel path date w
          = (invokeDirectoryWatchers react fuel path ;;
             invokeFileWatchers react path Changed)
              {| host := host w; trace := trace w ++ [asked] |}) as Htouch.
  { unfold setModifiedTime. unfold mbind at 1, Host_bind at 1.
    by rewrite mutate_eq, Hperform. }
  split.
  - intros w' Hreturned. split.
    + rewrite Htouch in Hreturned.
      apply bind_Returned in Hreturned as ([] & w1 & Hdir & Hfile).
      pose proof (notifying_invokeDirectoryWatchers react fuel path
                    {| host := host w; trace := trace w ++ [asked] |}) as Hn.
      rewrite Hdir in Hn. destruct Hn as (ds & Htrace & Hds).
      rewrite invokeFileWatchers_eq in Hfile. injection Hfile as <-.
      exists w1, ds. split_and!; [done | | done | done].
      rewrite Htrace. simpl. by rewrite <- app_assoc.
    + intros Hreact.
      pose proof (framing_setModifiedTime react deletedFiles mode fuel path date Hreact w)
        as Hf.
      by rewrite Hreturned in Hf.
  - intros Hframe Hfuel. rewrite Htouch. unfold mbind, Host_bind.
    destruct (invokeDirectoryWatchers_returns react fuel path
                {| host := host w; trace := trace w ++ [asked] |} Hframe Hfuel)
      as (w1 & ->).
    rewrite invokeFileWatchers_eq. by eexists.
Qed.

(** [/src/a.ts] is watched by [1], deleted, and then touched: the directory
    watcher [2] is told first, the file watcher is told of a change, and the
    path stays marked as deleted. *)
Lemma set_modified_time_notifies_witness :
  @perform Sample.posix passiveFileSystem (UpdateTimes "/src/a.ts" 7%Z 7%Z) = None
  ∧ ∃ w',
      @setModifiedTime Sample.posix readonly observer 1 "/src/a.ts" 7%Z
        (Sample.after
           ((@watchFile Sample.posix "/src/a.ts" 1 ;;
             @watchDirectory Sample.posix "/src" 2 false ;;
             @invokeFileDeleted Sample.posix observer 1 "/src/a.ts") Sample.start))
      = Returned tt w'
      ∧ deletedFiles (host w') !! "/src/a.ts" = Some true.
Proof.
  split; [reflexivity|].
  destruct (@set_modified_time_notifies Sample.posix readonly observer 1 "/src/a.ts" 7%Z
              (Sample.after
                 ((@watchFile Sample.posix "/src/a.ts" 1 ;;
                   @watchDirectory Sample.posix "/src" 2 false ;;
                   @invokeFileDeleted Sample.posix observer 1 "/src/a.ts") Sample.start))
              eq_refl) as (Hsafe & Htotal).
  destruct (Htotal (λ _ _, eq_refl) ltac:(vm_compute; lia)) as (w' & Hw').
  exists w'. split; [exact Hw'|].
  destruct (Hsafe w' Hw') as (_ & Hkept).
  rewrite (Hkept (λ _ _, eq_refl)). reflexivity.
Defined.

(** ** The registries under registering and closing *)

Section TidyFacts.
Context `{platform : Platform}.

Lemma get_entries {V : Type} (key : string) (v : V) (m : JsMap.t V) :
  JsMap.get key m = Some v → (key, v) ∈ JsMap.entries m.
Proof.
  unfold JsMap.entries.
  induction m as [|[[k0 v0]|] m IH]; simpl; [done | | exact IH].
  destruct (decide (k0 = key)) as [->|Hk].
  - intros [= ->]. left.
  - intros Hget. right. by apply IH.
Qed.

Lemma tidyRegistry_intro (m : JsMap.t (list Callback)) :
  JsMap.wf m → Forall (λ entry, entry.2 ≠ []) (JsMap.entries m) → tidyRegistry m.
Proof.
  intros Hwf Hfull. split; [done|]. intros key Hget.
  apply get_entries in Hget. rewrite Forall_forall in Hfull. by apply Hfull in Hget.
Qed.

Lemma tidyRegistry_set key callbacks m :
  tidyRegistry m → callbacks ≠ [] → tidyRegistry (JsMap.set key callbacks m).
Proof.
  intros [Hwf Hfull] Hne. split; [by apply JsMapFacts.wf_set|].
  intros k. destruct (decide (key = k)) as [->|Hk].
  - rewrite JsMapFacts.get_set_eq. by intros [= ->].
  - rewrite JsMapFacts.get_set_ne by done. apply Hfull.
Qed.

Lemma tidyRegistry_delete key m : tidyRegistry m → tidyRegistry (JsMap.delete key m).
Proof.
  intros [Hwf Hfull]. split; [by apply JsMapFacts.wf_delete|].
  intros k. destruct (decide (key = k)) as [->|Hk].
  - by rewrite JsMapFacts.get_delete_eq.
  - rewrite JsMapFacts.get_delete_ne by done. apply Hfull.
Qed.

Lemma tidy_withRegistry which m st :
  tidy st → tidyRegistry m → tidy (withRegistry which m st).
Proof. intros Htidy Hm other. specialize (Htidy other). by destruct which, other. Qed.

Lemma tidy_createWatcher which path callback h w w' :
  tidy (host w) → createWatcher which path callback w = Returned h w' → tidy (host w').
Proof.
  intros Htidy. rewrite createWatcher_eq. intros [= _ <-]. simpl.
  apply tidy_withRegistry; [done|].
  apply tidyRegistry_set; [apply Htidy|]. by destruct (default [] _).
Qed.

Lemma tidy_close h w w' : tidy (host w) → close h w = Returned tt w' → tidy (host w').
Proof.
  intros Htidy. rewrite close_eq. intros [= <-]. simpl.
  apply tidy_withRegistry; [done|].
  destruct (decide _).
  - apply tidyRegistry_delete, Htidy.
  - apply tidyRegistry_set; [apply Htidy | done].
Qed.

Lemma tidy_registries st st' :
  (∀ which, registry which st' = registry which st) → tidy st → tidy st'.
Proof. intros Hsame Htidy which. rewrite Hsame. apply Htidy. Qed.

(** The registry a [watchDirectory] call writes, and what it writes there. *)
Lemma watchDirectory_registry path callback recursive h w w' :
  watchDirectory path callback recursive w = Returned h w' →
  let which := if recursive then RecursiveDirectoryWatchers else DirectoryWatchers in
  controlledWatcher h
  = {| watchersMap := which; watchedPath := normalizePath path;
       watcherCallback := callback |}
  ∧ trace w' = trace w
  ∧ registry which (host w')
    = JsMap.set (normalizePath path)
        (default [] (JsMap.get (normalizePath path) (registry which (host w)))
         ++ [callback])
        (registry which (host w))
  ∧ ∀ other, other ≠ which → registry other (host w') = registry other (host w).
Proof.
  unfold watchDirectory. run_host.
  destruct sysWatchDirectory, recursive; intros [= <- <-]; simpl;
    (split_and!; [done | done | done |]); by intros [].
Qed.

End TidyFacts.

(** X7.  The registries stay tidy.  At the start, and after every
    [watchFile], [watchDirectory] and [close] from a tidy state, each of the
    three registries holds no path twice and no path with an empty list of
    callbacks. *)
Theorem registries_stay_tidy `{Platform} (w : World) :
  tidy initialState
  ∧ (tidy (host w) →
     (∀ path callback h w',
        watchFile path callback w = Returned h w' → tidy (host w'))
     ∧ (∀ path callback recursive h w',
          watchDirectory path callback recursive w = Returned h w' → tidy (host w'))
     ∧ (∀ h w', close h w = Returned tt w' → tidy (host w'))
     ∧ (∀ h w', closeDirectoryWatcher h w = Returned tt w' → tidy (host w'))).
Proof.
  split.
  - intros which. split; [by destruct which; apply NoDup_nil_2 | by destruct which].
  - intros Htidy. split_and!.
    + intros path callback h w'. by apply tidy_createWatcher.
    + intros path callback recursive h w'. unfold watchDirectory. run_host.
      destruct sysWatchDirectory; simpl; intros [= _ <-]; simpl.
      * apply tidy_withRegistry.
        -- eapply tidy_registries; [|exact Htidy]. by intros [].
        -- apply tidyRegistry_set; [|by destruct (default [] _)].
           destruct recursive; [exact (Htidy RecursiveDirectoryWatchers)
                               | exact (Htidy DirectoryWatchers)].
      * apply tidy_withRegistry; [done|].
        apply tidyRegistry_set; [|by destruct (default [] _)].
        destruct recursive; [exact (Htidy RecursiveDirectoryWatchers)
                            | exact (Htidy DirectoryWatchers)].
    + intros h w'. by apply tidy_close.
    + intros [[index|] h] w'; unfold closeDirectoryWatcher; simpl.
      * unfold closeQueuedWatcher. run_host.
        destruct (queuedWatchers (host w) !! index) as [q|]; simpl.
        -- apply tidy_close. simpl. eapply tidy_registries; [|exact Htidy]. by intros [].
        -- by apply tidy_close.
      * run_host. by apply tidy_close.
Qed.

Lemma registries_stay_tidy_witness :
  tidy (host (Sample.after
                ((first ← @watchFile Sample.posix "/src/a.ts" 7;
                  @watchFile Sample.posix "/src/a.ts" 8 ;;
                  @watchDirectory Sample.posix "/src" 2 false ;;
                  @close Sample.posix first) Sample.start))).
Proof.
  assert (tidy (host (Sample.after
                        ((@watchFile Sample.posix "/src/a.ts" 7 ;;
                          @watchFile Sample.posix "/src/a.ts" 8 ;;
                          @watchDirectory Sample.posix "/src" 2 false) Sample.start))))
    as Hbefore.
  { intros which. apply tidyRegistry_intro.
    - unfold JsMap.wf. apply (bool_decide_unpack _). by destruct which; vm_compute.
    - apply (bool_decide_unpack _). by destruct which; vm_compute. }
  exact (proj1 (proj2 (proj2 (proj2 (@registries_stay_tidy Sample.posix _) Hbefore)))
           {| watchersMap := FileWatchers; watchedPath := "/src/a.ts"; watcherCallback := 7 |}
           _ eq_refl).
Defined.

(** X8.  Registering and then closing is a round trip.  In a tidy registry,
    for a callback that is not yet registered on the path, closing the
    watcher that [createWatcher] returned gives back every lookup of that
    registry, leaves the other two registries as they were, and calls
    nothing. *)
Theorem watch_then_close_restores `{Platform}
    (which : WatchersMap) (path : string) (callback : Callback)
    (h : Watcher) (w w1 w2 : World) :
  tidyRegistry (registry which (host w)) →
  callback ∉ default [] (JsMap.get (normalizePath path) (registry which (host w))) →
  createWatcher which path callback w = Returned h w1 →
  close h w1 = Returned tt w2 →
  (∀ key, JsMap.get key (registry which (host w2))
          = JsMap.get key (registry which (host w)))
  ∧ (∀ other, other ≠ which → registry other (host w2) = registry other (host w))
  ∧ trace w2 = trace w.
Proof.
  intros [Hwf Hfull] Hfresh. rewrite createWatcher_eq. intros [= <- <-].
  rewrite close_eq. simpl. intros [= <-]. simpl.
  rewrite !registry_withRegistry.
  assert (remaining
            {| watchersMap := which; watchedPath := normalizePath path;
               watcherCallback := callback |}
            (withRegistry which
               (JsMap.set (normalizePath path)
                  (default [] (JsMap.get (normalizePath path) (registry which (host w)))
                   ++ [callback])
                  (registry which (host w))) (host w))
          = default [] (JsMap.get (normalizePath path) (registry which (host w))))
    as ->.
  { unfold remaining. simpl. rewrite registry_withRegistry, JsMapFacts.get_set_eq. simpl.
    rewrite filter_app, filter_ne_notin by done.
    rewrite filter_cons_False, filter_nil by (intros Hne; by apply Hne).
    by rewrite app_nil_r. }
  split_and!; [| |done].
  - intros key.
    destruct (JsMap.get (normalizePath path) (registry which (host w)))
      as [callbacks|] eqn:Hget; simpl.
    + destruct (decide (callbacks = [])) as [->|Hsome];
        [by destruct (Hfull (normalizePath path))|].
      destruct (decide (normalizePath path = key)) as [<-|Hk].
      * by rewrite JsMapFacts.get_set_eq.
      * by rewrite !JsMapFacts.get_set_ne.
    + destruct (decide (normalizePath path = key)) as [<-|Hk].
      * rewrite JsMapFacts.get_delete_eq; [done | by apply JsMapFacts.wf_set].
      * by rewrite JsMapFacts.get_delete_ne, JsMapFacts.get_set_ne.
  - intros other Hother.
    by rewrite !registry_withRegistry_ne.
Qed.

(** [/src/a.ts] is watched by [7]; [8] registers on it and closes. *)
Lemma watch_then_close_restores_witness :
  JsMap.get "/src/a.ts"
    (fileWatcherCallbacksMap
       (host (Sample.after
                ((@watchFile Sample.posix "/src/a.ts" 7 ;;
                  h ← @watchFile Sample.posix "/src/a.ts" 8;
                  @close Sample.posix h) Sample.start))))
  = Some [7].
Proof.
  pose (w := Sample.after (@watchFile Sample.posix "/src/a.ts" 7 Sample.start)).
  assert (tidyRegistry (registry FileWatchers (host w))) as Htidy.
  { apply tidyRegistry_intro.
    - unfold JsMap.wf. apply (bool_decide_unpack _). by vm_compute.
    - apply (bool_decide_unpack _). by vm_compute. }
  assert (8 ∉ default [] (JsMap.get (@normalizePath Sample.posix "/src/a.ts")
                            (registry FileWatchers (host w)))) as Hfresh.
  { apply (bool_decide_unpack _). by vm_compute. }
  exact (proj1 (@watch_then_close_restores Sample.posix FileWatchers "/src/a.ts" 8
                  _ w _ _ Htidy Hfresh eq_refl eq_refl) "/src/a.ts").
Defined.

(** ** Who is told after registering and after closing *)

(** X9.  A file watcher is told from its registration on, after the watchers
    that were there before it.  After [watchFile path callback], the calls a
    file event on [watched] makes are the ones it made before, followed by
    one call of [callback] if [watched] has the normal form of [path]; the
    file watchers of every other path are told what they were told before. *)
Theorem registered_file_watcher_is_told `{Platform} (react : Call → State → State)
    (path watched : string) (callback : Callback) (event : FileWatcherEventKind)
    (h : Watcher) (w w1 : World) :
  watchFile path callback w = Returned h w1 →
  fileWatcherCalls (host w1) watched event
  = fileWatcherCalls (host w) watched event
    ++ (if decide (normalizePath watched = normalizePath path)
        then [FileWatcherCall callback (forwardSlash (normalizePath watched)) event]
        else [])
  ∧ ∃ w2, invokeFileWatchers react watched event w1 = Returned tt w2
        ∧ trace w2
          = trace w ++ (Invoke <$> fileWatcherCalls (host w1) watched event).
Proof.
  unfold watchFile. rewrite createWatcher_eq. intros [= _ <-]. split.
  - unfold fileWatcherCalls. simpl.
    destruct (decide (normalizePath watched = normalizePath path)) as [->|Hne].
    + rewrite JsMapFacts.get_set_eq. simpl. by rewrite fmap_app.
    + rewrite JsMapFacts.get_set_ne by done. by rewrite app_nil_r.
  - eexists. split; [apply invokeFileWatchers_eq|]. done.
Qed.

Lemma registered_file_watcher_is_told_witness :
  @fileWatcherCalls Sample.posix
    (host (Sample.after
             ((@watchFile Sample.posix "/src/a.ts" 7 ;;
               @watchFile Sample.posix "/src/a.ts" 8) Sample.start)))
    "/src/a.ts" Changed
  = [FileWatcherCall 7 "/src/a.ts" Changed; FileWatcherCall 8 "/src/a.ts" Changed].
Proof.
  exact (proj1 (@registered_file_watcher_is_told Sample.posix observer
                  "/src/a.ts" "/src/a.ts" 8 Changed _
                  (Sample.after (@watchFile Sample.posix "/src/a.ts" 7 Sample.start))
                  _ eq_refl)).
Defined.

(** X10.  A closed file watcher is not told any more.  After [close], a file
    event on the watcher's path calls the callbacks that remain, in their
    order, and the closed one is not among them; a file event on another
    path calls what it called before. *)
Theorem closed_file_watcher_is_silent `{Platform} (react : Call → State → State)
    (h : Watcher) (watched : string) (event : FileWatcherEventKind) (w w1 : World) :
  watchersMap h = FileWatchers →
  JsMap.wf (fileWatcherCallbacksMap (host w)) →
  close h w = Returned tt w1 →
  fileWatcherCalls (host w1) watched event
  = (if decide (normalizePath watched = watchedPath h)
     then (λ callback, FileWatcherCall callback (forwardSlash (normalizePath watched)) event)
            <$> remaining h (host w)
     else fileWatcherCalls (host w) watched event)
  ∧ (normalizePath watched = watchedPath h →
     ∀ fileName kind,
       FileWatcherCall (watcherCallback h) fileName kind
       ∉ fileWatcherCalls (host w1) watched event)
  ∧ ∃ w2, invokeFileWatchers react watched event w1 = Returned tt w2
        ∧ trace w2
          = trace w ++ (Invoke <$> fileWatcherCalls (host w1) watched event).
Proof.
  intros Hfile Hwf Hclose.
  assert (fileWatcherCalls (host w1) watched event
          = (if decide (normalizePath watched = watchedPath h)
             then (λ callback,
                     FileWatcherCall callback (forwardSlash (normalizePath watched)) event)
                    <$> remaining h (host w)
             else fileWatcherCalls (host w) watched event)) as Hcalls.
  { unfold fileWatcherCalls.
    change (fileWatcherCallbacksMap (host w1)) with (registry FileWatchers (host w1)).
    change (fileWatcherCallbacksMap (host w)) with (registry FileWatchers (host w)).
    rewrite <- Hfile.
    destruct (decide (normalizePath watched = watchedPath h)) as [->|Hne].
    - rewrite (get_after_close h w w1) by (by rewrite ?Hfile).
      by destruct (decide _) as [->|].
    - revert Hclose. rewrite close_eq. intros [= <-]. simpl.
      rewrite registry_withRegistry.
      destruct (decide _).
      + by rewrite JsMapFacts.get_delete_ne.
      + by rewrite JsMapFacts.get_set_ne. }
  split_and!.
  - exact Hcalls.
  - intros Hsame fileName kind. rewrite Hcalls, decide_True by done.
    intros (callback & [= <- _ _] & Hin)%list_elem_of_fmap.
    unfold remaining in Hin. by apply list_elem_of_filter in Hin as [Hne _].
  - eexists. split; [apply invokeFileWatchers_eq|].
    revert Hclose. rewrite close_eq. by intros [= <-].
Qed.

Lemma closed_file_watcher_is_silent_witness :
  @fileWatcherCalls Sample.posix
    (host (Sample.after
             ((first ← @watchFile Sample.posix "/src/a.ts" 7;
               @watchFile Sample.posix "/src/a.ts" 8 ;;
               @close Sample.posix first) Sample.start)))
    "/src/a.ts" Deleted
  = [FileWatcherCall 8 "/src/a.ts" Deleted].
Proof.
  pose (w := Sample.after ((@watchFile Sample.posix "/src/a.ts" 7 ;;
                            @watchFile Sample.posix "/src/a.ts" 8) Sample.start)).
  assert (JsMap.wf (fileWatcherCallbacksMap (host w))) as Hwf.
  { unfold JsMap.wf. apply (bool_decide_unpack _). by vm_compute. }
  exact (proj1 (@closed_file_watcher_is_silent Sample.posix observer
                  {| watchersMap := FileWatchers; watchedPath := "/src/a.ts";
                     watcherCallback := 7 |}
                  "/src/a.ts" Deleted w _ eq_refl Hwf eq_refl)).
Defined.

(** X11.  A directory watcher is told from its registration on.  After
    [watchDirectory path callback recursive], a change of a path that is not
    ignored calls [callback] with the forward-slashed normal form of that
    path: for a watcher that is not recursive when the path lies in the
    watched directory itself, for a recursive one when the directory of the
    path passes the test of [invokeDirectoryWatchers] against the watched
    one.  The registration itself calls nothing. *)
Theorem registered_directory_watcher_is_told `{Platform} (react : Call → State → State)
    (fuel : nat) (path changed : string) (callback : Callback) (recursive : bool)
    (h : DirectoryWatcher) (w w1 : World) :
  watchDirectory path callback recursive w = Returned h w1 →
  (∀ c st, recursiveDirectoryWatcherCallbacksMap (react c st)
           = recursiveDirectoryWatcherCallbacksMap st) →
  isIgnored (normalizePath changed) = false →
  length (recursiveDirectoryWatcherCallbacksMap (host w1)) < fuel →
  (if recursive
   then watchesDirectory (normalizePath path) (dirname (normalizePath changed)) = true
   else dirname (normalizePath changed) = normalizePath path) →
  trace w1 = trace w
  ∧ ∃ w2 told,
      invokeDirectoryWatchers react fuel changed w1 = Returned tt w2
      ∧ trace w2 = trace w ++ (Invoke <$> told)
      ∧ DirectoryWatcherCall callback (forwardSlash (normalizePath changed)) ∈ told.
Proof.
  intros Hwatch Hframe Hignored Hfuel Hwatched.
  destruct (watchDirectory_registry _ _ _ _ _ _ Hwatch) as (_ & Htrace & Hregistry & _).
  split; [exact Htrace|].
  destruct (invokeDirectoryWatchers_eq react fuel changed w1 Hframe Hignored Hfuel)
    as (w2 & Hrun & Hsaid).
  eexists w2, _. split; [exact Hrun|]. rewrite <- Htrace. split; [exact Hsaid|].
  apply elem_of_app. destruct recursive.
  - right. apply elem_of_fired. eexists (normalizePath path), _.
    split_and!; [|apply elem_of_app; right; left | exact Hwatched].
    apply get_entries.
    change (recursiveDirectoryWatcherCallbacksMap (host w1))
      with (registry RecursiveDirectoryWatchers (host w1)).
    rewrite Hregistry. apply JsMapFacts.get_set_eq.
  - left. apply list_elem_of_fmap. exists callback. split; [done|].
    change (directoryWatcherCallbacksMap (host w1))
      with (registry DirectoryWatchers (host w1)).
    rewrite Hregistry, Hwatched, JsMapFacts.get_set_eq. simpl.
    apply elem_of_app. right. left.
Qed.

(** [/src] is watched recursively by [3]: it is told of [/src/lib/b.ts]. *)
Lemma registered_directory_watcher_is_told_witness :
  ∃ w2 told,
    @invokeDirectoryWatchers Sample.posix observer 2 "/src/lib/b.ts"
      (Sample.after (@watchDirectory Sample.posix "/src" 3 true Sample.start))
    = Returned tt w2
    ∧ trace w2 = [] ++ (Invoke <$> told)
    ∧ DirectoryWatcherCall 3 "/src/lib/b.ts" ∈ told.
Proof.
  assert (length (recursiveDirectoryWatcherCallbacksMap
                    (host (Sample.after
                             (@watchDirectory Sample.posix "/src" 3 true Sample.start))))
          < 2) as Hfuel by (vm_compute; lia).
  exact (proj2 (@registered_directory_watcher_is_told Sample.posix observer 2
                  "/src" "/src/lib/b.ts" 3 true _ Sample.start _ eq_refl
                  (λ _ _, eq_refl) eq_refl Hfuel eq_refl)).
Defined.

(** ** What the native watchers report *)

Section QueueFacts.
Context `{platform : Platform}.

Lemma elem_of_values {T : Type} (x : T) (s : JsSet.t T) : x ∈ JsSet.values s ↔ Some x ∈ s.
Proof.
  unfold JsSet.values. rewrite list_elem_of_omap. split.
  - intros (y & Hin & Hy). unfold id in Hy. by subst.
  - intros Hin. by exists (Some x).
Qed.

Lemma filter_all {T : Type} (P : T → Prop) `{∀ x, Decision (P x)} (l : list T) :
  (∀ x, x ∈ l → P x) → filter P l = l.
Proof.
  induction l as [|x l IH]; intros Hall; [done|].
  rewrite filter_cons_True by (apply Hall; left).
  f_equal. apply IH. intros y Hy. apply Hall. by right.
Qed.

Lemma values_add_fresh `{EqDecision T} (x : T) (s : JsSet.t T) :
  x ∉ JsSet.values s → JsSet.values (JsSet.add x s) = JsSet.values s ++ [x].
Proof.
  intros Hfresh. unfold JsSet.add, JsSet.has.
  rewrite bool_decide_false by (by rewrite <- elem_of_values).
  unfold JsSet.values. by rewrite omap_app.
Qed.

Lemma values_delete `{EqDecision T} (x : T) (s : JsSet.t T) :
  NoDup (JsSet.values s) →
  JsSet.values (JsSet.delete x s) = filter (λ y, y ≠ x) (JsSet.values s).
Proof.
  unfold JsSet.values. induction s as [|[y|] s IH]; simpl; [done | | exact IH].
  intros [Hy Hnd]%NoDup_cons. destruct (decide (y = x)) as [->|Hne]; simpl.
  - rewrite filter_cons_False by (intros Hne; by apply Hne).
    symmetry. apply filter_all. intros z Hz ->. done.
  - rewrite filter_cons_True by done. f_equal. by apply IH.
Qed.

Lemma values_delete_all `{EqDecision T} (own : list T) (s : JsSet.t T) :
  NoDup (JsSet.values s) →
  JsSet.values (foldl (λ set x, JsSet.delete x set) s own)
  = filter (λ y, y ∉ own) (JsSet.values s).
Proof.
  revert s. induction own as [|x own IH]; intros s Hnd; simpl.
  - symmetry. apply filter_all. intros y _. apply not_elem_of_nil.
  - rewrite IH by (rewrite values_delete by done; by apply NoDup_filter).
    rewrite values_delete by done. rewrite list_filter_filter.
    apply list_filter_iff. intros y. rewrite not_elem_of_cons. tauto.
Qed.

(** What [watchDirectory] leaves when it subscribed to the native watcher. *)
Lemma watchDirectory_subscribed path callback recursive h index w w' :
  watchDirectory path callback recursive w = Returned h w' →
  queuedWatcher h = Some index →
  index = length (queuedWatchers (host w))
  ∧ queuedWatchers (host w')
    = queuedWatchers (host w)
      ++ [{| wrapped := callback; queuedCallbacks := []; sysWatcherClosed := false |}]
  ∧ queuedWatcherCallbacksSet (host w') = queuedWatcherCallbacksSet (host w)
  ∧ nextScopedId (host w') = nextScopedId (host w).
Proof.
  unfold watchDirectory. run_host.
  destruct sysWatchDirectory; intros [= <- <-]; simpl; [|done].
  intros [= <-]. by destruct recursive.
Qed.

(** The closure a report adds to the set, when nothing with its identity is
    there yet. *)
Lemma queueDirectoryChange_eq index fileName q w :
  queuedWatchers (host w) !! index = Some q →
  queueDirectoryChange index fileName w
  = Returned tt
      {| host :=
           withNextScopedId (S (nextScopedId (host w)))
             (withQueuedWatchers
                (<[index := {| wrapped := wrapped q;
                               queuedCallbacks :=
                                 queuedCallbacks q
                                 ++ [{| scopedId := nextScopedId (host w);
                                        scopedCallee := wrapped q;
                                        scopedFileName := fileName |}];
                               sysWatcherClosed := sysWatcherClosed q |}]>
                   (queuedWatchers (host w)))
                (withQueuedWatcherCallbacksSet
                   (JsSet.add {| scopedId := nextScopedId (host w);
                                 scopedCallee := wrapped q;
                                 scopedFileName := fileName |}
                      (queuedWatcherCallbacksSet (host w)))
                   (host w)));
         trace := trace w |}.
Proof. intros Hq. unfold queueDirectoryChange. run_host. by rewrite Hq. Qed.

Lemma fresh_scopedId st callee fileName :
  queueSound st →
  {| scopedId := nextScopedId st; scopedCallee := callee; scopedFileName := fileName |}
  ∉ JsSet.values (queuedWatcherCallbacksSet st).
Proof. intros [_ Hbelow] Hin. apply Hbelow in Hin. simpl in Hin. lia. Qed.

Lemma queueSound_same st st' :
  queuedWatcherCallbacksSet st' = queuedWatcherCallbacksSet st →
  nextScopedId st' = nextScopedId st →
  queueSound st → queueSound st'.
Proof. unfold queueSound. by intros -> ->. Qed.

Lemma queueSound_deleted st own :
  queueSound st →
  queueSound (withQueuedWatcherCallbacksSet
                (foldl (λ set x, JsSet.delete x set) (queuedWatcherCallbacksSet st) own) st).
Proof.
  intros [Hnd Hbelow]. unfold queueSound. simpl. rewrite values_delete_all by done. split.
  - by apply NoDup_filter.
  - intros callback [_ Hin]%list_elem_of_filter. by apply Hbelow.
Qed.

Section Flush.
Variable react : Call → State → State.

(** The flush under a consumer that leaves the set alone. *)
Lemma invokeQueuedChanged_frame fuel w :
  (∀ c st, queuedWatcherCallbacksSet (react c st) = queuedWatcherCallbacksSet st) →
  length (queuedWatcherCallbacksSet (host w)) < fuel →
  ∃ w', invokeQueuedChanged react fuel w = Returned tt w'
      ∧ trace w'
        = trace w
          ++ (Invoke <$> (scopedCall <$> JsSet.values (queuedWatcherCallbacksSet (host w)))).
Proof.
  intros Hframe Hfuel.
  destruct (forEachLive_frame queuedWatcherCallbacksSet
              (λ callback, invoke react (scopedCall callback))
              (λ callback, [scopedCall callback])) with (fuel := fuel) (index := 0) (w := w)
    as (w1 & Hlive & Hsame & Htrace).
  { intros e w0. eexists. split; [apply invoke_eq|]. split; [apply Hframe | done]. }
  { lia. }
  unfold invokeQueuedChanged. unfold mbind, Host_bind.
  change (forEachLive fuel queuedWatcherCallbacksSet
            (λ callback, invoke react (scopedCall callback)) 0 w = Returned tt w1) in Hlive.
  unfold scopedCall in Hlive. rewrite Hlive.
  eexists. split; [reflexivity|]. simpl.
  rewrite Htrace, drop_0. by do 2 f_equal.
Qed.

End Flush.
End QueueFacts.

(** X12.  The set of queued closures stays sound.  At the start, and after
    every report of a native watcher, every [watchDirectory], every close of
    a directory watcher and every flush, no closure is in the set twice and
    every closure in it has an identity that was handed out before: the next
    report makes a closure that is not in the set. *)
Theorem queue_stays_sound `{Platform} (w : World) :
  queueSound initialState
  ∧ (queueSound (host w) →
     (∀ index fileName w',
        queueDirectoryChange index fileName w = Returned tt w' → queueSound (host w'))
     ∧ (∀ path callback recursive h w',
          watchDirectory path callback recursive w = Returned h w' → queueSound (host w'))
     ∧ (∀ h w', closeDirectoryWatcher h w = Returned tt w' → queueSound (host w'))
     ∧ (∀ callee fileName,
          {| scopedId := nextScopedId (host w); scopedCallee := callee;
             scopedFileName := fileName |}
          ∉ JsSet.values (queuedWatcherCallbacksSet (host w))))
  ∧ (∀ react fuel w',
       invokeQueuedChanged react fuel w = Returned tt w' → queueSound (host w')).
Proof.
  split_and!.
  - split; [apply NoDup_nil_2 | by intros callback ?%elem_of_nil].
  - intros Hsound. split_and!.
    + intros index fileName w'.
      destruct (queuedWatchers (host w) !! index) as [q|] eqn:Hq.
      * rewrite (queueDirectoryChange_eq index fileName q w Hq). intros [= <-].
        pose proof (fresh_scopedId (host w) (wrapped q) fileName Hsound) as Hfresh.
        destruct Hsound as [Hnd Hbelow].
        unfold queueSound. simpl. rewrite values_add_fresh by done. split.
        -- apply NoDup_app. split_and!; [done | | apply NoDup_singleton].
           intros callback Hin ->%list_elem_of_singleton. done.
        -- intros callback [Hin| ->%list_elem_of_singleton]%elem_of_app.
           ++ apply Hbelow in Hin. lia.
           ++ simpl. lia.
      * unfold queueDirectoryChange. run_host. rewrite Hq. simpl. by intros [= <-].
    + intros path callback recursive h w'. unfold watchDirectory. run_host.
      destruct sysWatchDirectory; simpl; intros [= _ <-]; simpl;
        (eapply queueSound_same; [| |exact Hsound]); by destruct recursive.
    + intros [[index|] h] w'; unfold closeDirectoryWatcher; simpl.
      * unfold closeQueuedWatcher. run_host.
        destruct (queuedWatchers (host w) !! index) as [q|]; simpl.
        -- rewrite close_eq. intros [= <-]. simpl.
           eapply queueSound_same;
             [| |exact (queueSound_deleted (host w) (queuedCallbacks q) Hsound)];
             by destruct (watchersMap h).
        -- rewrite close_eq. intros [= <-]. simpl.
           eapply queueSound_same; [| |exact Hsound]; by destruct (watchersMap h).
      * run_host. rewrite close_eq. intros [= <-]. simpl.
        eapply queueSound_same; [| |exact Hsound]; by destruct (watchersMap h).
    + intros callee fileName. by apply fresh_scopedId.
  - intros react fuel w' (w1 & _ & ->)%invokeQueuedChanged_Returned.
    unfold queueSound. simpl. rewrite values_clear.
    split; [apply NoDup_nil_2 | by intros callback ?%elem_of_nil].
Qed.

(** [/src] is watched by [1]; the native watcher reports twice. *)
Lemma queue_stays_sound_witness :
  queueSound
    (host (Sample.after
             ((@watchDirectory Sample.posix "/src" 1 false ;;
               @queueDirectoryChange Sample.posix 0 "/src/a.ts" ;;
               @queueDirectoryChange Sample.posix 0 "/src/a.ts") Sample.start))).
Proof.
  assert (queueSound
            (host (Sample.after
                     ((@watchDirectory Sample.posix "/src" 1 false ;;
                       @queueDirectoryChange Sample.posix 0 "/src/a.ts") Sample.start))))
    as Hbefore.
  { split.
    - apply (bool_decide_unpack _). by vm_compute.
    - intros callback Hin. vm_compute in Hin.
      apply list_elem_of_singleton in Hin as ->. vm_compute. lia. }
  exact (proj1 (proj1 (proj2 (@queue_stays_sound Sample.posix _)) Hbefore)
           0 "/src/a.ts" _ eq_refl).
Defined.

(** X13.  What the native watcher reports waits for the flush.  A report to
    a directory watcher calls nothing and leaves the registries as they
    are: it adds one closure to the end of the queue.  The next flush, under
    a consumer that leaves the queue alone, calls what was queued before
    and then the watcher's callback with the reported name. *)
Theorem native_change_waits_for_flush `{Platform} (react : Call → State → State)
    (fuel : nat) (path fileName : string) (callback : Callback) (recursive : bool)
    (h : DirectoryWatcher) (index : nat) (w w1 w2 : World) :
  queueSound (host w) →
  watchDirectory path callback recursive w = Returned h w1 →
  queuedWatcher h = Some index →
  queueDirectoryChange index fileName w1 = Returned tt w2 →
  trace w2 = trace w
  ∧ (∀ which, registry which (host w2) = registry which (host w1))
  ∧ (∃ queuedCallback,
       JsSet.values (queuedWatcherCallbacksSet (host w2))
       = JsSet.values (queuedWatcherCallbacksSet (host w)) ++ [queuedCallback]
       ∧ scopedCall queuedCallback = DirectoryWatcherCall callback fileName)
  ∧ ((∀ c st, queuedWatcherCallbacksSet (react c st) = queuedWatcherCallbacksSet st) →
     length (queuedWatcherCallbacksSet (host w2)) < fuel →
     ∃ w3, invokeQueuedChanged react fuel w2 = Returned tt w3
         ∧ trace w3
           = trace w
             ++ (Invoke <$> (scopedCall
                               <$> JsSet.values (queuedWatcherCallbacksSet (host w))))
             ++ [Invoke (DirectoryWatcherCall callback fileName)]).
Proof.
  intros Hsound Hwatch Hindex.
  destruct (watchDirectory_subscribed _ _ _ _ _ _ _ Hwatch Hindex)
    as (-> & Hwatchers & Hset & Hnext).
  destruct (watchDirectory_registry _ _ _ _ _ _ Hwatch) as (_ & Htrace & _).
  assert (queuedWatchers (host w1) !! length (queuedWatchers (host w))
          = Some {| wrapped := callback; queuedCallbacks := [];
                    sysWatcherClosed := false |}) as Hq.
  { rewrite Hwatchers. apply list_lookup_middle. done. }
  rewrite (queueDirectoryChange_eq _ fileName _ w1 Hq). intros [= Hw2].
  assert (JsSet.values (queuedWatcherCallbacksSet (host w2))
          = JsSet.values (queuedWatcherCallbacksSet (host w))
            ++ [{| scopedId := nextScopedId (host w1); scopedCallee := callback;
                   scopedFileName := fileName |}]) as Hvalues.
  { rewrite <- Hw2. simpl. rewrite Hset, Hnext. apply values_add_fresh.
    by apply fresh_scopedId. }
  split_and!.
  - by rewrite <- Hw2.
  - rewrite <- Hw2. by intros [].
  - eexists. split; [exact Hvalues | done].
  - intros Hframe Hfuel.
    destruct (invokeQueuedChanged_frame react fuel w2 Hframe Hfuel) as (w3 & Hflush & Hsaid).
    exists w3. split; [exact Hflush|].
    rewrite Hsaid, Hvalues, !fmap_app. rewrite <- Hw2. simpl. by rewrite Htrace.
Qed.

(** [/src] is watched by [1]; one report, and the flush. *)
Lemma native_change_waits_for_flush_witness :
  ∃ w3,
    @invokeQueuedChanged Sample.posix observer 2
      (Sample.after
         ((@watchDirectory Sample.posix "/src" 1 false ;;
           @queueDirectoryChange Sample.posix 0 "/src/a.ts") Sample.start))
    = Returned tt w3
    ∧ trace w3 = [] ++ [] ++ [Invoke (DirectoryWatcherCall 1 "/src/a.ts")].
Proof.
  assert (queueSound (host Sample.start)) as Hsound.
  { split; [apply NoDup_nil_2 | by intros callback ?%elem_of_nil]. }
  assert (length (queuedWatcherCallbacksSet
                    (host (Sample.after
                             ((@watchDirectory Sample.posix "/src" 1 false ;;
                               @queueDirectoryChange Sample.posix 0 "/src/a.ts")
                                Sample.start))))
          < 2) as Hfuel by (vm_compute; lia).
  exact (proj2 (proj2 (proj2
           (@native_change_waits_for_flush Sample.posix observer 2 "/src" "/src/a.ts" 1
              false _ 0 Sample.start _ _ Hsound eq_refl eq_refl eq_refl)))
           (λ _ _, eq_refl) Hfuel).
Defined.

(** X14.  A closed directory watcher drops what was reported to it.  Its
    [close] takes out of the queue the closures that were queued for it and
    leaves the others in their order, so that the next flush, under a
    consumer that leaves the queue alone, calls those others and none of
    the closed watcher's. *)
Theorem closed_directory_watcher_drops_its_changes `{Platform}
    (react : Call → State → State) (fuel : nat) (h : DirectoryWatcher) (w w1 : World) :
  queueSound (host w) →
  closeDirectoryWatcher h w = Returned tt w1 →
  JsSet.values (queuedWatcherCallbacksSet (host w1))
  = filter (λ queuedCallback, queuedCallback ∉ ownQueuedCallbacks h (host w))
      (JsSet.values (queuedWatcherCallbacksSet (host w)))
  ∧ trace w1 = trace w
  ∧ ((∀ c st, queuedWatcherCallbacksSet (react c st) = queuedWatcherCallbacksSet st) →
     length (queuedWatcherCallbacksSet (host w1)) < fuel →
     ∃ w2, invokeQueuedChanged react fuel w1 = Returned tt w2
         ∧ trace w2
           = trace w
             ++ (Invoke
                   <$> (scopedCall
                          <$> filter (λ queuedCallback,
                                        queuedCallback ∉ ownQueuedCallbacks h (host w))
                                (JsSet.values (queuedWatcherCallbacksSet (host w)))))).
Proof.
  intros [Hnd Hbelow] Hclose.
  assert (JsSet.values (queuedWatcherCallbacksSet (host w1))
          = filter (λ queuedCallback, queuedCallback ∉ ownQueuedCallbacks h (host w))
              (JsSet.values (queuedWatcherCallbacksSet (host w)))
          ∧ trace w1 = trace w) as [Hvalues Htrace].
  { revert Hclose. destruct h as [[index|] h]; unfold closeDirectoryWatcher, ownQueuedCallbacks;
      simpl.
    - unfold closeQueuedWatcher. run_host.
      destruct (queuedWatchers (host w) !! index) as [q|]; simpl;
        rewrite close_eq; intros [= <-]; simpl.
      + split; [|done].
        replace (queuedWatcherCallbacksSet (withRegistry (watchersMap h) _ _))
          with (foldl (λ set x, JsSet.delete x set) (queuedWatcherCallbacksSet (host w))
                  (queuedCallbacks q)) by (by destruct (watchersMap h)).
        by apply values_delete_all.
      + split; [|done].
        replace (queuedWatcherCallbacksSet (withRegistry (watchersMap h) _ _))
          with (queuedWatcherCallbacksSet (host w)) by (by destruct (watchersMap h)).
        symmetry. apply filter_all. intros y _. apply not_elem_of_nil.
    - run_host. rewrite close_eq. intros [= <-]. simpl. split; [|done].
      replace (queuedWatcherCallbacksSet (withRegistry (watchersMap h) _ _))
        with (queuedWatcherCallbacksSet (host w)) by (by destruct (watchersMap h)).
      symmetry. apply filter_all. intros y _. apply not_elem_of_nil. }
  split_and!; [done | done |].
  intros Hframe Hfuel.
  destruct (invokeQueuedChanged_frame react fuel w1 Hframe Hfuel) as (w2 & Hflush & Hsaid).
  exists w2. split; [exact Hflush|]. by rewrite Hsaid, Hvalues, Htrace.
Qed.

(** [/src] is watched by [1] and by [2]; a report to each; [1] closes. *)
Lemma closed_directory_watcher_drops_its_changes_witness :
  JsSet.values
    (queuedWatcherCallbacksSet
       (host (Sample.after
                ((first ← @watchDirectory Sample.posix "/src" 1 false;
                  @watchDirectory Sample.posix "/src" 2 false ;;
                  @queueDirectoryChange Sample.posix 0 "/src/a.ts" ;;
                  @queueDirectoryChange Sample.posix 1 "/src/b.ts" ;;
                  @closeDirectoryWatcher Sample.posix first) Sample.start))))
  = [{| scopedId := 1; scopedCallee := 2; scopedFileName := "/src/b.ts" |}].
Proof.
  pose (h := {| queuedWatcher := Some 0;
                controlledWatcher :=
                  {| watchersMap := DirectoryWatchers; watchedPath := "/src";
                     watcherCallback := 1 |} |}).
  pose (w := Sample.after
               ((@watchDirectory Sample.posix "/src" 1 false ;;
                 @watchDirectory Sample.posix "/src" 2 false ;;
                 @queueDirectoryChange Sample.posix 0 "/src/a.ts" ;;
                 @queueDirectoryChange Sample.posix 1 "/src/b.ts") Sample.start)).
  assert (queueSound (host w)) as Hsound.
  { split.
    - apply (bool_decide_unpack _). by vm_compute.
    - intros callback Hin. vm_compute in Hin.
      repeat (apply elem_of_cons in Hin as [->|Hin]; [vm_compute; lia|]).
      by apply elem_of_nil in Hin. }
  assert (@closeDirectoryWatcher Sample.posix h w
          = Returned tt (Sample.after (@closeDirectoryWatcher Sample.posix h w)))
    as Hclose by (vm_compute; reflexivity).
  pose proof (proj1 (@closed_directory_watcher_drops_its_changes Sample.posix observer 0
                       h w _ Hsound Hclose)) as Hdropped.
  vm_compute in Hdropped. vm_compute. exact Hdropped.
Defined.

(** ** Timers between scheduling and starting *)

Module TimerOrder.

Lemma startedIds_app (a b : list TimerEvent) :
  startedIds (a ++ b) = startedIds a ++ startedIds b.
Proof. unfold startedIds. apply omap_app. Qed.

Lemma ids_clearImmediate (immediateId : nat) (queue : list (nat * Immediate)) :
  (filter (λ entry : nat * Immediate, entry.1 ≠ immediateId) queue).*1
  = filter (λ x, x ≠ immediateId) queue.*1.
Proof.
  induction queue as [|[i f] queue IH]; [done|].
  rewrite fmap_cons, !filter_cons. simpl.
  destruct (decide (i ≠ immediateId)); [rewrite fmap_cons; simpl; f_equal|]; exact IH.
Qed.

Lemma pending_is_positive (timeoutId : nat) (pending : gset nat) :
  timeoutId ∈ pending → (0 <? size pending)%nat = true.
Proof.
  intros Hin. apply Nat.ltb_lt.
  destruct (decide (size pending = 0)) as [Hzero|]; [|lia].
  apply size_empty_iff in Hzero. set_solver.
Qed.

(** A change that leaves the queue of the event loop, its numbering and the
    started timers alone, and starts nothing. *)
Lemma startsOnce_quiet (rt rt' : Runtime) :
  immediateQueue rt' = immediateQueue rt →
  nextImmediateId rt' = nextImmediateId rt →
  startedIds (timeline rt') = startedIds (timeline rt) →
  (∀ timeoutId, running rt' = Some timeoutId → running rt = Some timeoutId) →
  startsOnce rt → startsOnce rt'.
Proof.
  intros Hq Hn Hs Hr (Hnd & Hlt & Hsnd & Hgone & Hrun).
  unfold startsOnce, gone in *. rewrite Hq, Hn, Hs. split_and!; eauto.
Qed.

Lemma startsOnce_setImmediate (f : Immediate) (rt : Runtime) :
  startsOnce rt → startsOnce (setImmediate f rt).1.
Proof.
  intros (Hnd & Hlt & Hsnd & Hgone & Hrun). unfold startsOnce, gone in *. simpl.
  rewrite fmap_app. simpl. split_and!.
  - apply NoDup_app. split_and!; [done | | apply NoDup_singleton].
    intros immediateId Hin ->%list_elem_of_singleton. apply Hlt in Hin. lia.
  - intros immediateId [Hin| ->%list_elem_of_singleton]%elem_of_app;
      [apply Hlt in Hin|]; lia.
  - done.
  - intros timeoutId Hin. destruct (Hgone timeoutId Hin) as [Hbelow Hnot].
    split; [lia|]. rewrite not_elem_of_app. split; [done|].
    rewrite list_elem_of_singleton. lia.
  - done.
Qed.

Lemma startsOnce_clearImmediate (immediateId : nat) (rt : Runtime) :
  startsOnce rt → startsOnce (clearImmediate immediateId rt).
Proof.
  intros (Hnd & Hlt & Hsnd & Hgone & Hrun). unfold startsOnce, gone in *.
  assert ((immediateQueue (clearImmediate immediateId rt)).*1
          = filter (λ x, x ≠ immediateId) (immediateQueue rt).*1) as ->
    by apply ids_clearImmediate.
  split_and!.
  - by apply NoDup_filter.
  - intros i [_ Hin]%list_elem_of_filter. by apply Hlt.
  - done.
  - intros timeoutId Hin. destruct (Hgone timeoutId Hin) as [Hbelow Hnot].
    split; [done|]. by intros [_ ?]%list_elem_of_filter.
  - done.
Qed.

Lemma startsOnce_waitTurn (waiter : nat) (rt : Runtime) :
  startsOnce rt → startsOnce (waitTurn waiter rt).
Proof.
  intros Honce. unfold waitTurn.
  destruct (0 <? size (timeoutCallbacks (sys rt)))%nat.
  - eapply startsOnce_quiet; [..|exact (startsOnce_setImmediate (ResolveImmediate waiter) rt Honce)];
      done.
  - eapply startsOnce_quiet; [..|exact Honce]; try done.
    simpl. rewrite startedIds_app. simpl. by rewrite app_nil_r.
Qed.

Lemma startsOnce_initial : startsOnce initialRuntime.
Proof.
  unfold startsOnce, gone. simpl. split_and!;
    [apply NoDup_nil_2 | by intros i ?%elem_of_nil | apply NoDup_nil_2
    | by intros i ?%elem_of_nil | done].
Qed.

Lemma startsOnce_step (s : Step) (rt rt' : Runtime) :
  startsOnce rt → step s rt = Some rt' → startsOnce rt'.
Proof.
  intros Honce Hstep.
  destruct s as [callback|timeoutId| | | | |waiter]; simpl in Hstep.
  - injection Hstep as <-.
    eapply startsOnce_quiet;
      [..|exact (startsOnce_setImmediate (TimeoutImmediate callback) rt Honce)]; try done.
    simpl. rewrite startedIds_app. simpl. by rewrite app_nil_r.
  - injection Hstep as <-.
    eapply startsOnce_quiet; [..|exact (startsOnce_clearImmediate timeoutId rt Honce)];
      try done.
    simpl. rewrite startedIds_app. simpl. by rewrite app_nil_r.
  - injection Hstep as <-. unfold waitForQueued. simpl.
    apply startsOnce_waitTurn. by eapply startsOnce_quiet; [..|exact Honce].
  - destruct Honce as (Hnd & Hlt & Hsnd & Hgone & Hrun). unfold gone in Hgone.
    destruct (running rt) as [r|] eqn:Hrunning; [done|].
    destruct (immediateQueue rt) as [|[timeoutId [callback|waiter]] rest] eqn:Hqueue;
      [done| |]; injection Hstep as <-; unfold startsOnce, gone in *; simpl in *;
      apply NoDup_cons in Hnd as [Hhead Hrest].
    + rewrite startedIds_app. simpl. split_and!.
      * done.
      * intros i Hin. apply Hlt. by right.
      * apply NoDup_app. split_and!; [done | | apply NoDup_singleton].
        intros i Hin ->%list_elem_of_singleton.
        destruct (Hgone _ Hin) as [_ Hnot]. apply Hnot. left.
      * intros i [Hin| ->%list_elem_of_singleton]%elem_of_app.
        -- destruct (Hgone _ Hin) as [Hbelow Hnot]. split; [done|].
           intros Hin'. apply Hnot. by right.
        -- split; [apply Hlt; left | done].
      * intros i [= <-]. apply elem_of_app. right. left.
    + split_and!.
      * done.
      * intros i Hin. apply Hlt. by right.
      * done.
      * intros i Hin. destruct (Hgone _ Hin) as [Hbelow Hnot]. split; [done|].
        intros Hin'. apply Hnot. by right.
      * by rewrite Hrunning.
  - destruct (running rt) as [r|] eqn:Hrunning; [|done]. injection Hstep as <-.
    eapply startsOnce_quiet; [..|exact Honce]; try done.
    simpl. rewrite startedIds_app. simpl. by rewrite app_nil_r.
  - destruct (running rt) as [r|] eqn:Hrunning; [|done]. injection Hstep as <-.
    by eapply startsOnce_quiet; [..|exact Honce].
  - destruct (running rt) as [r|]; [done|].
    destruct (waiters rt !! waiter) as [[| |]|]; try done.
    injection Hstep as <-. by apply startsOnce_waitTurn.
Qed.

Lemma startsOnce_steps (ss : list Step) (rt rt' : Runtime) :
  startsOnce rt → steps ss rt = Some rt' → startsOnce rt'.
Proof.
  revert rt. induction ss as [|s ss IH]; intros rt Honce Hsteps; simpl in Hsteps.
  - by injection Hsteps as <-.
  - destruct (step s rt) as [rt1|] eqn:Hstep; [|done].
    eapply IH; [|exact Hsteps]. by eapply startsOnce_step.
Qed.

Lemma numbered_waitTurn (waiter : nat) (rt : Runtime) :
  numbered rt → numbered (waitTurn waiter rt).
Proof.
  intros Hnum. unfold waitTurn, numbered.
  destruct (0 <? size (timeoutCallbacks (sys rt)))%nat; simpl.
  - intros i Hin. apply Hnum in Hin. lia.
  - intros i [Hin|Hin%list_elem_of_singleton]%elem_of_app; [by apply Hnum | done].
Qed.

Lemma numbered_step (s : Step) (rt rt' : Runtime) :
  numbered rt → step s rt = Some rt' → numbered rt'.
Proof.
  intros Hnum Hstep.
  destruct s as [callback|timeoutId| | | | |waiter]; simpl in Hstep.
  - injection Hstep as <-. unfold numbered. simpl.
    intros i [Hin|Hin%list_elem_of_singleton]%elem_of_app.
    + apply Hnum in Hin. lia.
    + injection Hin as ->. lia.
  - injection Hstep as <-. unfold numbered. simpl.
    intros i [Hin|Hin%list_elem_of_singleton]%elem_of_app; [by apply Hnum | done].
  - injection Hstep as <-. unfold waitForQueued. simpl. by apply numbered_waitTurn.
  - destruct (running rt) as [r|]; [done|].
    destruct (immediateQueue rt) as [|[timeoutId [callback|waiter]] rest]; [done| |];
      injection Hstep as <-; unfold numbered; simpl.
    + intros i [Hin|Hin%list_elem_of_singleton]%elem_of_app; [by apply Hnum | done].
    + exact Hnum.
  - destruct (running rt) as [r|]; [|done]. injection Hstep as <-.
    unfold numbered. simpl.
    intros i [Hin|Hin%list_elem_of_singleton]%elem_of_app; [by apply Hnum | done].
  - destruct (running rt) as [r|]; [|done]. by injection Hstep as <-.
  - destruct (running rt) as [r|]; [done|].
    destruct (waiters rt !! waiter) as [[| |]|]; try done.
    injection Hstep as <-. by apply numbered_waitTurn.
Qed.

Lemma numbered_steps (ss : list Step) (rt rt' : Runtime) :
  numbered rt → steps ss rt = Some rt' → numbered rt'.
Proof.
  revert rt. induction ss as [|s ss IH]; intros rt Hnum Hsteps; simpl in Hsteps.
  - by injection Hsteps as <-.
  - destruct (step s rt) as [rt1|] eqn:Hstep; [|done].
    eapply IH; [|exact Hsteps]. by eapply numbered_step.
Qed.

(** A timer the event loop holds no more, that did not start, is not
    pending and is not running, stays so. *)
Lemma dead_waitTurn (timeoutId waiter : nat) (rt : Runtime) :
  dead timeoutId rt →
  dead timeoutId (waitTurn waiter rt).
Proof.
  intros ([Hbelow Hnot] & Hfresh & Hpending & Hrunning). unfold dead, waitTurn, gone.
  destruct (0 <? size (timeoutCallbacks (sys rt)))%nat; simpl.
  - rewrite fmap_app, not_elem_of_app. simpl. rewrite list_elem_of_singleton.
    split_and!; [lia | done | lia | done | done | done].
  - rewrite startedIds_app. simpl. rewrite app_nil_r. done.
Qed.

Lemma dead_step (timeoutId : nat) (s : Step) (rt rt' : Runtime) :
  dead timeoutId rt →
  step s rt = Some rt' →
  dead timeoutId rt'.
Proof.
  intros Hdead Hstep. pose proof Hdead as ([Hbelow Hnot] & Hfresh & Hpending & Hrunning).
  unfold dead.
  destruct s as [callback|other| | | | |waiter]; simpl in Hstep.
  - injection Hstep as <-. unfold gone. simpl.
    rewrite fmap_app, not_elem_of_app, startedIds_app. simpl.
    rewrite app_nil_r, list_elem_of_singleton.
    split_and!; [lia | done | lia | done | | done].
    rewrite elem_of_union, elem_of_singleton. intros [->|?]; [lia | done].
  - injection Hstep as <-. unfold gone.
    assert ((immediateQueue (clearTimeout other rt)).*1
            = filter (λ x, x ≠ other) (immediateQueue rt).*1) as ->
      by apply ids_clearImmediate.
    simpl. rewrite startedIds_app. simpl. rewrite app_nil_r.
    split_and!; [done | | done | | done].
    + by intros [_ ?]%list_elem_of_filter.
    + rewrite elem_of_difference. by intros [? _].
  - injection Hstep as <-. unfold waitForQueued. simpl. by apply dead_waitTurn.
  - destruct (running rt) as [r|] eqn:Hrun; [done|].
    destruct (immediateQueue rt) as [|[i [callback|waiter]] rest] eqn:Hqueue;
      [done| |]; injection Hstep as <-; unfold gone; simpl in *;
      apply not_elem_of_cons in Hnot as [Hne Hnot].
    + rewrite startedIds_app. simpl. rewrite not_elem_of_app, list_elem_of_singleton.
      split_and!; [done | done | done | done | done | congruence].
    + rewrite Hrun. done.
  - destruct (running rt) as [r|] eqn:Hrun; [|done]. injection Hstep as <-.
    unfold gone. simpl. rewrite startedIds_app. simpl. rewrite app_nil_r.
    split_and!; [done | done | done | | done].
    rewrite elem_of_difference. by intros [? _].
  - destruct (running rt) as [r|] eqn:Hrun; [|done]. by injection Hstep as <-.
  - destruct (running rt) as [r|]; [done|].
    destruct (waiters rt !! waiter) as [[| |]|]; try done.
    injection Hstep as <-. by apply dead_waitTurn.
Qed.

Lemma dead_steps (timeoutId : nat) (ss : list Step) (rt rt' : Runtime) :
  dead timeoutId rt →
  steps ss rt = Some rt' →
  dead timeoutId rt'.
Proof.
  revert rt. induction ss as [|s ss IH]; intros rt Hdead Hsteps; simpl in Hsteps.
  - by injection Hsteps as <-.
  - destruct (step s rt) as [rt1|] eqn:Hstep; [|done].
    eapply IH; [|exact Hsteps]. by eapply dead_step.
Qed.

Lemma elem_of_startedIds (timeoutId : nat) (events : list TimerEvent) :
  timeoutId ∈ startedIds events ↔ ∃ callback, Started timeoutId callback ∈ events.
Proof.
  unfold startedIds. rewrite list_elem_of_omap. split.
  - intros (e & Hin & He). destruct e; try done. injection He as ->. by eexists.
  - intros (callback & Hin). by exists (Started timeoutId callback).
Qed.

Lemma stuck_waitTurn (timeoutId waiter : nat) (before : list TimerEvent) (rt : Runtime) :
  stuck timeoutId before rt → stuck timeoutId before (waitTurn waiter rt).
Proof.
  intros ([Hbelow Hnot] & Hrunning & Hpending & Hdrained). unfold waitTurn.
  rewrite (pending_is_positive timeoutId) by done.
  unfold stuck, gone. simpl.
  rewrite fmap_app, not_elem_of_app. simpl. rewrite list_elem_of_singleton.
  split_and!; [lia | done | lia | done | done | done].
Qed.

Lemma stuck_step (timeoutId : nat) (before : list TimerEvent) (s : Step)
    (rt rt' : Runtime) :
  stuck timeoutId before rt →
  s ≠ CallClearTimeout timeoutId →
  step s rt = Some rt' →
  stuck timeoutId before rt'.
Proof.
  intros Hstuck Hs Hstep.
  pose proof Hstuck as ([Hbelow Hnot] & Hrunning & Hpending & Hdrained).
  unfold stuck.
  destruct s as [callback|other| | | | |waiter]; simpl in Hstep.
  - injection Hstep as <-. unfold gone. simpl.
    rewrite fmap_app, not_elem_of_app. simpl. rewrite list_elem_of_singleton.
    split_and!; [lia | done | lia | done | set_solver |].
    intros waiter [Hin|Hin%list_elem_of_singleton]%elem_of_app; [by apply Hdrained | done].
  - injection Hstep as <-. unfold gone.
    assert ((immediateQueue (clearTimeout other rt)).*1
            = filter (λ x, x ≠ other) (immediateQueue rt).*1) as ->
      by apply ids_clearImmediate.
    simpl. split_and!; [done | | done | |].
    + by intros [_ ?]%list_elem_of_filter.
    + apply elem_of_difference. split; [done|].
      rewrite elem_of_singleton. intros ->. done.
    + intros waiter [Hin|Hin%list_elem_of_singleton]%elem_of_app;
        [by apply Hdrained | done].
  - injection Hstep as <-. unfold waitForQueued. simpl. by apply stuck_waitTurn.
  - destruct (running rt) as [r|] eqn:Hrun; [done|].
    destruct (immediateQueue rt) as [|[i [callback|waiter]] rest] eqn:Hqueue;
      [done| |]; injection Hstep as <-; unfold gone; simpl in *;
      apply not_elem_of_cons in Hnot as [Hne Hnot].
    + split_and!; [done | done | congruence | done |].
      intros waiter [Hin|Hin%list_elem_of_singleton]%elem_of_app;
        [by apply Hdrained | done].
    + rewrite Hrun. done.
  - destruct (running rt) as [r|] eqn:Hrun; [|done]. injection Hstep as <-.
    unfold gone. simpl. split_and!; [done | done | done | |].
    + apply elem_of_difference. split; [done|].
      rewrite elem_of_singleton. intros ->. done.
    + intros waiter [Hin|Hin%list_elem_of_singleton]%elem_of_app;
        [by apply Hdrained | done].
  - destruct (running rt) as [r|] eqn:Hrun; [|done]. by injection Hstep as <-.
  - destruct (running rt) as [r|]; [done|].
    destruct (waiters rt !! waiter) as [[| |]|]; try done.
    injection Hstep as <-. by apply stuck_waitTurn.
Qed.

Lemma stuck_steps (timeoutId : nat) (before : list TimerEvent) (ss : list Step)
    (rt rt' : Runtime) :
  stuck timeoutId before rt →
  CallClearTimeout timeoutId ∉ ss →
  steps ss rt = Some rt' →
  stuck timeoutId before rt'.
Proof.
  revert rt. induction ss as [|s ss IH]; intros rt Hstuck Hss Hsteps; simpl in Hsteps.
  - by injection Hsteps as <-.
  - apply not_elem_of_cons in Hss as [Hs Hss].
    destruct (step s rt) as [rt1|] eqn:Hstep; [|done].
    eapply IH; [|exact Hss|exact Hsteps].
    apply (stuck_step timeoutId before s rt rt1 Hstuck); [|exact Hstep].
    intros Heq. by apply Hs.
Qed.

End TimerOrder.

(** X15.  A timer that is cleared before it started never starts.  Whatever
    the consumer and the event loop do after [clearTimeout] of a timer that
    [setTimeout] handed out and that has not started, its callback is not
    started and it is not pending again. *)
Theorem cancelled_timer_never_starts (before after : list Step) (timeoutId : nat)
    (rt0 rt : Runtime) :
  steps before initialRuntime = Some rt0 →
  Scheduled timeoutId ∈ timeline rt0 →
  (∀ callback, Started timeoutId callback ∉ timeline rt0) →
  steps after (clearTimeout timeoutId rt0) = Some rt →
  (∀ callback, Started timeoutId callback ∉ timeline rt)
  ∧ timeoutId ∉ timeoutCallbacks (sys rt).
Proof.
  intros Hbefore Hscheduled Hfresh Hafter.
  assert (numbered rt0) as Hnumbered.
  { eapply TimerOrder.numbered_steps; [|exact Hbefore]. by intros i ?%elem_of_nil. }
  pose proof (TimerOrder.startsOnce_steps _ _ _ TimerOrder.startsOnce_initial Hbefore)
    as (_ & _ & _ & _ & Hrunning).
  assert (timeoutId ∉ startedIds (timeline rt0)) as Hnot.
  { intros [callback Hin]%TimerOrder.elem_of_startedIds. by apply (Hfresh callback). }
  assert (dead timeoutId (clearTimeout timeoutId rt0)) as Hdead.
  { unfold dead, gone.
    assert ((immediateQueue (clearTimeout timeoutId rt0)).*1
            = filter (λ x, x ≠ timeoutId) (immediateQueue rt0).*1) as ->
      by apply TimerOrder.ids_clearImmediate.
    simpl. rewrite TimerOrder.startedIds_app. simpl. rewrite app_nil_r.
    split_and!.
    - by apply Hnumbered.
    - by intros [? _]%list_elem_of_filter.
    - done.
    - rewrite elem_of_difference, elem_of_singleton. by intros [_ ?].
    - intros Hrun. by apply Hnot, Hrunning. }
  destruct (TimerOrder.dead_steps _ _ _ _ Hdead Hafter) as (_ & Hnever & Hpending & _).
  split; [|done].
  intros callback Hin. apply Hnever, TimerOrder.elem_of_startedIds. by exists callback.
Qed.

(** Timer [0] is cleared, the event loop goes on: it holds nothing to run. *)
Lemma cancelled_timer_never_starts_witness :
  (∀ callback,
     Started 0 callback
     ∉ timeline (default initialRuntime
                   (steps [CallSetTimeout 5; RunImmediate; CallbackReturns]
                      (clearTimeout 0 (setTimeout 4 initialRuntime).1))))
  ∧ 0 ∉ timeoutCallbacks
          (sys (default initialRuntime
                  (steps [CallSetTimeout 5; RunImmediate; CallbackReturns]
                     (clearTimeout 0 (setTimeout 4 initialRuntime).1)))).
Proof.
  assert (Scheduled 0 ∈ timeline (setTimeout 4 initialRuntime).1) as Hscheduled
    by (apply (bool_decide_unpack _); vm_compute; exact I).
  assert (∀ callback, Started 0 callback ∉ timeline (setTimeout 4 initialRuntime).1)
    as Hfresh.
  { intros callback Hin. vm_compute in Hin.
    apply list_elem_of_singleton in Hin. discriminate Hin. }
  assert (steps [CallSetTimeout 5; RunImmediate; CallbackReturns]
            (clearTimeout 0 (setTimeout 4 initialRuntime).1)
          = Some (default initialRuntime
                    (steps [CallSetTimeout 5; RunImmediate; CallbackReturns]
                       (clearTimeout 0 (setTimeout 4 initialRuntime).1)))) as Hafter
    by (vm_compute; reflexivity).
  exact (cancelled_timer_never_starts [CallSetTimeout 4]
           [CallSetTimeout 5; RunImmediate; CallbackReturns] 0
           (setTimeout 4 initialRuntime).1 _ eq_refl Hscheduled Hfresh Hafter).
Defined.

(** X16.  No timer starts twice.  Over every interleaving of consumer calls
    and steps of the event loop, the callbacks that were started belong to
    different timers, and a timer that started is held by the event loop no
    more. *)
Theorem timers_start_at_most_once (ss : list Step) (rt : Runtime) :
  steps ss initialRuntime = Some rt →
  NoDup (startedIds (timeline rt))
  ∧ ∀ timeoutId callback, Started timeoutId callback ∈ timeline rt → gone timeoutId rt.
Proof.
  intros Hsteps.
  pose proof (TimerOrder.startsOnce_steps _ _ _ TimerOrder.startsOnce_initial Hsteps)
    as (_ & _ & Hnd & Hgone & _).
  split; [done|]. intros timeoutId callback Hin.
  apply Hgone, TimerOrder.elem_of_startedIds. by exists callback.
Qed.

Lemma timers_start_at_most_once_witness :
  NoDup (startedIds
           (timeline (default initialRuntime
                        (steps [CallSetTimeout 4; CallSetTimeout 5; RunImmediate;
                                CallbackReturns; RunImmediate]
                           initialRuntime)))).
Proof.
  assert (steps [CallSetTimeout 4; CallSetTimeout 5; RunImmediate; CallbackReturns;
                 RunImmediate] initialRuntime
          = Some (default initialRuntime
                    (steps [CallSetTimeout 4; CallSetTimeout 5; RunImmediate;
                            CallbackReturns; RunImmediate]
                       initialRuntime))) as Hsteps
    by (vm_compute; reflexivity).
  exact (proj1 (timers_start_at_most_once _ _ Hsteps)).
Defined.

(** X17.  A timer whose callback raises stays pending.  The function handed
    to [setImmediate] deletes the timer from the pending ones after the
    callback returned; when the callback raises it does not get there.
    Until the consumer clears that timer, it is pending whatever else
    happens, and no call of [waitForQueued] resolves. *)
Theorem raised_timer_stays_pending (before after : list Step) (timeoutId : nat)
    (rt0 rt : Runtime) :
  steps before initialRuntime = Some rt0 →
  running rt0 = Some timeoutId →
  timeoutId ∈ timeoutCallbacks (sys rt0) →
  CallClearTimeout timeoutId ∉ after →
  steps (CallbackThrows :: after) rt0 = Some rt →
  timeoutId ∈ timeoutCallbacks (sys rt)
  ∧ ∀ waiter, Drained waiter ∈ timeline rt → Drained waiter ∈ timeline rt0.
Proof.
  intros Hbefore Hrunning Hpending Hclear Hafter.
  pose proof (TimerOrder.startsOnce_steps _ _ _ TimerOrder.startsOnce_initial Hbefore)
    as (_ & _ & _ & Hgone & Hstarted).
  simpl in Hafter. rewrite Hrunning in Hafter.
  assert (stuck timeoutId (timeline rt0) (withRunning None rt0)) as Hstuck.
  { unfold stuck. split_and!; [|done|done|done].
    exact (Hgone _ (Hstarted _ Hrunning)). }
  destruct (TimerOrder.stuck_steps _ _ _ _ _ Hstuck Hclear Hafter)
    as (_ & _ & Hstill & Hdrained).
  done.
Qed.

(** Timer [0] raises; a later timer runs and returns, and [waitForQueued]
    goes on waiting. *)
Lemma raised_timer_stays_pending_witness :
  0 ∈ timeoutCallbacks
        (sys (default initialRuntime
                (steps [CallbackThrows; CallSetTimeout 5; CallWaitForQueued; RunImmediate;
                        CallbackReturns; RunImmediate; Resume 0]
                   (default initialRuntime
                      (steps [CallSetTimeout 4; RunImmediate] initialRuntime))))).
Proof.
  pose (after := [CallSetTimeout 5; CallWaitForQueued; RunImmediate; CallbackReturns;
                  RunImmediate; Resume 0]).
  pose (rt0 := default initialRuntime
                 (steps [CallSetTimeout 4; RunImmediate] initialRuntime)).
  pose (rt := default initialRuntime (steps (CallbackThrows :: after) rt0)).
  assert (steps [CallSetTimeout 4; RunImmediate] initialRuntime = Some rt0) as Hbefore
    by (vm_compute; reflexivity).
  assert (running rt0 = Some 0) as Hrunning by (vm_compute; reflexivity).
  assert (0 ∈ timeoutCallbacks (sys rt0)) as Hpending
    by (apply (bool_decide_unpack _); vm_compute; exact I).
  assert (CallClearTimeout 0 ∉ after) as Hclear.
  { intros Hin. repeat (apply elem_of_cons in Hin as [Hin|Hin]; [discriminate Hin|]).
    by apply elem_of_nil in Hin. }
  assert (steps (CallbackThrows :: after) rt0 = Some rt) as Hafter
    by (vm_compute; reflexivity).
  exact (proj1 (raised_timer_stays_pending [CallSetTimeout 4; RunImmediate] after 0 rt0 rt
                  Hbefore Hrunning Hpending Hclear Hafter)).
Defined.

(** ** Registering during a dispatch *)

Section LiveFacts.
Context `{platform : Platform}.
Variable react : Call → State → State.

Lemma set_absent {V : Type} (key : string) (value : V) (m : JsMap.t V) :
  JsMap.get key m = None → JsMap.set key value m = m ++ [Some (key, value)].
Proof.
  induction m as [|[[k v]|] m IH]; simpl; [done | |].
  - destruct (decide (k = key)); [done|]. intros Hget. by rewrite IH.
  - intros Hget. by rewrite IH.
Qed.

Lemma reactAll_growing {E : Type} (collection : State → list E) (cs : list Call)
    (st : State) :
  (∀ c st, collection st `prefix_of` collection (react c st)) →
  collection st `prefix_of` collection (reactAll react cs st).
Proof.
  intros Hgrow. revert st. induction cs as [|c cs IH]; intros st; simpl; [done|].
  etrans; [apply (Hgrow c)|]. apply IH.
Qed.

(** A live iteration over a collection that its body only adds to: when it
    ends, it has gone through whatever is in the collection then, from
    [index] on, what was added while it ran included. *)
Lemma forEachLive_growing {E : Type} (collection : State → list (option E))
    (body : E → Host unit) (said : E → list Call) :
  (∀ e w, ∃ w', body e w = Returned tt w'
              ∧ collection (host w) `prefix_of` collection (host w')
              ∧ trace w' = trace w ++ (Invoke <$> said e)) →
  ∀ fuel index w w',
    forEachLive fuel collection body index w = Returned tt w' →
    collection (host w) `prefix_of` collection (host w')
    ∧ trace w'
      = trace w ++ (Invoke <$> flat_map said (omap id (drop index (collection (host w'))))).
Proof.
  intros Hbody. induction fuel as [|fuel IH]; intros index w w' Hrun; [done|].
  simpl in Hrun. unfold mbind, Host_bind, getState in Hrun. simpl in Hrun.
  destruct (collection (host w) !! index) as [[e|]|] eqn:Hlookup.
  - destruct (Hbody e w) as (w1 & Hb & Hgrow & Hsaid). rewrite Hb in Hrun.
    apply IH in Hrun as [Hprefix Htrace].
    assert (collection (host w) `prefix_of` collection (host w')) as Hall by (by etrans).
    split; [exact Hall|].
    rewrite (drop_S _ (Some e) index) by (by eapply prefix_lookup_Some).
    rewrite Htrace, Hsaid. simpl. by rewrite fmap_app, <- app_assoc.
  - apply IH in Hrun as [Hprefix Htrace].
    split; [exact Hprefix|].
    rewrite (drop_S _ None index) by (by eapply prefix_lookup_Some).
    exact Htrace.
  - unfold mret, Host_ret in Hrun. injection Hrun as <-.
    split; [done|].
    apply lookup_ge_None in Hlookup. rewrite drop_ge by done.
    simpl. by rewrite app_nil_r.
Qed.

End LiveFacts.

(** X18.  The recursive directory watchers are asked while the registry is
    read, not from a copy of it.  Under a consumer whose reactions only add
    entries to the recursive registry, a dispatch that returns has called
    the watchers of the directory as they were registered when it began, and
    then the recursive watchers of the registry as it is when the dispatch
    ends: a recursive watcher that was registered on a new directory during
    the dispatch is told of the change that was being dispatched. *)
Theorem recursive_watchers_join_the_dispatch `{Platform} (react : Call → State → State)
    (fuel : nat) (path : string) (w w' : World) :
  (∀ c st, recursiveDirectoryWatcherCallbacksMap st
             `prefix_of` recursiveDirectoryWatcherCallbacksMap (react c st)) →
  isIgnored (normalizePath path) = false →
  invokeDirectoryWatchers react fuel path w = Returned tt w' →
  recursiveDirectoryWatcherCallbacksMap (host w)
    `prefix_of` recursiveDirectoryWatcherCallbacksMap (host w')
  ∧ trace w'
    = trace w ++
      (Invoke <$>
         (((λ callback, DirectoryWatcherCall callback (forwardSlash (normalizePath path)))
             <$> default [] (JsMap.get (dirname (normalizePath path))
                               (directoryWatcherCallbacksMap (host w))))
          ++ fired (λ key, watchesDirectory key (dirname (normalizePath path)))
               (forwardSlash (normalizePath path))
               (JsMap.entries (recursiveDirectoryWatcherCallbacksMap (host w'))))).
Proof.
  intros Hgrow Hignored.
  unfold invokeDirectoryWatchers. rewrite Hignored. run_host.
  set (directory := dirname (normalizePath path)).
  set (fileName := forwardSlash (normalizePath path)).
  set (body := λ '(watchedDirectory, recursiveDirectoryWatcherCallbacks),
         if watchesDirectory watchedDirectory directory
         then forEach (λ cb, invoke react (DirectoryWatcherCall cb fileName))
                recursiveDirectoryWatcherCallbacks
         else mret tt).
  pose (said := λ entry : string * list Callback,
          if watchesDirectory entry.1 directory
          then (λ callback, DirectoryWatcherCall callback fileName) <$> entry.2
          else []).
  assert (∀ e w, ∃ w', body e w = Returned tt w'
            ∧ recursiveDirectoryWatcherCallbacksMap (host w)
                `prefix_of` recursiveDirectoryWatcherCallbacksMap (host w')
            ∧ trace w' = trace w ++ (Invoke <$> said e)) as Hbody.
  { intros [r cbs] w0. unfold body, said. simpl.
    destruct (watchesDirectory r directory).
    - eexists. split; [apply forEach_invoke|]. split; [|done].
      simpl. by apply reactAll_growing.
    - exists w0. run_host. split; [by destruct w0|]. split; [done|]. by rewrite app_nil_r. }
  pose proof (forEachLive_growing recursiveDirectoryWatcherCallbacksMap body said Hbody fuel 0)
    as Hlive.
  destruct (JsMap.get directory (directoryWatcherCallbacksMap (host w))) as [l|]; simpl.
  - rewrite forEach_invoke. intros Hrun.
    apply Hlive in Hrun as [Hprefix Htrace]. simpl in Hprefix, Htrace. split.
    + etrans; [|exact Hprefix]. by apply reactAll_growing.
    + rewrite Htrace, drop_0. by rewrite fmap_app, app_assoc.
  - intros Hrun.
    assert (forEachLive fuel recursiveDirectoryWatcherCallbacksMap body 0 w = Returned tt w')
      as Hrun' by (by destruct w).
    apply Hlive in Hrun' as [Hprefix Htrace]. split; [exact Hprefix|].
    by rewrite Htrace, drop_0.
Qed.

Lemma eager_appends (c : Call) (st : State) :
  recursiveDirectoryWatcherCallbacksMap st
    `prefix_of` recursiveDirectoryWatcherCallbacksMap (Sample.eager c st).
Proof.
  destruct c as [callback fileName event|callback fileName]; [done|].
  destruct callback as [|[|callback]]; [done | | done].
  unfold Sample.eager, JsMap.has.
  destruct (JsMap.get "/src" (recursiveDirectoryWatcherCallbacksMap st)) eqn:Hget; [done|].
  unfold watchDirectory. run_host. rewrite Hget. simpl.
  rewrite set_absent by done. by apply prefix_app_r.
Qed.

(** [/src] is watched by [1]; while [1] is told of [/src/a.ts] it has [9]
    watch [/src] recursively, and [9] is told of [/src/a.ts] as well. *)
Lemma recursive_watchers_join_the_dispatch_witness :
  trace (Sample.after
           (@invokeDirectoryWatchers Sample.posix Sample.eager 3 "/src/a.ts"
              (Sample.after (@watchDirectory Sample.posix "/src" 1 false Sample.start))))
  = [Invoke (DirectoryWatcherCall 1 "/src/a.ts");
     Invoke (DirectoryWatcherCall 9 "/src/a.ts")].
Proof.
  pose (w := Sample.after (@watchDirectory Sample.posix "/src" 1 false Sample.start)).
  assert (@invokeDirectoryWatchers Sample.posix Sample.eager 3 "/src/a.ts" w
          = Returned tt
              (Sample.after (@invokeDirectoryWatchers Sample.posix Sample.eager 3
                               "/src/a.ts" w))) as Hrun
    by (vm_compute; reflexivity).
  pose proof (proj2 (@recursive_watchers_join_the_dispatch Sample.posix Sample.eager 3
                       "/src/a.ts" w _ eager_appends eq_refl Hrun)) as Htold.
  vm_compute in Htold. vm_compute. exact Htold.
Defined.
